(** * pytorch_optimizer: Shampoo, ScalableShampoo and SAM

    A shallow embedding of [pytorch_optimizer/optimizer/shampoo.py] and
    [pytorch_optimizer/sam.py].

    The tensor runtime (torch) is an external collaborator: it appears here
    as an interface, [TensorOps].  Tensor objects live in a heap, so that the
    in-place operations of the source ([mul_], [add_], [copy_]) and the
    aliasing between local variables and [p.grad] are the ones the source
    has.  Python floats (hyper-parameters, learning rates, epsilons) are
    rationals.  Python exceptions are the left summand of the result of a
    computation; the world reached when the exception is raised is kept,
    as nothing is rolled back in Python. *)

From Stdlib Require Import QArith Qabs ZArith.
From stdpp Require Import base option list functions gmap strings pretty.

Local Open Scope Z_scope.

(** ** The tensor runtime *)

Module Torch.

(** Identity of a tensor object (its storage) and of a parameter. *)
Abbreviation loc := nat.
Abbreviation pid := nat.

(** The operations of torch that the three optimizers call.  [T] is the type
    of tensor values (shape and contents); 0-dim tensors such as norms are
    tensors as well. *)
Class TensorOps (T : Type) := {
  is_sparse : T → bool;                  (* x.is_sparse *)
  tsize : T → list nat;                  (* x.size() *)
  numel : T → nat;                       (* x.numel() *)
  zeros_like : T → T;                    (* torch.zeros_like(x), x.zero_() *)
  new_zeros : T → nat → nat → T;         (* x.new(d, d).zero_() *)
  new_eye : T → nat → T;                 (* torch.eye(d, out=x.new(d, d)) *)
  mul_scalar : T → Q → T;                (* x * c, for a Python float c *)
  add_scalar : T → Q → T;                (* x + c *)
  rdiv_scalar : Q → T → T;               (* c / x *)
  add_alpha : T → T → Q → T;             (* x.add(y, alpha=a), x + a * y *)
  mul : T → T → T;                       (* x * y *)
  div : T → T → T;                       (* x / y *)
  pow : T → Z → T;                       (* torch.pow(x, n) *)
  abs : T → T;                           (* torch.abs(x) *)
  sqrt : T → T;                          (* torch.sqrt(x) *)
  sqrt_float : Q → Q;                    (* math.sqrt(c) *)
  norm : T → T;                          (* x.norm(p=2), torch.norm(x) *)
  stack : list T → T;                    (* torch.stack(xs), xs non-empty *)
  transpose : T → nat → nat → T;         (* x.transpose(i, j).contiguous() *)
  view : T → list nat → T;               (* x.view(shape) *)
  view_rows : T → nat → T;               (* x.view(d, -1) *)
  t_ : T → T;                            (* x.t() *)
  matmul : T → T → T;                    (* x @ y *)
  transpose_diag : ∀ x i, transpose x i i = x
}.

(** [x.add(y)] is [x.add(y, alpha=1)]. *)
Definition add `{TensorOps T} (x y : T) : T := add_alpha x y 1.

(** ** Exceptions and computations *)

Inductive exn :=
  | NoSparseGradientError (optimizer : string)
  | RuntimeError (msg : string)
  | KeyError (key : string)
  | IndexError (msg : string).

(** A parameter: the tensor object holding its value, and [p.grad]. *)
Record param := Param { data : loc; grad : option loc }.

(** The world a step runs in: the tensor objects, the next free identity,
    the parameters, and the state [St] of the optimizer. *)
Record world (T St : Type) := World {
  heap : loc → T;
  next : loc;
  param_of : pid → param;
  opt : St
}.
Arguments World {T St}.
Arguments heap {T St}.
Arguments next {T St}.
Arguments param_of {T St}.
Arguments opt {T St}.

Definition M (T St A : Type) : Type := world T St → (exn + A) * world T St.

Section Monad.
Context {T St : Type}.
Local Abbreviation M := (M T St).
Local Abbreviation world := (world T St).

Definition ret {A} (a : A) : M A := λ w, (inr a, w).

Definition bind {A B} (m : M A) (k : A → M B) : M B :=
  λ w, match m w with
       | (inl e, w') => (inl e, w')
       | (inr a, w') => k a w'
       end.

Definition raise {A} (e : exn) : M A := λ w, (inl e, w).

Definition get : M world := λ w, (inr w, w).
Definition modify (f : world → world) : M unit := λ w, (inr tt, f w).

(** [for x in xs: body(x)] *)
Fixpoint for_ {A} (xs : list A) (body : A → M unit) : M unit :=
  match xs with
  | [] => ret tt
  | x :: xs' => bind (body x) (λ _, for_ xs' body)
  end.

(** Reading a tensor object, mutating it in place, creating a new one. *)
Definition read (l : loc) : M T := λ w, (inr (heap w l), w).

Definition write (l : loc) (v : T) : M unit :=
  modify (λ w, World (<[l := v]> (heap w)) (next w) (param_of w) (opt w)).

Definition alloc (v : T) : M loc :=
  λ w, (inr (next w),
        World (<[next w := v]> (heap w)) (S (next w)) (param_of w) (opt w)).

Definition get_param (p : pid) : M param := λ w, (inr (param_of w p), w).

Definition set_param (p : pid) (x : param) : M unit :=
  modify (λ w, World (heap w) (next w) (<[p := x]> (param_of w)) (opt w)).

Definition get_opt : M St := λ w, (inr (opt w), w).

Definition set_opt (s : St) : M unit :=
  modify (λ w, World (heap w) (next w) (param_of w) s).

(** [d[key]] on a dict entry that may be missing. *)
Definition lookup_key {A} (key : string) (o : option A) : M A :=
  match o with
  | Some a => ret a
  | None => raise (KeyError key)
  end.
End Monad.

Global Instance M_ret {T St} : MRet (M T St) := @ret T St.
Global Instance M_bind {T St} : MBind (M T St) := λ A B k m, bind m k.

(** Lines 72-75 and 273-276 of shampoo.py: [loss = None], then
    [loss = closure()] when there is a closure.  The closure is user code:
    any computation on the world that returns a loss. *)
Definition call_closure {T St} (closure : option (M T St Q))
    : M T St (option Q) :=
  match closure with
  | Some c => l ← c; mret (Some l)
  | None => mret None
  end.

(** [q > 0.0] on Python floats. *)
Definition Qpos_b (q : Q) : bool := (0 <? Qnum q)%Z.

(** [enumerate(xs)] *)
Definition enumerate {A} (xs : list A) : list (nat * A) :=
  zip (seq 0 (length xs)) xs.

End Torch.

(** ** Shampoo ([class Shampoo] of optimizer/shampoo.py) *)

Module Shampoo.
Import Torch.

(** A parameter group: [group['lr']], [group['momentum']],
    [group['weight_decay']], [group['params']]. *)
Record group := Group {
  lr : Q;
  momentum : Q;
  weight_decay : Q;
  params : list pid
}.

(** The optimizer object.  [preconditioning_compute_steps] went through
    [validate_update_frequency] in [__init__], hence [positive]. *)
Record optimizer := Optimizer {
  preconditioning_compute_steps : positive;
  matrix_eps : Q;
  param_groups : list group
}.

(** [self.state[p]]: a dict with the keys ['step'], ['momentum_buffer'],
    ['pre_cond_<i>'] and ['inv_pre_cond_<i>'].  A key that is absent is
    [None], resp. absent from the map.  The momentum buffer is a tensor
    object of the heap (line 127 stores the object [grad] itself); the
    preconditioner matrices are created by, and only reachable from, this
    dict, and are held by value. *)
Record state (T : Type) := State {
  s_step : option Z;
  s_momentum_buffer : option loc;
  s_pre_cond : gmap nat T;
  s_inv_pre_cond : gmap nat T
}.
Arguments State {T}.
Arguments s_step {T}.
Arguments s_momentum_buffer {T}.
Arguments s_pre_cond {T}.
Arguments s_inv_pre_cond {T}.

(** [len(state)] *)
Definition len {T} (s : state T) : nat :=
  ((if s_step s is Some _ then 1 else 0)
   + (if s_momentum_buffer s is Some _ then 1 else 0)
   + size (s_pre_cond s) + size (s_inv_pre_cond s))%nat.

(** A dict that was never written: [self.state] is a [defaultdict(dict)]. *)
Definition empty_state {T} : state T := State None None ∅ ∅.

Definition set_step {T} (n : Z) (s : state T) : state T :=
  State (Some n) (s_momentum_buffer s) (s_pre_cond s) (s_inv_pre_cond s).

Definition set_momentum_buffer {T} (b : loc) (s : state T) : state T :=
  State (s_step s) (Some b) (s_pre_cond s) (s_inv_pre_cond s).

Definition set_pre_cond {T} (i : nat) (x : T) (s : state T) : state T :=
  State (s_step s) (s_momentum_buffer s) (<[i := x]> (s_pre_cond s))
        (s_inv_pre_cond s).

Definition set_inv_pre_cond {T} (i : nat) (x : T) (s : state T) : state T :=
  State (s_step s) (s_momentum_buffer s) (s_pre_cond s)
        (<[i := x]> (s_inv_pre_cond s)).

Section Shampoo.
Context {T : Type} `{TensorOps T}.

(** [compute_power_svd] of optimizer/shampoo_utils.py, which is not part of
    the sources at hand: a parameter. *)
Variable compute_power_svd : T → Q → T.

Local Abbreviation St := (pid → state T).
Local Abbreviation M := (Torch.M T St).

Definition get_state (p : pid) : M (state T) := λ w, (inr (opt w p), w).

Definition update_state (p : pid) (f : state T → state T) : M unit :=
  modify (λ w, World (heap w) (next w) (param_of w)
                     (<[p := f (opt w p)]> (opt w))).

(** Lines 62-68. *)
Definition reset (self : optimizer) : M unit :=
  for_ (param_groups self) (λ group,
    for_ (params group) (λ p,
      update_state p (set_step 0))).

(** Lines 88-96: the state of a parameter met for the first time. *)
Definition init_state (self : optimizer) (group : group) (p : pid)
    (grad : loc) : M unit :=
  update_state p (set_step 0);;
  (if Qpos_b (momentum group) then
     v ← read grad;
     b ← alloc v;
     update_state p (set_momentum_buffer b)
   else ret tt);;
  v ← read grad;
  for_ (enumerate (tsize v)) (λ '(dim_id, dim),
    update_state p
      (set_pre_cond dim_id (mul_scalar (new_eye v dim) (matrix_eps self)));;
    update_state p (set_inv_pre_cond dim_id (new_zeros v dim dim))).

(** Lines 107-124: one round of the loop over the dimensions.  [grad] is the
    tensor object the local variable [grad] is bound to; the round returns
    the object it is bound to afterwards. *)
Definition precondition_dim (self : optimizer) (p : pid) (order : nat)
    (original_size : list nat) (grad : loc) (dim_id dim : nat) : M loc :=
  state ← get_state p;
  pre_cond ← lookup_key ("pre_cond_" +:+ pretty dim_id)
                        (s_pre_cond state !! dim_id);
  inv_pre_cond ← lookup_key ("inv_pre_cond_" +:+ pretty dim_id)
                            (s_inv_pre_cond state !! dim_id);
  v ← read grad;
  write grad (transpose v 0 dim_id);;
  v ← read grad;
  let transposed_size := tsize v in
  let g := view_rows v dim in
  let g_t := t_ g in
  let pre_cond := add pre_cond (matmul g g_t) in
  update_state p (set_pre_cond dim_id pre_cond);;
  state ← get_state p;
  n ← lookup_key "step" (s_step state);
  inv_pre_cond ←
    (if n mod Z.pos (preconditioning_compute_steps self) =? 0 then
       let r := compute_power_svd pre_cond (-1 / inject_Z (Z.of_nat order)) in
       update_state p (set_inv_pre_cond dim_id r);;
       ret r
     else ret inv_pre_cond);
  if decide (dim_id = (order - 1)%nat) then
    alloc (view (matmul g_t inv_pre_cond) original_size)
  else
    alloc (view (matmul inv_pre_cond g) transposed_size).

Fixpoint precondition_dims (self : optimizer) (p : pid) (order : nat)
    (original_size : list nat) (dims : list (nat * nat)) (grad : loc)
    : M loc :=
  match dims with
  | [] => ret grad
  | (dim_id, dim) :: dims' =>
      grad' ← precondition_dim self p order original_size grad dim_id dim;
      precondition_dims self p order original_size dims' grad'
  end.

(** Lines 98-129: momentum, weight decay, preconditioning and update of a
    parameter [p] whose gradient is the tensor object [grad]. *)
Definition apply_update (self : optimizer) (group : group) (p : pid)
    (prm : param) (grad : loc) : M unit :=
  (if Qpos_b (momentum group) then
     v ← read grad;
     write grad (mul_scalar v (1 - momentum group));;
     state ← get_state p;
     b ← lookup_key "momentum_buffer" (s_momentum_buffer state);
     bv ← read b;
     v ← read grad;
     write grad (add_alpha v bv (momentum group))
   else ret tt);;
  (if Qpos_b (weight_decay group) then
     v ← read grad;
     pv ← read (data prm);
     write grad (add_alpha v pv (weight_decay group))
   else ret tt);;
  v ← read grad;
  let order := length (tsize v) in
  let original_size := tsize v in
  grad' ← precondition_dims self p order original_size
            (enumerate (tsize v)) grad;
  state ← get_state p;
  n ← lookup_key "step" (s_step state);
  update_state p (set_step (n + 1));;
  update_state p (set_momentum_buffer grad');;
  pv ← read (data prm);
  gv ← read grad';
  write (data prm) (add_alpha pv gv (- lr group)).

(** Lines 80-129: the body of the loop over the parameters. *)
Definition step_param (self : optimizer) (group : group) (p : pid) : M unit :=
  prm ← get_param p;
  match Torch.grad prm with
  | None => ret tt
  | Some grad =>
      v ← read grad;
      if is_sparse v then raise (NoSparseGradientError "Shampoo") else
      state ← get_state p;
      (if decide (len state = 0%nat) then init_state self group p grad
       else ret tt);;
      apply_update self group p prm grad
  end.

(** Lines 70-131. *)
Definition step (self : optimizer) (closure : option (M Q)) : M (option Q) :=
  loss ← call_closure closure;
  for_ (param_groups self) (λ group,
    for_ (params group) (step_param self group));;
  ret loss.

End Shampoo.
End Shampoo.

(** ** ScalableShampoo ([class ScalableShampoo] of optimizer/shampoo.py) *)

Module ScalableShampoo.
Import Torch.

(** Modelled from the spec: [LayerWiseGrafting] of
    optimizer/shampoo_utils.py, which is not part of the sources at hand;
    the spec lists graft_type ∈ {None, SGD, AdaGrad, RMSProp, SQRT-N}. *)
Inductive LayerWiseGrafting := NONE | SGD | ADAGRAD | RMSPROP | SQRTN.

Global Instance LayerWiseGrafting_eq_dec : EqDecision LayerWiseGrafting.
Proof. solve_decision. Defined.

(** Modelled from the spec: the [Graft] classes of
    optimizer/shampoo_utils.py (spec 4.3).  A graft owns an accumulator of
    squared gradients and an independent momentum buffer; the buffer is a
    tensor object of the heap, because [update_momentum] returns it and
    the caller then mutates it in place. *)
Record graft (T : Type) := Graft {
  graft_kind : LayerWiseGrafting;
  diagonal_eps_of : Q;
  statistics : T;
  graft_momentum : loc
}.
Arguments Graft {T}.
Arguments graft_kind {T}.
Arguments diagonal_eps_of {T}.
Arguments statistics {T}.
Arguments graft_momentum {T}.

(** [PreConditioner] of optimizer/shampoo_utils.py, which is not part of the
    sources at hand: an interface.  [PC] is the type of a preconditioner
    object; it is reachable from [state['pre_conditioner']] only.
    [preconditioned_grad] gives the value of the preconditioned gradient;
    spec 4.2 describes it as a product of the gradient with the inverse
    roots and does not say which tensor object holds it. *)
Class PreConditionerOps (T PC : Type) := {
  PreConditioner : T → Q → Z → Z → Z → bool → Q → Z → bool → PC;
  pc_add_statistics : PC → T → PC;
  pc_compute_pre_conditioners : PC → PC;
  pc_preconditioned_grad : PC → T → T
}.

Record group := Group {
  lr : Q;
  betas : Q * Q;
  weight_decay : Q;
  params : list pid
}.

(** The optimizer object.  The three step counts went through
    [validate_update_frequency] in [__init__], hence [positive]. *)
Record optimizer := Optimizer {
  moving_average_for_momentum : bool;
  decoupled_weight_decay : bool;
  decoupled_learning_rate : bool;
  inverse_exponent_override : Z;
  start_preconditioning_step : positive;
  preconditioning_compute_steps : positive;
  statistics_compute_steps : positive;
  block_size : Z;
  no_preconditioning_for_layers_with_dim_gt : Z;
  shape_interpretation : bool;
  graft_type : LayerWiseGrafting;
  pre_conditioner_type : Z;
  nesterov : bool;
  diagonal_eps : Q;
  matrix_eps : Q;
  use_svd : bool;
  param_groups : list group
}.

(** [self.state[p]], once written.  Lines 244-266 and 290-312, the only
    places that add keys, write the four keys together, so the dict is
    either empty ([None] below) or has the four of them. *)
Record state (T PC : Type) := State {
  s_step : Z;
  s_momentum : loc;
  s_pre_conditioner : PC;
  s_graft : graft T
}.
Arguments State {T PC}.
Arguments s_step {T PC}.
Arguments s_momentum {T PC}.
Arguments s_pre_conditioner {T PC}.
Arguments s_graft {T PC}.

(** The local variables of one round of the loop of [step] that refer to
    tensor objects, and [is_precondition_step]. *)
Record locals := Locals {
  is_pre : bool;
  graft_grad : loc;
  shampoo_grad : loc
}.

(** Lines 268-269. *)
Definition is_precondition_step (self : optimizer) (step : Z) : bool :=
  Z.pos (start_preconditioning_step self) <=? step.

Section ScalableShampoo.
Context {T PC : Type} `{TensorOps T} `{PreConditionerOps T PC}.

Local Abbreviation St := (pid → option (state T PC)).
Local Abbreviation M := (Torch.M T St).

(** Modelled from the spec: [Graft.add_statistics] (spec 4.3), no-op for
    SGD and None (and for SQRT-N, which has no accumulator), running sum of
    the squared gradient for AdaGrad, exponential average for RMSProp. *)
Definition add_statistics (g : graft T) (grad : T) (beta2 : Q) : graft T :=
  match graft_kind g with
  | ADAGRAD =>
      Graft ADAGRAD (diagonal_eps_of g) (add (statistics g) (mul grad grad))
            (graft_momentum g)
  | RMSPROP =>
      Graft RMSPROP (diagonal_eps_of g)
            (add_alpha (mul_scalar (statistics g) beta2) (mul grad grad)
                       (1 - beta2))
            (graft_momentum g)
  | _ => g
  end.

(** Modelled from the spec: [Graft.precondition_gradient] (spec 4.3),
    division by sqrt(accumulator) + diagonal_eps for AdaGrad and RMSProp,
    scaling by 1/sqrt(numel) for SQRT-N, identity for SGD and None. *)
Definition precondition_gradient (g : graft T) (grad : T) : T :=
  match graft_kind g with
  | ADAGRAD | RMSPROP =>
      div grad (add_scalar (sqrt (statistics g)) (diagonal_eps_of g))
  | SQRTN => mul_scalar grad (1 / sqrt_float (inject_Z (Z.of_nat (numel grad))))
  | _ => grad
  end.

(** Modelled from the spec: [Graft.update_momentum] (spec 4.3),
    m <- beta1 * m + grad on the graft's own buffer, which is returned. *)
Definition update_momentum (g : graft T) (grad : loc) (beta1 : Q) : M loc :=
  m ← read (graft_momentum g);
  write (graft_momentum g) (mul_scalar m beta1);;
  m ← read (graft_momentum g);
  gv ← read grad;
  write (graft_momentum g) (add m gv);;
  ret (graft_momentum g).

(** Modelled from the spec: the constructors [AdaGradGraft(p, eps)],
    [RMSPropGraft(p, eps)], [SGDGraft(p)], [SQRTNGraft(p)] and [Graft(p)] of
    optimizer/shampoo_utils.py; accumulator and momentum buffer start at
    zero, with the shape of the parameter. *)
Definition new_graft (kind : LayerWiseGrafting) (p : T) (eps : Q)
    : M (graft T) :=
  m ← alloc (zeros_like p);
  ret (Graft kind eps (zeros_like p) m).

Definition get_state (p : pid) : M (option (state T PC)) :=
  λ w, (inr (opt w p), w).

Definition set_state (p : pid) (s : state T PC) : M unit :=
  modify (λ w, World (heap w) (next w) (param_of w) (<[p := Some s]> (opt w))).

(** Lines 244-266 and 290-312: the state written by [reset] and by the
    first [step] of a parameter. *)
Definition new_state (self : optimizer) (beta2 : Q) (p : pid)
    : M (state T PC) :=
  prm ← get_param p;
  pv ← read (data prm);
  momentum ← alloc (zeros_like pv);
  let pre_conditioner :=
    PreConditioner pv beta2 (inverse_exponent_override self)
      (block_size self) (no_preconditioning_for_layers_with_dim_gt self)
      (shape_interpretation self) (matrix_eps self)
      (pre_conditioner_type self) (use_svd self) in
  graft ← new_graft (graft_type self) pv (diagonal_eps self);
  let state := State 0 momentum pre_conditioner graft in
  set_state p state;;
  ret state.

(** Lines 238-266. *)
Definition reset (self : optimizer) : M unit :=
  for_ (param_groups self) (λ group,
    for_ (params group) (λ p,
      new_state self (snd (betas group)) p;; ret tt)).

(** Lines 314-329: the step count, the statistics, [graft_grad] and
    [shampoo_grad].  The result of [preconditioned_grad] is taken to be a
    new tensor, as a product of tensors is; whether it could be the object
    [grad] itself is not decided by the sources at hand. *)
Definition gradients (self : optimizer) (group : group) (p : pid)
    (grad : loc) (state : state T PC) : M locals :=
  let '(beta1, beta2) := betas group in
  let step := s_step state + 1 in
  let is_precondition_step := is_precondition_step self step in
  v ← read grad;
  let graft := add_statistics (s_graft state) v beta2 in
  let pre_conditioner := s_pre_conditioner state in
  let pre_conditioner :=
    if step mod Z.pos (statistics_compute_steps self) =? 0
    then pc_add_statistics pre_conditioner v else pre_conditioner in
  let pre_conditioner :=
    if step mod Z.pos (preconditioning_compute_steps self) =? 0
    then pc_compute_pre_conditioners pre_conditioner else pre_conditioner in
  set_state p (State step (s_momentum state) pre_conditioner graft);;
  let pre_conditioner_multiplier : Q :=
    if negb (decoupled_learning_rate self) then lr group else 1%Q in
  graft_grad ←
    alloc (precondition_gradient graft (mul_scalar v pre_conditioner_multiplier));
  shampoo_grad ←
    (if is_precondition_step
     then alloc (pc_preconditioned_grad pre_conditioner v)
     else ret grad);
  ret (Locals is_precondition_step graft_grad shampoo_grad).

(** Lines 331-335. *)
Definition graft_rescale (self : optimizer) (l : locals) : M unit :=
  if decide (graft_type self ≠ NONE) then
    gg ← read (graft_grad l);
    let graft_norm := norm gg in
    sg ← read (shampoo_grad l);
    let shampoo_norm := norm sg in
    sg ← read (shampoo_grad l);
    write (shampoo_grad l)
          (mul sg (div graft_norm (add_scalar shampoo_norm (1 # 10 ^ 16))))
  else ret tt.

(** Lines 337-343. *)
Definition apply_weight_decay (self : optimizer) (group : group)
    (prm : param) (l : locals) : M unit :=
  if Qpos_b (weight_decay group) then
    if negb (decoupled_weight_decay self) then
      sg ← read (shampoo_grad l);
      pv ← read (data prm);
      write (shampoo_grad l) (add_alpha sg pv (weight_decay group));;
      gg ← read (graft_grad l);
      pv ← read (data prm);
      write (graft_grad l) (add_alpha gg pv (weight_decay group))
    else
      sg ← read (shampoo_grad l);
      write (shampoo_grad l)
            (mul_scalar sg (1 - lr group * weight_decay group));;
      gg ← read (graft_grad l);
      write (graft_grad l) (mul_scalar gg (1 - lr group * weight_decay group))
  else ret tt.

(** Lines 345-361. *)
Definition update (self : optimizer) (group : group) (prm : param)
    (grad : loc) (state : state T PC) (l : locals) : M unit :=
  let '(beta1, beta2) := betas group in
  m ← read (s_momentum state);
  write (s_momentum state) (mul_scalar m beta1);;
  m ← read (s_momentum state);
  sg ← read (shampoo_grad l);
  write (s_momentum state) (add m sg);;
  graft_momentum ← update_momentum (s_graft state) grad beta1;
  let '(momentum_update, wd_update) :=
    if is_pre l then (s_momentum state, shampoo_grad l)
    else (graft_momentum, graft_grad l) in
  (if nesterov self then
     let w : Q :=
       if moving_average_for_momentum self then (1 - beta1)%Q else 1%Q in
     wv ← read wd_update;
     write wd_update (mul_scalar wv w);;
     mv ← read momentum_update;
     write momentum_update (mul_scalar mv beta1);;
     mv ← read momentum_update;
     wv ← read wd_update;
     write momentum_update (add mv wv)
   else ret tt);;
  pv ← read (data prm);
  mv ← read momentum_update;
  write (data prm) (add_alpha pv mv (- lr group)).

(** Lines 288-312: [state = self.state[p]], written first when it is
    empty. *)
Definition state_of (self : optimizer) (group : group) (p : pid)
    : M (state T PC) :=
  state ← get_state p;
  match state with
  | None => new_state self (snd (betas group)) p
  | Some state => ret state
  end.

(** Lines 281-361: the body of the loop over the parameters. *)
Definition step_param (self : optimizer) (group : group) (p : pid) : M unit :=
  prm ← get_param p;
  match Torch.grad prm with
  | None => ret tt
  | Some grad =>
      v ← read grad;
      if is_sparse v then raise (NoSparseGradientError "ScalableShampoo") else
      state ← state_of self group p;
      l ← gradients self group p grad state;
      graft_rescale self l;;
      apply_weight_decay self group prm l;;
      update self group prm grad state l
  end.

(** Lines 271-363. *)
Definition step (self : optimizer) (closure : option (M Q)) : M (option Q) :=
  loss ← call_closure closure;
  for_ (param_groups self) (λ group,
    for_ (params group) (step_param self group));;
  ret loss.

End ScalableShampoo.
End ScalableShampoo.

(** ** SAM ([class SAM] of sam.py) *)

Module SAM.
Import Torch.

(** A parameter group.  The remaining keys ([kwargs]) belong to the base
    optimizer, which shares the groups (line 75). *)
Record group := Group {
  rho : Q;
  adaptive : bool;
  params : list pid
}.

Record optimizer := Optimizer {
  param_groups : list group
}.

(** The state of the optimizer, as far as its methods read it: for every
    parameter the tensor under [self.state[p]['old_p']], [None] when the key
    is absent, and the state [B] of the wrapped base optimizer.
    [self.state] is a [defaultdict]: a lookup of [self.state[p]] creates an
    empty dict for [p], which holds no ['old_p'] and is [None] here as well;
    the presence of such an empty dict is not recorded. *)
Record state (B : Type) := State {
  old_p : pid → option loc;
  base : B
}.
Arguments State {B}.
Arguments old_p {B}.
Arguments base {B}.

Section SAM.
Context {T B : Type} `{TensorOps T}.

Local Abbreviation M := (Torch.M T (state B)).

(** [self.base_optimizer.step()]: the base optimizer is whatever class the
    caller passed to [__init__]; it works on the same groups. *)
Variable base_optimizer_step : list group → M unit.

(** The default of [set_to_none] in [torch.optim.Optimizer.zero_grad], which
    depends on the version of torch. *)
Variable set_to_none : bool.

(** [torch.optim.Optimizer.zero_grad]. *)
Definition zero_grad (self : optimizer) : M unit :=
  for_ (param_groups self) (λ group,
    for_ (params group) (λ p,
      prm ← get_param p;
      match grad prm with
      | None => ret tt
      | Some g =>
          if set_to_none then set_param p (Param (data prm) None)
          else v ← read g; write g (zeros_like v)
      end)).

(** Lines 128-136: the list the comprehension builds. *)
Definition grad_norms (self : optimizer) (w : world T (state B)) : list T :=
  group ← param_groups self;
  omap (λ p,
    let prm := param_of w p in
    g ← grad prm;
    let gv := heap w g in
    let pv := heap w (data prm) in
    Some (norm (if adaptive group then mul (abs pv) gv else mul_scalar gv 1)))
    (params group).

(** Lines 125-139. *)
Definition grad_norm (self : optimizer) : M T :=
  match param_groups self with
  | [] => raise (IndexError "list index out of range")
  | group :: _ =>
      match params group with
      | [] => raise (IndexError "list index out of range")
      | _ :: _ =>
          w ← get;
          match grad_norms self w with
          | [] => raise (RuntimeError "stack expects a non-empty TensorList")
          | norms => ret (norm (stack norms))
          end
      end
  end.

Definition set_old_p (p : pid) (l : loc) : M unit :=
  modify (λ w, World (heap w) (next w) (param_of w)
                     (State (<[p := Some l]> (old_p (opt w))) (base (opt w)))).

(** Lines 87-93: the body of the loop of [first_step]. *)
Definition ascend (group : group) (scale : T) (p : pid) : M unit :=
  prm ← get_param p;
  match grad prm with
  | None => ret tt
  | Some g =>
      pv ← read (data prm);
      l ← alloc pv;
      set_old_p p l;;
      pv ← read (data prm);
      gv ← read g;
      let e_w :=
        mul (if adaptive group then mul (pow pv 2) gv else mul_scalar gv 1)
            scale in
      pv ← read (data prm);
      write (data prm) (add pv e_w)
  end.

(** Lines 81-96. *)
Definition first_step (self : optimizer) (zero_grad_flag : bool) : M unit :=
  grad_norm ← grad_norm self;
  for_ (param_groups self) (λ group,
    let scale := rdiv_scalar (rho group) (add_scalar grad_norm (1 # 10 ^ 12)) in
    for_ (params group) (ascend group scale));;
  if zero_grad_flag then zero_grad self else ret tt.

(** Lines 102-105: the body of the loop of [second_step].  [p.data = x]
    makes [p] share the storage of [x].  A missing ['old_p'] raises
    [KeyError]; the empty dict that the lookup of [self.state[p]] may have
    created on the way holds no ['old_p'], so [old_p] is unchanged. *)
Definition restore (p : pid) : M unit :=
  prm ← get_param p;
  match grad prm with
  | None => ret tt
  | Some g =>
      st ← get_opt;
      l ← lookup_key "old_p" (old_p st p);
      set_param p (Param l (grad prm))
  end.

(** Lines 98-111. *)
Definition second_step (self : optimizer) (zero_grad_flag : bool) : M unit :=
  for_ (param_groups self) (λ group, for_ (params group) restore);;
  base_optimizer_step (param_groups self);;
  if zero_grad_flag then zero_grad self else ret tt.

(** Lines 113-123.  The method has no [return]: its value is [None]. *)
Definition step (self : optimizer) (closure : option (M Q))
    : M (option Q) :=
  match closure with
  | None => raise (RuntimeError "Sharpness Aware Minimization requires closure")
  | Some closure =>
      first_step self true;;
      closure;;
      second_step self false;;
      ret None
  end.

End SAM.
End SAM.

(** ** A tensor runtime to compute with

    Dense or sparse vectors of rationals (1-D tensors; a vector with one
    element also stands for a 0-dim tensor and for a 1×1 matrix).
    Elementwise operations broadcast a one-element operand.  Square roots
    are exact on squares of rationals and rounded down otherwise.  The
    matrix operations are those of one-element tensors, the only ones the
    examples below call them on. *)

Module Vec.
Import Torch.

Record tensor := Tensor { values : list Q; sparse : bool }.

Definition Qsqrt (q : Q) : Q :=
  let r := Qred q in Qred (Z.sqrt (Qnum r * Z.pos (Qden r)) # Qden r).

Definition map1 (f : Q → Q) (x : tensor) : tensor :=
  Tensor (map (λ a, Qred (f a)) (values x)) (sparse x).

Definition map2 (f : Q → Q → Q) (x y : tensor) : tensor :=
  Tensor
    match values x, values y with
    | xs, [b] => map (λ a, Qred (f a b)) xs
    | [a], ys => map (λ b, Qred (f a b)) ys
    | xs, ys => zip_with (λ a b, Qred (f a b)) xs ys
    end
    (sparse x).

Definition sum_squares (x : tensor) : Q :=
  foldr (λ a s, a * a + s)%Q 0%Q (values x).

Definition eye (d : nat) : list Q :=
  i ← seq 0 d; (λ j, if decide (i = j) then 1%Q else 0%Q) <$> seq 0 d.

Global Instance tensor_ops : TensorOps tensor := {|
  is_sparse := sparse;
  tsize x := [length (values x)];
  numel x := length (values x);
  zeros_like x := map1 (λ _, 0%Q) x;
  new_zeros _ d d' := Tensor (replicate (d * d') 0%Q) false;
  new_eye _ d := Tensor (eye d) false;
  mul_scalar x c := map1 (λ a, a * c)%Q x;
  add_scalar x c := map1 (λ a, a + c)%Q x;
  rdiv_scalar c x := map1 (λ a, c / a)%Q x;
  add_alpha x y alpha := map2 (λ a b, a + alpha * b)%Q x y;
  mul := map2 Qmult;
  div := map2 Qdiv;
  pow x n := map1 (λ a, Qpower a n) x;
  abs := map1 Qabs;
  sqrt := map1 Qsqrt;
  sqrt_float := Qsqrt;
  norm x := Tensor [Qsqrt (sum_squares x)] false;
  stack xs := Tensor (x ← xs; values x) false;
  transpose x _ _ := x;
  view x _ := x;
  view_rows x _ := x;
  t_ x := x;
  matmul := map2 Qmult;
  transpose_diag _ _ := eq_refl
|}.


(** [compute_power_svd] on a 1×1 matrix, for an integral exponent. *)
Definition compute_power_svd (x : tensor) (p : Q) : tensor :=
  map1 (λ a, Qpower a (Qnum (Qred p))) x.

(** A preconditioner with blocks of size 1 (the docstring of
    [ScalableShampoo]: "Block size = 1 ==> Adagrad"): the statistics are
    the running sums of the squared entries of the gradient on top of
    [matrix_eps], the preconditioner their inverse square roots. *)
Record diagonal := Diagonal { pc_statistics : list Q; pc_roots : list Q }.

Global Instance diagonal_ops : ScalableShampoo.PreConditionerOps tensor diagonal := {|
  ScalableShampoo.PreConditioner p _ _ _ _ _ matrix_eps _ _ :=
    Diagonal ((λ _, matrix_eps) <$> values p) ((λ _, 1%Q) <$> values p);
  ScalableShampoo.pc_add_statistics pc grad :=
    Diagonal (zip_with (λ s a, Qred (s + a * a)) (pc_statistics pc) (values grad))
             (pc_roots pc);
  ScalableShampoo.pc_compute_pre_conditioners pc :=
    Diagonal (pc_statistics pc) ((λ s, Qred (/ Qsqrt s)) <$> pc_statistics pc);
  ScalableShampoo.pc_preconditioned_grad pc grad :=
    Tensor (zip_with (λ r a, Qred (r * a)) (pc_roots pc) (values grad)) false
|}.

(** A tensor with one element. *)
Definition scalar (q : Q) : tensor := Tensor [q] false.

(** Plain gradient descent with a fixed learning rate, as a base optimizer
    for SAM: [p.add_(p.grad, alpha=-lr)]. *)
Definition sgd_step (lr : Q) (groups : list SAM.group)
    : M tensor (SAM.state unit) unit :=
  for_ groups (λ group,
    for_ (SAM.params group) (λ p,
      prm ← get_param p;
      match grad prm with
      | None => ret tt
      | Some g =>
          pv ← read (data prm);
          gv ← read g;
          write (data prm) (add_alpha pv gv (- lr))
      end)).

(** A forward and backward pass of the loss [p ↦ p² / 2] on parameter [p]:
    the gradient is a new tensor with the value of [p]. *)
Definition half_square {St} (p : pid) : M tensor St Q :=
  prm ← get_param p;
  pv ← read (data prm);
  g ← alloc pv;
  set_param p (Param (data prm) (Some g));;
  ret (Qred (sum_squares pv / 2)).

End Vec.

(** ** Concrete optimizers and worlds *)

Module Examples.
Import Torch.

(** No tensor object at an identity that was never allocated. *)
Definition nothing : Vec.tensor := Vec.Tensor [] false.

(** Two one-element parameters: parameter 0 has the value 2 and the dense
    gradient 1, parameter 1 the value 3 and a sparse gradient. *)
Definition heap0 (l : loc) : Vec.tensor :=
  match l with
  | 0 => Vec.scalar 2
  | 1 => Vec.scalar 1
  | 2 => Vec.scalar 3
  | 3 => Vec.Tensor [1%Q] true
  | _ => nothing
  end%nat.

Definition params0 (p : pid) : param :=
  match p with
  | 0 => Param 0 (Some 1)
  | 1 => Param 2 (Some 3)
  | _ => Param 0 None
  end%nat.

Definition shampoo_world : world Vec.tensor (pid → Shampoo.state Vec.tensor) :=
  World heap0 4 params0 (λ _, Shampoo.empty_state).

(** [Shampoo(params, lr=0.1, momentum=0.5)] on both parameters, and on
    parameter 0 alone. *)
Definition shampoo : Shampoo.optimizer :=
  Shampoo.Optimizer 1 (1 # 1000000) [Shampoo.Group (1 # 10) (1 # 2) 0 [0; 1]%nat].

Definition shampoo_group : Shampoo.group :=
  Shampoo.Group (1 # 10) (1 # 2) 0 [0%nat].

Definition shampoo_dense : Shampoo.optimizer :=
  Shampoo.Optimizer 1 (1 # 1000000) [shampoo_group].

Definition scalable_world
    : world Vec.tensor (pid → option (ScalableShampoo.state Vec.tensor Vec.diagonal)) :=
  World heap0 4 params0 (λ _, None).

(** [ScalableShampoo(params, lr=0.1)] with the defaults of [__init__], which
    include [start_preconditioning_step=5] and SGD grafting. *)
Definition scalable_with (start : positive) (groups : list ScalableShampoo.group)
    : ScalableShampoo.optimizer :=
  ScalableShampoo.Optimizer false false true 0 start 1 1 256 8192 true
    ScalableShampoo.SGD 0 true (1 # 10 ^ 10) (1 # 10 ^ 6) false groups.

Definition scalable : ScalableShampoo.optimizer :=
  scalable_with 5
    [ScalableShampoo.Group (1 # 10) (9 # 10, 999 # 1000)%Q 0 [0; 1]%nat].

Definition scalable_group : ScalableShampoo.group :=
  ScalableShampoo.Group (1 # 10) (9 # 10, 999 # 1000)%Q 0 [0%nat].

Definition scalable_dense : ScalableShampoo.optimizer :=
  scalable_with 5 [scalable_group].


(** The state that the first step creates for parameter 0, and the world
    with that state. *)
Definition scalable_state : ScalableShampoo.state Vec.tensor Vec.diagonal :=
  ScalableShampoo.State 0 4 (Vec.Diagonal [1 # 10 ^ 6] [1%Q])
    (ScalableShampoo.Graft ScalableShampoo.SGD (1 # 10 ^ 10) (Vec.scalar 0) 5).

Definition scalable_started
    : world Vec.tensor (pid → option (ScalableShampoo.state Vec.tensor Vec.diagonal)) :=
  snd (ScalableShampoo.state_of scalable_dense scalable_group 0 scalable_world).




(** Parameter 0 with the value 2 and a gradient of norm [1e-16]. *)
Definition scalable_world_tiny
    : world Vec.tensor (pid → option (ScalableShampoo.state Vec.tensor Vec.diagonal)) :=
  World (λ l, match l with
              | 1 => Vec.scalar (1 # 10 ^ 16)
              | _ => heap0 l
              end%nat)
        4 params0 (λ _, None).

Definition scalable_started_tiny
    : world Vec.tensor (pid → option (ScalableShampoo.state Vec.tensor Vec.diagonal)) :=
  snd (ScalableShampoo.state_of scalable_dense scalable_group 0 scalable_world_tiny).

(** [SAM(params, SGD, rho=0.05, lr=0.1)] on parameter 0. *)
Definition sam_world : world Vec.tensor (SAM.state unit) :=
  World heap0 4 params0 (SAM.State (λ _, None) tt).

Definition sam : SAM.optimizer :=
  SAM.Optimizer [SAM.Group (1 # 20) false [0%nat]].

(** Two parameters in two groups: parameter 0 has the value 2 and the
    gradient 3, parameter 1 the value 3 and the gradient 4; the norm of all
    gradients is 5. *)
Definition sam_world_345 : world Vec.tensor (SAM.state unit) :=
  World (λ l, match l with
              | 0 => Vec.scalar 2
              | 1 => Vec.scalar 3
              | 2 => Vec.scalar 3
              | 3 => Vec.scalar 4
              | _ => nothing
              end%nat)
        4 params0 (SAM.State (λ _, None) tt).

Definition sam_two_groups : SAM.optimizer :=
  SAM.Optimizer [SAM.Group (1 # 20) false [0%nat];
                 SAM.Group (1 # 10) false [1%nat]].

(** Three parameters: parameter 0 has the value 1 and the gradient 3,
    parameter 1 the value 3 and the gradient 4, parameter 2 the value 7 and
    no gradient.  The first group is adaptive. *)
Definition sam_world_adaptive : world Vec.tensor (SAM.state unit) :=
  World (λ l, match l with
              | 0 => Vec.scalar 1
              | 1 => Vec.scalar 3
              | 2 => Vec.scalar 3
              | 3 => Vec.scalar 4
              | 4 => Vec.scalar 7
              | _ => nothing
              end%nat)
        5
        (λ p, match p with
              | 0 => Param 0 (Some 1)
              | 1 => Param 2 (Some 3)
              | _ => Param 4 None
              end%nat)
        (SAM.State (λ _, None) tt).

Definition sam_adaptive_group : SAM.group := SAM.Group (1 # 20) true [0; 2]%nat.

Definition sam_adaptive : SAM.optimizer :=
  SAM.Optimizer [sam_adaptive_group; SAM.Group (1 # 10) false [1%nat]].

(** The world of SAM's example after [first_step(zero_grad=True)] and a
    forward and backward pass at the perturbed point. *)
Definition sam_perturbed : world Vec.tensor (SAM.state unit) :=
  snd (Vec.half_square 0 (snd (SAM.first_step true sam true sam_world))).

Definition sam_step :=
  SAM.step (Vec.sgd_step (1 # 10)) true sam.

End Examples.

(** * Properties *)

Import Torch.

(** ** Computations *)

Section MonadFacts.
Context {T St : Type}.
Implicit Types w : world T St.

Lemma bind_inr {A B} (m : M T St A) (k : A → M T St B) w a w' :
  m w = (inr a, w') → (m ≫= k) w = k a w'.
Proof. intros Hm. unfold mbind, M_bind, bind. by rewrite Hm. Qed.

Lemma bind_inl {A B} (m : M T St A) (k : A → M T St B) w e w' :
  m w = (inl e, w') → (m ≫= k) w = (inl e, w').
Proof. intros Hm. unfold mbind, M_bind, bind. by rewrite Hm. Qed.

Lemma bind_inv {A B} (m : M T St A) (k : A → M T St B) w b w' :
  (m ≫= k) w = (inr b, w') →
  ∃ a w1, m w = (inr a, w1) ∧ k a w1 = (inr b, w').
Proof.
  unfold mbind, M_bind, bind. destruct (m w) as [[e|a] w1]; [done|]. eauto.
Qed.

Lemma for_app {A} (xs ys : list A) (body : A → M T St unit) w :
  for_ (xs ++ ys) body w
  = match for_ xs body w with
    | (inl e, w') => (inl e, w')
    | (inr _, w') => for_ ys body w'
    end.
Proof.
  revert w. induction xs as [|x xs IH]; intros w; [done|].
  simpl. unfold bind. destruct (body x w) as [[e|[]] w1]; [done|]. apply IH.
Qed.

(** Two nested loops visit the pairs of an outer and an inner element in
    order. *)
Lemma for_nested {G A} (inner : G → list A) (body : G → A → M T St unit)
    (gs : list G) w :
  for_ gs (λ g, for_ (inner g) (body g)) w
  = for_ (g ← gs; (λ p, (g, p)) <$> inner g) (λ gp, body gp.1 gp.2) w.
Proof.
  revert w. induction gs as [|g gs IH]; intros w; [done|].
  simpl. rewrite for_app. unfold bind.
  replace (for_ ((λ p, (g, p)) <$> inner g) (λ gp, body gp.1 gp.2) w)
    with (for_ (inner g) (body g) w).
  { destruct (for_ (inner g) (body g) w) as [[e|[]] w1]; [done|]. apply IH. }
  clear. revert w. induction (inner g) as [|p ps IHp]; intros w; [done|].
  simpl. unfold bind. destruct (body g p w) as [[e|[]] w1]; [done|]. apply IHp.
Qed.

Lemma for_flat {G A} (inner : G → list A) (body : A → M T St unit)
    (gs : list G) w :
  for_ gs (λ g, for_ (inner g) body) w = for_ (g ← gs; inner g) body w.
Proof.
  revert w. induction gs as [|g gs IH]; intros w; [done|].
  simpl. rewrite for_app. unfold bind.
  destruct (for_ (inner g) body w) as [[e|[]] w1]; [done|]. apply IH.
Qed.

Lemma for_app_inr {A} (xs ys : list A) (body : A → M T St unit) w w' :
  for_ xs body w = (inr tt, w') →
  for_ (xs ++ ys) body w = for_ ys body w'.
Proof.
  revert w. induction xs as [|x xs IH]; intros w; simpl.
  - unfold ret. congruence.
  - unfold bind. destruct (body x w) as [[e|[]] w1]; [done|]. apply IH.
Qed.

Lemma pair_fst_snd {A B} (x : A * B) (a : A) : fst x = a → x = (a, snd x).
Proof. intros <-. by destruct x. Qed.

Lemma for_cons_inl {A} (x : A) (xs : list A) (body : A → M T St unit) w e w' :
  body x w = (inl e, w') → for_ (x :: xs) body w = (inl e, w').
Proof. intros Hx. simpl. unfold bind. by rewrite Hx. Qed.

End MonadFacts.

(** ** Errors *)

(** C7.  [SAM.step] without a closure raises [RuntimeError] at once: the
    world it leaves is the world it was called in, so no parameter is
    perturbed and the base optimizer has not run. *)
Theorem C7_sam_step_requires_closure :
  ∀ (T B : Type) (ops : TensorOps T)
    (base_optimizer_step : list SAM.group → M T (SAM.state B) unit)
    (set_to_none : bool) (self : SAM.optimizer) (w : world T (SAM.state B)),
    SAM.step base_optimizer_step set_to_none self None w
    = (inl (RuntimeError "Sharpness Aware Minimization requires closure"), w).
Proof. reflexivity. Qed.

Lemma shampoo_step_param_sparse {T} `{TensorOps T} cps self group p g
    (w : world T (pid → Shampoo.state T)) :
  grad (param_of w p) = Some g →
  is_sparse (heap w g) = true →
  Shampoo.step_param cps self group p w
  = (inl (NoSparseGradientError "Shampoo"), w).
Proof.
  intros Hg Hs. unfold Shampoo.step_param.
  erewrite bind_inr by reflexivity. rewrite Hg.
  erewrite bind_inr by reflexivity. by rewrite Hs.
Qed.

Lemma scalable_step_param_sparse {T PC} `{TensorOps T}
    `{ScalableShampoo.PreConditionerOps T PC} self group p g
    (w : world T (pid → option (ScalableShampoo.state T PC))) :
  grad (param_of w p) = Some g →
  is_sparse (heap w g) = true →
  ScalableShampoo.step_param self group p w
  = (inl (NoSparseGradientError "ScalableShampoo"), w).
Proof.
  intros Hg Hs. unfold ScalableShampoo.step_param.
  erewrite bind_inr by reflexivity. rewrite Hg.
  erewrite bind_inr by reflexivity. by rewrite Hs.
Qed.

(** The loop over the groups and their parameters stops at the first round
    that raises, in the world that round leaves. *)
Lemma nested_for_raises {T St G} (params : G → list pid)
    (body : G → pid → M T St unit) gs_pre group gs_post ps_pre p ps_post e
    (w1 w2 w3 : world T St) :
  params group = ps_pre ++ p :: ps_post →
  for_ gs_pre (λ group, for_ (params group) (body group)) w1 = (inr tt, w2) →
  for_ ps_pre (body group) w2 = (inr tt, w3) →
  body group p w3 = (inl e, w3) →
  for_ (gs_pre ++ group :: gs_post) (λ group, for_ (params group) (body group)) w1
  = (inl e, w3).
Proof.
  intros Hps Hgs Hpre Hp.
  rewrite (for_app_inr _ _ _ _ _ Hgs).
  apply for_cons_inl. rewrite Hps, (for_app_inr _ _ _ _ _ Hpre).
  by apply for_cons_inl.
Qed.

(** C6.  When the loop of [Shampoo.step] (first part) or of
    [ScalableShampoo.step] (second part) reaches a parameter [p] whose
    gradient is sparse, after the rounds of the groups [gs_pre] and of the
    parameters [ps_pre] before it went through, the step raises
    [NoSparseGradientError], and the world it leaves is [w3], the world the
    earlier rounds left: they keep their updates, and neither the state nor
    the value of [p] was touched by its own round. *)
Theorem C6_sparse_gradient_raises :
  (∀ (T : Type) (ops : TensorOps T) (compute_power_svd : T → Q → T)
     (self : Shampoo.optimizer) closure gs_pre group gs_post ps_pre p ps_post
     g loss (w w1 w2 w3 : world T (pid → Shampoo.state T)),
     Shampoo.param_groups self = gs_pre ++ group :: gs_post →
     Shampoo.params group = ps_pre ++ p :: ps_post →
     call_closure closure w = (inr loss, w1) →
     for_ gs_pre (λ group,
       for_ (Shampoo.params group)
            (Shampoo.step_param compute_power_svd self group)) w1
     = (inr tt, w2) →
     for_ ps_pre (Shampoo.step_param compute_power_svd self group) w2
     = (inr tt, w3) →
     grad (param_of w3 p) = Some g →
     is_sparse (heap w3 g) = true →
     Shampoo.step compute_power_svd self closure w
     = (inl (NoSparseGradientError "Shampoo"), w3))
  ∧
  (∀ (T PC : Type) (ops : TensorOps T)
     (pc_ops : ScalableShampoo.PreConditionerOps T PC)
     (self : ScalableShampoo.optimizer) closure gs_pre group gs_post ps_pre p
     ps_post g loss
     (w w1 w2 w3 : world T (pid → option (ScalableShampoo.state T PC))),
     ScalableShampoo.param_groups self = gs_pre ++ group :: gs_post →
     ScalableShampoo.params group = ps_pre ++ p :: ps_post →
     call_closure closure w = (inr loss, w1) →
     for_ gs_pre (λ group,
       for_ (ScalableShampoo.params group)
            (ScalableShampoo.step_param self group)) w1
     = (inr tt, w2) →
     for_ ps_pre (ScalableShampoo.step_param self group) w2 = (inr tt, w3) →
     grad (param_of w3 p) = Some g →
     is_sparse (heap w3 g) = true →
     ScalableShampoo.step self closure w
     = (inl (NoSparseGradientError "ScalableShampoo"), w3)).
Proof.
  split.
  - intros * Hgs Hps Hc Hpre1 Hpre2 Hg Hs. unfold Shampoo.step.
    erewrite bind_inr by exact Hc. apply bind_inl. rewrite Hgs.
    eapply (nested_for_raises Shampoo.params); eauto.
    by eapply shampoo_step_param_sparse.
  - intros * Hgs Hps Hc Hpre1 Hpre2 Hg Hs. unfold ScalableShampoo.step.
    erewrite bind_inr by exact Hc. apply bind_inl. rewrite Hgs.
    eapply (nested_for_raises ScalableShampoo.params); eauto.
    by eapply scalable_step_param_sparse.
Qed.

Lemma C6_sparse_gradient_raises_witness :
  Shampoo.step Vec.compute_power_svd Examples.shampoo None Examples.shampoo_world
  = (inl (NoSparseGradientError "Shampoo"),
     snd (Shampoo.step_param Vec.compute_power_svd Examples.shampoo
            (Shampoo.Group (1 # 10) (1 # 2) 0 [0; 1]%nat) 0%nat
            Examples.shampoo_world))
  ∧ ScalableShampoo.step Examples.scalable None Examples.scalable_world
  = (inl (NoSparseGradientError "ScalableShampoo"),
     snd (ScalableShampoo.step_param Examples.scalable
            (ScalableShampoo.Group (1 # 10) (9 # 10, 999 # 1000)%Q 0 [0; 1]%nat)
            0%nat Examples.scalable_world)).
Proof.
  split.
  - apply (proj1 C6_sparse_gradient_raises) with
      (gs_pre := []) (gs_post := []) (ps_pre := [0%nat]) (p := 1%nat)
      (ps_post := []) (g := 3%nat) (loss := None)
      (group := Shampoo.Group (1 # 10) (1 # 2) 0 [0; 1]%nat)
      (w1 := Examples.shampoo_world) (w2 := Examples.shampoo_world);
      vm_compute; reflexivity.
  - apply (proj2 C6_sparse_gradient_raises) with
      (gs_pre := []) (gs_post := []) (ps_pre := [0%nat]) (p := 1%nat)
      (ps_post := []) (g := 3%nat) (loss := None)
      (group := ScalableShampoo.Group (1 # 10) (9 # 10, 999 # 1000)%Q 0 [0; 1]%nat)
      (w1 := Examples.scalable_world) (w2 := Examples.scalable_world);
      vm_compute; reflexivity.
Defined.

(** ** The value of [step] *)

(** C5, as amended.  [Shampoo.step] and [ScalableShampoo.step] called with a
    closure run it first and return its loss, and called without a closure
    return [None], whenever their loop over the parameters raises nothing;
    the loop runs in the world the closure leaves.  [SAM.step] with a
    closure returns [None] once its two steps and the closure went through:
    the loss of the closure is dropped. *)
Theorem C5_step_return_value :
  (∀ (T : Type) (ops : TensorOps T) (compute_power_svd : T → Q → T)
     (self : Shampoo.optimizer),
     (∀ (closure : M T (pid → Shampoo.state T) Q) (loss : Q)
        (w w1 w2 : world T (pid → Shampoo.state T)),
        closure w = (inr loss, w1) →
        for_ (Shampoo.param_groups self) (λ group,
          for_ (Shampoo.params group)
               (Shampoo.step_param compute_power_svd self group)) w1
        = (inr tt, w2) →
        Shampoo.step compute_power_svd self (Some closure) w
        = (inr (Some loss), w2))
     ∧ (∀ (w w2 : world T (pid → Shampoo.state T)),
          for_ (Shampoo.param_groups self) (λ group,
            for_ (Shampoo.params group)
                 (Shampoo.step_param compute_power_svd self group)) w
          = (inr tt, w2) →
          Shampoo.step compute_power_svd self None w = (inr None, w2)))
  ∧
  (∀ (T PC : Type) (ops : TensorOps T)
     (pc_ops : ScalableShampoo.PreConditionerOps T PC)
     (self : ScalableShampoo.optimizer),
     (∀ (closure : M T (pid → option (ScalableShampoo.state T PC)) Q)
        (loss : Q)
        (w w1 w2 : world T (pid → option (ScalableShampoo.state T PC))),
        closure w = (inr loss, w1) →
        for_ (ScalableShampoo.param_groups self) (λ group,
          for_ (ScalableShampoo.params group)
               (ScalableShampoo.step_param self group)) w1
        = (inr tt, w2) →
        ScalableShampoo.step self (Some closure) w = (inr (Some loss), w2))
     ∧ (∀ (w w2 : world T (pid → option (ScalableShampoo.state T PC))),
          for_ (ScalableShampoo.param_groups self) (λ group,
            for_ (ScalableShampoo.params group)
                 (ScalableShampoo.step_param self group)) w
          = (inr tt, w2) →
          ScalableShampoo.step self None w = (inr None, w2)))
  ∧
  (∀ (T B : Type) (ops : TensorOps T)
     (base_optimizer_step : list SAM.group → M T (SAM.state B) unit)
     (set_to_none : bool) (self : SAM.optimizer) closure loss
     (w w1 w2 w3 : world T (SAM.state B)),
     SAM.first_step set_to_none self true w = (inr tt, w1) →
     closure w1 = (inr loss, w2) →
     SAM.second_step base_optimizer_step set_to_none self false w2
     = (inr tt, w3) →
     SAM.step base_optimizer_step set_to_none self (Some closure) w
     = (inr None, w3)).
Proof.
  split; [|split].
  - intros *. split.
    + intros * Hc Hloop. unfold Shampoo.step, call_closure.
      unfold mbind, M_bind, bind, mret, M_ret, ret. rewrite Hc.
      cbv beta iota. by rewrite Hloop.
    + intros * Hloop. unfold Shampoo.step, call_closure.
      erewrite bind_inr by reflexivity.
      by erewrite bind_inr by exact Hloop.
  - intros *. split.
    + intros * Hc Hloop. unfold ScalableShampoo.step, call_closure.
      unfold mbind, M_bind, bind, mret, M_ret, ret. rewrite Hc.
      cbv beta iota. by rewrite Hloop.
    + intros * Hloop. unfold ScalableShampoo.step, call_closure.
      erewrite bind_inr by reflexivity.
      by erewrite bind_inr by exact Hloop.
  - intros * H1 Hc H2. unfold SAM.step.
    erewrite bind_inr by exact H1. erewrite bind_inr by exact Hc.
    by erewrite bind_inr by exact H2.
Qed.

Lemma C5_step_return_value_witness :
  fst (Shampoo.step Vec.compute_power_svd Examples.shampoo_dense
         (Some (Vec.half_square 0)) Examples.shampoo_world)
  = inr (Some 2%Q)
  ∧ fst (Shampoo.step Vec.compute_power_svd Examples.shampoo_dense None
           Examples.shampoo_world)
    = inr None
  ∧ fst (ScalableShampoo.step Examples.scalable_dense
           (Some (Vec.half_square 0)) Examples.scalable_world)
    = inr (Some 2%Q)
  ∧ fst (ScalableShampoo.step Examples.scalable_dense None
           Examples.scalable_world)
    = inr None
  ∧ fst (Examples.sam_step (Some (Vec.half_square 0)) Examples.sam_world)
    = inr None.
Proof.
  destruct C5_step_return_value as (Hshampoo & Hscalable & Hsam).
  destruct (Hshampoo _ _ Vec.compute_power_svd Examples.shampoo_dense)
    as [Hshampoo1 Hshampoo2].
  destruct (Hscalable Vec.tensor Vec.diagonal _ _ Examples.scalable_dense)
    as [Hscalable1 Hscalable2].
  split; [|split; [|split; [|split]]].
  - set (w1 := snd (Vec.half_square 0 Examples.shampoo_world)).
    rewrite (Hshampoo1 (Vec.half_square 0) 2%Q Examples.shampoo_world w1
               (snd (for_ (Shampoo.param_groups Examples.shampoo_dense)
                       (λ group, for_ (Shampoo.params group)
                          (Shampoo.step_param Vec.compute_power_svd
                             Examples.shampoo_dense group)) w1)));
      [reflexivity|..]; apply pair_fst_snd; vm_compute; reflexivity.
  - rewrite (Hshampoo2 Examples.shampoo_world
               (snd (for_ (Shampoo.param_groups Examples.shampoo_dense)
                       (λ group, for_ (Shampoo.params group)
                          (Shampoo.step_param Vec.compute_power_svd
                             Examples.shampoo_dense group))
                       Examples.shampoo_world)));
      [reflexivity|]; apply pair_fst_snd; vm_compute; reflexivity.
  - set (w1 := snd (Vec.half_square 0 Examples.scalable_world)).
    rewrite (Hscalable1 (Vec.half_square 0) 2%Q Examples.scalable_world w1
               (snd (for_ (ScalableShampoo.param_groups Examples.scalable_dense)
                       (λ group, for_ (ScalableShampoo.params group)
                          (ScalableShampoo.step_param Examples.scalable_dense
                             group)) w1)));
      [reflexivity|..]; apply pair_fst_snd; vm_compute; reflexivity.
  - rewrite (Hscalable2 Examples.scalable_world
               (snd (for_ (ScalableShampoo.param_groups Examples.scalable_dense)
                       (λ group, for_ (ScalableShampoo.params group)
                          (ScalableShampoo.step_param Examples.scalable_dense
                             group)) Examples.scalable_world)));
      [reflexivity|]; apply pair_fst_snd; vm_compute; reflexivity.
  - unfold Examples.sam_step.
    set (w1 := snd (SAM.first_step true Examples.sam true Examples.sam_world)).
    set (w2 := snd (Vec.half_square 0 w1)).
    rewrite (Hsam _ _ _ (Vec.sgd_step (1 # 10)) true Examples.sam
               (Vec.half_square 0)
               (2101250000004100000000002 # 1000000000002000000000001)
               Examples.sam_world w1 w2
               (snd (SAM.second_step (Vec.sgd_step (1 # 10)) true Examples.sam
                       false w2)));
      [reflexivity|..]; apply pair_fst_snd; vm_compute; reflexivity.
Defined.

(** C5 as stated fails for SAM: the closure below, a forward and backward
    pass, returns a loss, and [SAM.step] returns [None]. *)
Lemma C5_counterexample :
  fst (Vec.half_square 0 (snd (SAM.first_step true Examples.sam true Examples.sam_world)))
  = inr (2101250000004100000000002 # 1000000000002000000000001)
  ∧ fst (SAM.step (Vec.sgd_step (1 # 10)) true Examples.sam
           (Some (Vec.half_square 0)) Examples.sam_world)
  = inr None.
Proof. split; vm_compute; reflexivity. Qed.

(** ** [reset] *)

(** [Shampoo.reset] only writes the key ['step']: the tensor objects, the
    momentum buffer and the preconditioner matrices of every parameter are
    those of before the call. *)
Lemma shampoo_reset_spec {T} `{TensorOps T} (self : Shampoo.optimizer)
    (w : world T (pid → Shampoo.state T)) :
  ∃ w', Shampoo.reset self w = (inr tt, w')
    ∧ heap w' = heap w ∧ next w' = next w ∧ param_of w' = param_of w
    ∧ ∀ p, Shampoo.s_momentum_buffer (opt w' p)
           = Shampoo.s_momentum_buffer (opt w p)
         ∧ Shampoo.s_pre_cond (opt w' p) = Shampoo.s_pre_cond (opt w p)
         ∧ Shampoo.s_inv_pre_cond (opt w' p)
           = Shampoo.s_inv_pre_cond (opt w p).
Proof.
  unfold Shampoo.reset. revert w.
  induction (Shampoo.param_groups self) as [|group groups IH]; intros w.
  { by exists w. }
  assert (∃ w1, for_ (Shampoo.params group)
                  (λ p, Shampoo.update_state p (Shampoo.set_step 0)) w
                = (inr tt, w1)
            ∧ heap w1 = heap w ∧ next w1 = next w ∧ param_of w1 = param_of w
            ∧ ∀ p, Shampoo.s_momentum_buffer (opt w1 p)
                   = Shampoo.s_momentum_buffer (opt w p)
                 ∧ Shampoo.s_pre_cond (opt w1 p) = Shampoo.s_pre_cond (opt w p)
                 ∧ Shampoo.s_inv_pre_cond (opt w1 p)
                   = Shampoo.s_inv_pre_cond (opt w p))
    as (w1 & Hrun & Hh & Hn & Hp & Hst).
  { clear IH. revert w.
    induction (Shampoo.params group) as [|p ps IHp]; intros w.
    { by exists w. }
    destruct (IHp (World (heap w) (next w) (param_of w)
                     (<[p := Shampoo.set_step 0 (opt w p)]> (opt w))))
      as (w1 & Hrun & Hh & Hn & Hp & Hst).
    exists w1. split; [exact Hrun|]. do 3 (split; [done|]).
    intros q. destruct (Hst q) as (E1 & E2 & E3). rewrite E1, E2, E3. simpl.
    destruct (decide (p = q)) as [->|];
      [by rewrite fn_lookup_insert|by rewrite fn_lookup_insert_ne]. }
  destruct (IH w1) as (w' & Hrun' & Hh' & Hn' & Hp' & Hst').
  exists w'. split.
  { simpl. unfold bind. by rewrite Hrun. }
  do 3 (split; [congruence|]).
  intros p. destruct (Hst' p) as (E1 & E2 & E3). rewrite E1, E2, E3.
  apply Hst.
Qed.

(** C4: what [Shampoo.reset] does after one step of the example
    ([Shampoo(lr=0.1, momentum=0.5)], parameter 2, gradient 1).  The step
    counter is back to 0; the momentum buffer is still the tensor the step
    stored, and ['pre_cond_0'] and ['inv_pre_cond_0'] are still the
    accumulated matrices, not [matrix_eps * eye] and zero.  On a parameter
    that never went through [step], [reset] leaves a dict with ['step']
    alone, so that the next [step] skips lines 89-96 and raises [KeyError].
    [ScalableShampoo.reset], after one step of its example, builds momentum,
    preconditioner and graft anew. *)
Theorem C4_shampoo_reset_keeps_buffers :
  let w1 := snd (Shampoo.step Vec.compute_power_svd Examples.shampoo_dense
                   None Examples.shampoo_world) in
  let w2 := snd (Shampoo.reset Examples.shampoo_dense w1) in
  (Shampoo.s_step (opt w1 0%nat) = Some 1
   ∧ Shampoo.s_step (opt w2 0%nat) = Some 0
   ∧ Shampoo.s_momentum_buffer (opt w1 0%nat) = Some 5%nat
   ∧ Shampoo.s_momentum_buffer (opt w2 0%nat) = Some 5%nat
   ∧ heap w2 5%nat = Vec.scalar (1000000 # 1000001)
   ∧ Shampoo.s_pre_cond (opt w2 0%nat) !! 0%nat
     = Some (Vec.scalar (1000001 # 1000000))
   ∧ Shampoo.s_inv_pre_cond (opt w2 0%nat) !! 0%nat
     = Some (Vec.scalar (1000000 # 1000001)))
  ∧ fst (Shampoo.step Vec.compute_power_svd Examples.shampoo_dense None
           (snd (Shampoo.reset Examples.shampoo_dense Examples.shampoo_world)))
    = inl (KeyError "momentum_buffer")
  ∧
  let v1 := snd (ScalableShampoo.step Examples.scalable_dense None
                   Examples.scalable_world) in
  let v2 := snd (ScalableShampoo.reset Examples.scalable_dense v1) in
  ∃ st1 st2,
    opt v1 0%nat = Some st1 ∧ opt v2 0%nat = Some st2
    ∧ ScalableShampoo.s_step st1 = 1 ∧ ScalableShampoo.s_step st2 = 0
    ∧ heap v1 (ScalableShampoo.s_momentum st1)
      = Vec.scalar (10000000000000000 # 10000000000000001)
    ∧ heap v2 (ScalableShampoo.s_momentum st2) = Vec.scalar 0
    ∧ ScalableShampoo.s_pre_conditioner st1
      = Vec.Diagonal [1000001 # 1000000] [1%Q]
    ∧ ScalableShampoo.s_pre_conditioner st2
      = Vec.Diagonal [1 # 1000000] [1%Q]
    ∧ heap v1 (ScalableShampoo.graft_momentum (ScalableShampoo.s_graft st1))
      = Vec.scalar (19000000000000001 # 10000000000000001)
    ∧ heap v2 (ScalableShampoo.graft_momentum (ScalableShampoo.s_graft st2))
      = Vec.scalar 0.
Proof.
  split; [|split].
  - vm_compute. repeat split; reflexivity.
  - vm_compute. reflexivity.
  - eexists _, _. vm_compute. repeat split; reflexivity.
Qed.

(** ** SAM *)

Section SAMFacts.
Context {T B : Type} `{ops : TensorOps T}.
Implicit Types w : world T (SAM.state B).

Lemma restore_loop (ps : list pid) w :
  (∀ p, p ∈ ps → is_Some (grad (param_of w p)) →
        is_Some (SAM.old_p (opt w) p)) →
  ∃ w', for_ ps SAM.restore w = (inr tt, w')
    ∧ heap w' = heap w ∧ next w' = next w ∧ opt w' = opt w
    ∧ (∀ p, grad (param_of w' p) = grad (param_of w p))
    ∧ (∀ p, p ∈ ps → is_Some (grad (param_of w p)) →
            SAM.old_p (opt w) p = Some (data (param_of w' p)))
    ∧ (∀ p, p ∉ ps ∨ grad (param_of w p) = None →
            param_of w' p = param_of w p).
Proof.
  revert w. induction ps as [|q ps IH]; intros w Hold.
  { exists w. repeat split; try done. intros p Hp. by apply elem_of_nil in Hp. }
  simpl. unfold bind, SAM.restore at 1.
  unfold mbind, M_bind, bind, get_param, get_opt, lookup_key.
  destruct (grad (param_of w q)) as [g|] eqn:Hg.
  - destruct (Hold q) as [l Hl]; [left|by rewrite Hg|]. rewrite Hl. simpl.
    destruct (IH (World (heap w) (next w)
                    (<[q := Param l (Some g)]> (param_of w)) (opt w)))
      as (w' & Hrun & Hh & Hn & Ho & Hgr & Hin & Hout).
    { simpl. intros p Hp. destruct (decide (q = p)) as [->|Hne].
      - rewrite fn_lookup_insert. intros _. by rewrite Hl.
      - rewrite fn_lookup_insert_ne by done. apply Hold. by right. }
    simpl in *. exists w'. split; [exact Hrun|]. do 3 (split; [done|]).
    split; [|split].
    + intros p. rewrite Hgr. destruct (decide (q = p)) as [->|Hne].
      * by rewrite fn_lookup_insert.
      * by rewrite fn_lookup_insert_ne.
    + intros p Hp Hsome. destruct (decide (p ∈ ps)) as [Hps|Hps].
      * apply Hin; [done|]. destruct (decide (q = p)) as [->|Hne].
        -- by rewrite fn_lookup_insert.
        -- by rewrite fn_lookup_insert_ne.
      * apply elem_of_cons in Hp as [->|]; [|done].
        rewrite Hout by (by left). by rewrite fn_lookup_insert.
    + intros p Hp. assert (q ≠ p) as Hne.
      { intros ->. destruct Hp as [Hp|Hp]; [|congruence].
        apply Hp. left. }
      rewrite Hout, fn_lookup_insert_ne; [done..|].
      destruct Hp as [Hp|Hp].
      * left. intros Hps. apply Hp. by right.
      * right. by rewrite fn_lookup_insert_ne.
  - simpl. destruct (IH w) as (w' & Hrun & Hh & Hn & Ho & Hgr & Hin & Hout).
    { intros p Hp. apply Hold. by right. }
    exists w'. split; [exact Hrun|]. do 4 (split; [done|]). split.
    + intros p Hp Hsome. apply elem_of_cons in Hp as [->|Hp]; [|by apply Hin].
      rewrite Hg in Hsome. by destruct Hsome.
    + intros p Hp. apply Hout. destruct Hp as [Hp|Hp]; [|by right].
      left. intros Hps. apply Hp. by right.
Qed.

End SAMFacts.

(** C3.  When every parameter of the groups that has a gradient has an
    ['old_p'], [second_step] is the base optimizer's step (followed by
    [zero_grad] when asked) run in the world [w_r] in which every such
    parameter is bound to the tensor saved as its ['old_p'], hence holds the
    saved value, and in which the gradients, the tensor objects and the
    states are those [second_step] was called with. *)
Theorem C3_second_step_restores_then_delegates :
  ∀ (T B : Type) (ops : TensorOps T)
    (base_optimizer_step : list SAM.group → M T (SAM.state B) unit)
    (set_to_none : bool) (self : SAM.optimizer) (zero_grad_flag : bool)
    (w : world T (SAM.state B)),
    (∀ group p, group ∈ SAM.param_groups self → p ∈ SAM.params group →
                is_Some (grad (param_of w p)) →
                is_Some (SAM.old_p (opt w) p)) →
    ∃ w_r,
      SAM.second_step base_optimizer_step set_to_none self zero_grad_flag w
      = (base_optimizer_step (SAM.param_groups self);;
         if zero_grad_flag then SAM.zero_grad set_to_none self else mret tt) w_r
      ∧ heap w_r = heap w ∧ next w_r = next w ∧ opt w_r = opt w
      ∧ (∀ p, grad (param_of w_r p) = grad (param_of w p))
      ∧ (∀ group p, group ∈ SAM.param_groups self → p ∈ SAM.params group →
                    is_Some (grad (param_of w p)) →
                    ∃ l, SAM.old_p (opt w) p = Some l
                         ∧ data (param_of w_r p) = l
                         ∧ heap w_r (data (param_of w_r p)) = heap w l).
Proof.
  intros * Hold.
  destruct (restore_loop (g ← SAM.param_groups self; SAM.params g) w)
    as (w_r & Hrun & Hh & Hn & Ho & Hgr & Hin & _).
  { intros p Hp. apply list_elem_of_bind in Hp as (g & Hp & Hg).
    by apply (Hold g). }
  exists w_r. split; [|do 4 (split; [done|])].
  - unfold SAM.second_step.
    by erewrite bind_inr by (rewrite for_flat; exact Hrun).
  - intros group p Hg Hp Hsome. exists (data (param_of w_r p)).
    split; [|by rewrite Hh]. apply Hin; [|done].
    apply list_elem_of_bind. by exists group.
Qed.

Lemma C3_second_step_restores_then_delegates_witness :
  ∃ w_r,
    SAM.second_step (Vec.sgd_step (1 # 10)) true Examples.sam false
      Examples.sam_perturbed
    = (Vec.sgd_step (1 # 10) (SAM.param_groups Examples.sam);; mret tt) w_r
    ∧ heap w_r = heap Examples.sam_perturbed
    ∧ next w_r = next Examples.sam_perturbed
    ∧ opt w_r = opt Examples.sam_perturbed
    ∧ (∀ p, grad (param_of w_r p) = grad (param_of Examples.sam_perturbed p))
    ∧ (∀ group p, group ∈ SAM.param_groups Examples.sam →
                  p ∈ SAM.params group →
                  is_Some (grad (param_of Examples.sam_perturbed p)) →
                  ∃ l, SAM.old_p (opt Examples.sam_perturbed) p = Some l
                       ∧ data (param_of w_r p) = l
                       ∧ heap w_r (data (param_of w_r p))
                         = heap Examples.sam_perturbed l).
Proof.
  apply (C3_second_step_restores_then_delegates _ _ _ (Vec.sgd_step (1 # 10))
           true Examples.sam false Examples.sam_perturbed).
  intros group p Hgroup Hp _.
  apply list_elem_of_singleton in Hgroup as ->.
  apply list_elem_of_singleton in Hp as ->.
  vm_compute. eauto.
Defined.

Section SAMPerturbation.
Context {T B : Type} `{ops : TensorOps T}.
Implicit Types w : world T (SAM.state B).

Lemma ascend_run group scale q w :
  SAM.ascend group scale q w
  = match grad (param_of w q) with
    | None => (inr tt, w)
    | Some g =>
        let pv := heap w (data (param_of w q)) in
        let h := <[next w := pv]> (heap w) in
        let e_w :=
          mul (if SAM.adaptive group then mul (pow (h (data (param_of w q))) 2) (h g)
               else mul_scalar (h g) 1) scale in
        (inr tt,
         World (<[data (param_of w q) := add (h (data (param_of w q))) e_w]> h)
               (S (next w)) (param_of w)
               (SAM.State (<[q := Some (next w)]> (SAM.old_p (opt w)))
                          (SAM.base (opt w))))
    end.
Proof.
  unfold SAM.ascend, mbind, M_bind, bind, get_param. simpl.
  by destruct (grad (param_of w q)).
Qed.

(** The loop of [first_step] over parameters that are distinct objects with
    storage of their own: every parameter with a gradient is moved by its
    [e_w], computed from the values before the loop, and its value before
    the loop is saved in a new tensor. *)
Lemma ascend_loop (scale : SAM.group → T) (ps : list (SAM.group * pid)) w :
  NoDup ps.*2 →
  (∀ q, q ∈ ps.*2 →
        (data (param_of w q) < next w)%nat
        ∧ ∀ g, grad (param_of w q) = Some g → (g < next w)%nat) →
  (∀ q q', q ∈ ps.*2 → q' ∈ ps.*2 → q ≠ q' →
           data (param_of w q) ≠ data (param_of w q')) →
  (∀ q q' g, q ∈ ps.*2 → q' ∈ ps.*2 → grad (param_of w q') = Some g →
             g ≠ data (param_of w q)) →
  ∃ w', for_ ps (λ gp, SAM.ascend gp.1 (scale gp.1) gp.2) w = (inr tt, w')
    ∧ param_of w' = param_of w
    ∧ (next w ≤ next w')%nat
    ∧ SAM.base (opt w') = SAM.base (opt w)
    ∧ (∀ l, (l < next w)%nat →
            (∀ q, q ∈ ps.*2 → is_Some (grad (param_of w q)) →
                  l ≠ data (param_of w q)) →
            heap w' l = heap w l)
    ∧ (∀ q, q ∉ ps.*2 → SAM.old_p (opt w') q = SAM.old_p (opt w) q)
    ∧ (∀ group q g, (group, q) ∈ ps → grad (param_of w q) = Some g →
         let pv := heap w (data (param_of w q)) in
         heap w' (data (param_of w q))
         = add pv (mul (if SAM.adaptive group then mul (pow pv 2) (heap w g)
                        else mul_scalar (heap w g) 1) (scale group))
         ∧ ∃ l, SAM.old_p (opt w') q = Some l
                ∧ (next w ≤ l < next w')%nat ∧ heap w' l = pv).
Proof.
  revert w. induction ps as [|[grp p] ps IH]; intros w Hnd Hlt Hdata Hgrad.
  { exists w. do 6 (split; [done|]). intros ??? Hin. by apply elem_of_nil in Hin. }
  rewrite fmap_cons in *. simpl in *.
  apply NoDup_cons in Hnd as [Hp Hnd].
  unfold bind. rewrite ascend_run.
  destruct (grad (param_of w p)) as [g|] eqn:Hg.
  - cbv zeta.
    set (pv := heap w (data (param_of w p))).
    set (h := <[next w := pv]> (heap w)).
    destruct (Hlt p) as [Hpd Hpg]; [left|]. specialize (Hpg g Hg).
    assert (h (data (param_of w p)) = pv) as Hhd.
    { unfold h. by rewrite fn_lookup_insert_ne by lia. }
    assert (h g = heap w g) as Hhg.
    { unfold h. by rewrite fn_lookup_insert_ne by lia. }
    rewrite Hhd, Hhg.
    match goal with |- context [for_ ps _ ?x] => set (w1 := x) end.
    destruct (IH w1) as (w' & Hrun & Hpar & Hn & Hb & Hframe & Hold & Hps).
    { done. }
    { intros q Hq. destruct (Hlt q) as [? Hqg]; [by right|]. simpl.
      split; [lia|]. intros g' Hg'. specialize (Hqg g' Hg'). lia. }
    { intros q q' Hq Hq'. apply Hdata; by right. }
    { intros q q' g' Hq Hq'. apply Hgrad; by right. }
    exists w'. split; [exact Hrun|]. subst w1. simpl in *.
    split; [done|]. split; [lia|]. split; [done|]. split; [|split].
    + intros l Hl Hne. rewrite Hframe; [|lia|].
      * unfold h. rewrite !fn_lookup_insert_ne; [done|lia|].
        intros Heq. apply (Hne p); [by left|by rewrite Hg|done].
      * intros q Hq. apply Hne. by right.
    + intros q Hq. apply not_elem_of_cons in Hq as [Hne Hq].
      rewrite Hold by done. by rewrite fn_lookup_insert_ne.
    + intros group q g' Hin Hg'.
      apply elem_of_cons in Hin as [[= -> ->]|Hin].
      * assert (g' = g) as -> by congruence. split.
        -- rewrite Hframe; [by rewrite fn_lookup_insert|lia|].
           intros q Hq _ Heq. apply (Hdata p q); [by left|by right| |done].
           by intros ->.
        -- exists (next w). rewrite Hold by done. rewrite fn_lookup_insert.
           split; [done|]. split; [lia|].
           rewrite Hframe; [|lia|].
           ++ rewrite fn_lookup_insert_ne by lia. unfold h.
              by rewrite fn_lookup_insert.
           ++ intros q Hq _. destruct (Hlt q) as [? _]; [by right|]. lia.
      * assert (q ∈ ps.*2) as Hq.
        { apply list_elem_of_fmap. by exists (group, q). }
        assert (q ≠ p) as Hne by (by intros ->).
        destruct (Hlt q) as [Hqd Hqg]; [by right|]. specialize (Hqg g' Hg').
        destruct (Hps group q g' Hin Hg') as [Hval (l & Hl & Hrange & Hsaved)].
        assert (<[data (param_of w p) :=
                    add pv (mul (if SAM.adaptive grp
                                 then mul (pow pv 2) (heap w g)
                                 else mul_scalar (heap w g) 1) (scale grp))]> h
                  (data (param_of w q))
                = heap w (data (param_of w q))) as Hsame.
        { simpl. unfold h. rewrite !fn_lookup_insert_ne; [done|lia|].
          apply Hdata; [by left|by right|done]. }
        assert (<[data (param_of w p) :=
                    add pv (mul (if SAM.adaptive grp
                                 then mul (pow pv 2) (heap w g)
                                 else mul_scalar (heap w g) 1) (scale grp))]> h
                  g'
                = heap w g') as Hsameg.
        { simpl. unfold h. rewrite !fn_lookup_insert_ne; [done|lia|].
          intros Heq. apply (Hgrad p q g'); [by left|by right|done|done]. }
        rewrite Hsame, Hsameg in Hval. rewrite Hsame in Hsaved.
        split; [exact Hval|]. exists l. split; [done|]. split; [lia|done].
  - destruct (IH w) as (w' & Hrun & Hpar & Hn & Hb & Hframe & Hold & Hps).
    { done. }
    { intros q Hq. apply Hlt. by right. }
    { intros q q' Hq Hq'. apply Hdata; by right. }
    { intros q q' g' Hq Hq'. apply Hgrad; by right. }
    exists w'. split; [exact Hrun|]. do 3 (split; [done|]). split; [|split].
    + intros l Hl Hne. apply Hframe; [done|]. intros q Hq. apply Hne. by right.
    + intros q Hq. apply not_elem_of_cons in Hq as [_ Hq]. by apply Hold.
    + intros group q g' Hin Hg'.
      apply elem_of_cons in Hin as [[= -> ->]|Hin]; [congruence|].
      by apply Hps.
Qed.

Lemma pairs_snd (groups : list SAM.group) :
  (g ← groups; (λ p, (g, p)) <$> SAM.params g).*2 = g ← groups; SAM.params g.
Proof.
  induction groups as [|g groups IH]; [done|].
  rewrite !bind_cons, fmap_app, IH. f_equal.
  rewrite <-list_fmap_compose. apply list_fmap_id.
Qed.

Lemma zero_grad_run (set_to_none : bool) (self : SAM.optimizer) w :
  ∃ w', SAM.zero_grad set_to_none self w = (inr tt, w')
    ∧ opt w' = opt w ∧ next w' = next w
    ∧ (∀ p, data (param_of w' p) = data (param_of w p))
    ∧ (∀ l, (∀ group p, group ∈ SAM.param_groups self → p ∈ SAM.params group →
                        grad (param_of w p) ≠ Some l) →
            heap w' l = heap w l).
Proof.
  unfold SAM.zero_grad. rewrite for_flat.
  assert (∀ ps w, ∃ w',
    for_ ps (λ p, prm ← get_param p;
                  match grad prm with
                  | Some g =>
                      if set_to_none then set_param p (Param (data prm) None)
                      else read g ≫= λ v, write g (zeros_like v)
                  | None => ret ()
                  end) w = (inr tt, w')
    ∧ opt w' = opt w ∧ next w' = next w
    ∧ (∀ p, data (param_of w' p) = data (param_of w p))
    ∧ (∀ p g, grad (param_of w' p) = Some g → grad (param_of w p) = Some g)
    ∧ (∀ l, (∀ p, p ∈ ps → grad (param_of w p) ≠ Some l) →
            heap w' l = heap w l)) as Hloop.
  { clear. induction ps as [|q ps IH]; intros w.
    { by exists w. }
    simpl. unfold bind at 1, mbind, M_bind, bind, get_param.
    destruct (grad (param_of w q)) as [g|] eqn:Hg; [destruct set_to_none|].
    - simpl.
      destruct (IH (World (heap w) (next w)
                      (<[q := Param (data (param_of w q)) None]> (param_of w))
                      (opt w)))
        as (w' & Hrun & Ho & Hn & Hd & Hgr & Hh).
      exists w'. split; [exact Hrun|]. simpl in *. do 2 (split; [done|]).
      assert (∀ p g', grad (param_of w' p) = Some g' →
                      grad (param_of w p) = Some g') as Hgr'.
      { intros p g' Hp. apply Hgr in Hp.
        destruct (decide (q = p)) as [->|Hne].
        - by rewrite fn_lookup_insert in Hp.
        - by rewrite fn_lookup_insert_ne in Hp. }
      split; [|split; [done|]].
      + intros p. rewrite Hd. destruct (decide (q = p)) as [->|Hne].
        * by rewrite fn_lookup_insert.
        * by rewrite fn_lookup_insert_ne.
      + intros l Hl. apply Hh. intros p Hp Hpl.
        apply (Hl p); [by right|].
        destruct (decide (q = p)) as [->|Hne].
        * by rewrite fn_lookup_insert in Hpl.
        * by rewrite fn_lookup_insert_ne in Hpl.
    - simpl.
      destruct (IH (World (<[g := zeros_like (heap w g)]> (heap w)) (next w)
                      (param_of w) (opt w)))
        as (w' & Hrun & Ho & Hn & Hd & Hgr & Hh).
      exists w'. split; [exact Hrun|]. simpl in *. do 4 (split; [done|]).
      intros l Hl. rewrite Hh.
      + rewrite fn_lookup_insert_ne; [done|]. intros ->.
        by apply (Hl q); [left|].
      + intros p Hp. apply Hl. by right.
    - simpl. destruct (IH w) as (w' & Hrun & Ho & Hn & Hd & Hgr & Hh).
      exists w'. split; [exact Hrun|]. do 4 (split; [done|]).
      intros l Hl. apply Hh. intros p Hp. apply Hl. by right. }
  destruct (Hloop (g ← SAM.param_groups self; SAM.params g) w)
    as (w' & Hrun & Ho & Hn & Hd & _ & Hh).
  exists w'. split; [exact Hrun|]. do 3 (split; [done|]).
  intros l Hl. apply Hh. intros p Hp.
  apply list_elem_of_bind in Hp as (group & Hp & Hgroup). by apply (Hl group).
Qed.

Lemma grad_norm_run (self : SAM.optimizer) w group p g :
  group ∈ SAM.param_groups self → p ∈ SAM.params group →
  grad (param_of w p) = Some g →
  (∀ group0, head (SAM.param_groups self) = Some group0 →
             SAM.params group0 ≠ []) →
  SAM.grad_norm self w = (inr (norm (stack (SAM.grad_norms self w))), w).
Proof.
  intros Hgroup Hp Hg Hhead. unfold SAM.grad_norm.
  destruct (SAM.param_groups self) as [|group0 groups] eqn:Hgroups.
  { by apply elem_of_nil in Hgroup. }
  specialize (Hhead group0 eq_refl).
  destruct (SAM.params group0) as [|p0 ps0] eqn:Hps0; [done|].
  unfold mbind, M_bind, bind, get. simpl.
  destruct (SAM.grad_norms self w) as [|n ns] eqn:Hnorms; [|done].
  exfalso. eapply (elem_of_nil (A:=T)). rewrite <-Hnorms.
  unfold SAM.grad_norms. rewrite Hgroups.
  apply list_elem_of_bind. exists group. split; [|done].
  apply list_elem_of_omap. exists p. split; [done|]. by rewrite Hg.
Qed.

End SAMPerturbation.

(** C2.  The parameters of the groups are distinct objects, each with
    storage of its own that no gradient shares, and the first group is not
    empty (line 127 reads its first parameter).  Then [first_step] goes
    through and, for a parameter [p] with a gradient in a group that is not
    adaptive, the value of [p] afterwards is its value before plus
    [1.0 * p.grad * (rho / (grad_norm + 1e-12))], with [grad_norm] the norm
    of the stacked norms of every gradient of every group, and gradient and
    norm taken before the call; the value before the call is that of the
    new tensor ['old_p']. *)
Theorem C2_first_step_perturbation :
  ∀ (T B : Type) (ops : TensorOps T) (set_to_none : bool)
    (self : SAM.optimizer) (zero_grad_flag : bool)
    (w : world T (SAM.state B)) (group : SAM.group) (p : pid) (g : loc),
    group ∈ SAM.param_groups self →
    p ∈ SAM.params group →
    SAM.adaptive group = false →
    grad (param_of w p) = Some g →
    (∀ group0, head (SAM.param_groups self) = Some group0 →
               SAM.params group0 ≠ []) →
    NoDup (grp ← SAM.param_groups self; SAM.params grp) →
    (∀ q, q ∈ (grp ← SAM.param_groups self; SAM.params grp) →
          (data (param_of w q) < next w)%nat
          ∧ ∀ g, grad (param_of w q) = Some g → (g < next w)%nat) →
    (∀ q q', q ∈ (grp ← SAM.param_groups self; SAM.params grp) →
             q' ∈ (grp ← SAM.param_groups self; SAM.params grp) →
             q ≠ q' → data (param_of w q) ≠ data (param_of w q')) →
    (∀ q q' g, q ∈ (grp ← SAM.param_groups self; SAM.params grp) →
               q' ∈ (grp ← SAM.param_groups self; SAM.params grp) →
               grad (param_of w q') = Some g → g ≠ data (param_of w q)) →
    ∃ w' l,
      SAM.first_step set_to_none self zero_grad_flag w = (inr tt, w')
      ∧ heap w' (data (param_of w' p))
        = add (heap w (data (param_of w p)))
              (mul (mul_scalar (heap w g) 1)
                   (rdiv_scalar (SAM.rho group)
                      (add_scalar (norm (stack (SAM.grad_norms self w)))
                                  (1 # 10 ^ 12))))
      ∧ SAM.old_p (opt w') p = Some l
      ∧ heap w' l = heap w (data (param_of w p)).
Proof.
  intros * Hgroup Hp Hadaptive Hg Hhead Hnd Hlt Hdata Hgrad.
  set (scale := λ grp : SAM.group,
         rdiv_scalar (SAM.rho grp)
           (add_scalar (norm (stack (SAM.grad_norms self w))) (1 # 10 ^ 12))).
  destruct (ascend_loop (B:=B) scale
              (grp ← SAM.param_groups self; (λ q, (grp, q)) <$> SAM.params grp) w)
    as (w1 & Hrun & Hpar & Hn & Hb & Hframe & Hold & Hps);
    rewrite ?pairs_snd; try done.
  destruct (Hps group p g) as [Hval (l & Hl & Hrange & Hsaved)]; [|done|].
  { apply list_elem_of_bind. exists group. split; [|done].
    apply list_elem_of_fmap. by exists p. }
  rewrite Hadaptive in Hval. cbv zeta in Hval, Hsaved.
  assert (p ∈ (grp ← SAM.param_groups self; SAM.params grp)) as Hin.
  { apply list_elem_of_bind. by exists group. }
  destruct (Hlt p Hin) as [Hpd _].
  assert (∃ w', (if zero_grad_flag then SAM.zero_grad set_to_none self
                 else mret tt) w1 = (inr tt, w')
            ∧ opt w' = opt w1
            ∧ data (param_of w' p) = data (param_of w1 p)
            ∧ heap w' (data (param_of w p)) = heap w1 (data (param_of w p))
            ∧ heap w' l = heap w1 l) as (w' & Hzero & Ho & Hd & Hh1 & Hh2).
  { destruct zero_grad_flag; [|by exists w1].
    destruct (zero_grad_run set_to_none self w1)
      as (w' & Hzero & Ho & _ & Hd & Hh).
    exists w'. split; [done|]. split; [done|]. split; [done|].
    split; apply Hh; intros grp q Hgrp Hq; rewrite Hpar; intros Hgq.
    - eapply (Hgrad p q); [done| |done..].
      apply list_elem_of_bind. by exists grp.
    - destruct (Hlt q) as [_ Hqg].
      { apply list_elem_of_bind. by exists grp. }
      specialize (Hqg _ Hgq). lia. }
  exists w', l. split.
  - unfold SAM.first_step.
    erewrite bind_inr by (by eapply grad_norm_run).
    erewrite bind_inr; [exact Hzero|].
    rewrite (for_nested SAM.params (λ grp, SAM.ascend grp (scale grp))).
    exact Hrun.
  - rewrite Hd, Hpar, Hh1, Ho, Hh2. done.
Qed.



Lemma C2_first_step_perturbation_witness :
  ∃ w' l,
    SAM.first_step true Examples.sam_two_groups false Examples.sam_world_345
    = (inr tt, w')
    ∧ heap w' (data (param_of w' 1%nat))
      = add (Vec.scalar 3)
            (mul (mul_scalar (Vec.scalar 4) 1)
                 (rdiv_scalar (1 # 10)
                    (add_scalar (Vec.scalar 5) (1 # 10 ^ 12))))
    ∧ SAM.old_p (opt w') 1%nat = Some l
    ∧ heap w' l = Vec.scalar 3.
Proof.
  refine (C2_first_step_perturbation _ unit _ true Examples.sam_two_groups
            false Examples.sam_world_345 (SAM.Group (1 # 10) false [1%nat])
            1%nat 3%nat _ _ _ _ _ _ _ _ _).
  - apply elem_of_cons. right. apply elem_of_cons. by left.
  - apply elem_of_cons. by left.
  - reflexivity.
  - reflexivity.
  - intros group0 [= <-]. discriminate.
  - vm_compute. apply NoDup_cons. split; [|apply NoDup_singleton].
    by intros ?%list_elem_of_singleton.
  - intros q Hq. vm_compute in Hq.
    apply elem_of_cons in Hq as [->|Hq];
      [|apply list_elem_of_singleton in Hq as ->];
      (split; [vm_compute; lia|intros g' [= <-]; vm_compute; lia]).
  - intros q q' Hq Hq'. vm_compute in Hq, Hq'.
    apply elem_of_cons in Hq as [->|Hq];
      [|apply list_elem_of_singleton in Hq as ->];
      (apply elem_of_cons in Hq' as [->|Hq'];
       [|apply list_elem_of_singleton in Hq' as ->]); vm_compute; congruence.
  - intros q q' g' Hq Hq'. vm_compute in Hq, Hq'.
    apply elem_of_cons in Hq as [->|Hq];
      [|apply list_elem_of_singleton in Hq as ->];
      (apply elem_of_cons in Hq' as [->|Hq'];
       [|apply list_elem_of_singleton in Hq' as ->]); vm_compute; congruence.
Defined.

(** ** Shampoo *)

Tactic Notation "munfold" "in" hyp(H) :=
  unfold mbind, M_bind, bind, mret, M_ret, ret, raise, read, write, alloc,
    modify, get_param, set_param, get_opt, set_opt, lookup_key in H.

Tactic Notation "munfold" :=
  unfold mbind, M_bind, bind, mret, M_ret, ret, raise, read, write, alloc,
    modify, get_param, set_param, get_opt, set_opt, lookup_key.

Section ShampooFacts.
Context {T : Type} `{ops : TensorOps T} (compute_power_svd : T → Q → T).
Implicit Types w : world T (pid → Shampoo.state T).

(** One round of the loop over the dimensions leaves the gradient object
    [g] as it is: the only object it mutates is the one [grad] is bound to,
    by [transpose_(0, dim_id)], and [grad] is bound to [g] in the round of
    dimension 0 only. *)
Lemma precondition_dim_frame self p order original_size cur dim_id dim g w
    cur' w' :
  Shampoo.precondition_dim compute_power_svd self p order original_size cur
    dim_id dim w = (inr cur', w') →
  (g < next w)%nat →
  (cur = g → dim_id = 0%nat) →
  heap w' g = heap w g ∧ cur' = next w ∧ next w' = S (next w)
  ∧ param_of w' = param_of w.
Proof.
  intros Hrun Hg Hcur.
  unfold Shampoo.precondition_dim, Shampoo.get_state, Shampoo.update_state
    in Hrun.
  munfold in Hrun. simpl in Hrun.
  destruct (Shampoo.s_pre_cond (opt w p) !! dim_id); [|done].
  destruct (Shampoo.s_inv_pre_cond (opt w p) !! dim_id); [|done].
  simpl in Hrun. rewrite fn_lookup_insert in Hrun. simpl in Hrun.
  destruct (Shampoo.s_step (opt w p)); [|done]. simpl in Hrun.
  assert (<[cur := transpose (heap w cur) 0 dim_id]> (heap w) g = heap w g)
    as Hsame.
  { destruct (decide (cur = g)) as [->|Hne].
    - rewrite (Hcur eq_refl), fn_lookup_insert. apply transpose_diag.
    - by rewrite fn_lookup_insert_ne. }
  destruct (_ =? 0); simpl in Hrun; destruct (decide (dim_id = _));
    simpl in Hrun; simplify_eq; simpl;
    (rewrite fn_lookup_insert_ne by lia; done).
Qed.



Lemma init_state_frame self group p g w w1 :
  Shampoo.init_state self group p g w = (inr tt, w1) →
  param_of w1 = param_of w
  ∧ (next w ≤ next w1)%nat
  ∧ (∀ l, (l < next w)%nat → heap w1 l = heap w l)
  ∧ Shampoo.s_momentum_buffer (opt w1 p)
    = (if Qpos_b (Shampoo.momentum group) then Some (next w)
       else Shampoo.s_momentum_buffer (opt w p))
  ∧ (Qpos_b (Shampoo.momentum group) = true → heap w1 (next w) = heap w g).
Proof.
  intros Hrun. unfold Shampoo.init_state in Hrun.
  apply bind_inv in Hrun as ([] & wa & Ha & Hrun).
  apply bind_inv in Hrun as ([] & wb & Hb & Hrun).
  apply bind_inv in Hrun as (v & wb' & Hv & Hrun).
  unfold read in Hv. injection Hv as <- <-.
  assert (∀ dims wc wd,
    for_ dims (λ '(dim_id, dim),
      Shampoo.update_state p
        (Shampoo.set_pre_cond dim_id
           (mul_scalar (new_eye (heap wb g) dim) (Shampoo.matrix_eps self)));;
      Shampoo.update_state p
        (Shampoo.set_inv_pre_cond dim_id (new_zeros (heap wb g) dim dim)))
      wc = (inr tt, wd) →
    heap wd = heap wc ∧ next wd = next wc ∧ param_of wd = param_of wc
    ∧ Shampoo.s_momentum_buffer (opt wd p)
      = Shampoo.s_momentum_buffer (opt wc p)) as Hloop.
  { clear. induction dims as [|[i d] dims IH]; intros wc wd Hrun.
    { simpl in Hrun. unfold ret in Hrun. by simplify_eq. }
    simpl in Hrun. unfold Shampoo.update_state at 1 2 in Hrun.
    munfold in Hrun. simpl in Hrun.
    apply IH in Hrun as (-> & -> & -> & ->). simpl.
    by rewrite !fn_lookup_insert. }
  apply Hloop in Hrun as (Hh & Hn & Hp & Hbuf). clear Hloop.
  unfold Shampoo.update_state in Ha. munfold in Ha. simplify_eq.
  rewrite Hh, Hn, Hp, Hbuf. clear Hh Hn Hp Hbuf.
  destruct (Qpos_b (Shampoo.momentum group)).
  - unfold Shampoo.update_state in Hb. munfold in Hb. simpl in Hb.
    simplify_eq. simpl. rewrite !fn_lookup_insert.
    do 2 (split; [done || lia|]). split; [|done].
    intros l Hl. by rewrite fn_lookup_insert_ne by lia.
  - unfold ret in Hb. simplify_eq. simpl. rewrite fn_lookup_insert.
    by repeat split.
Qed.

End ShampooFacts.

Section ShampooGradient.
Context {T : Type} `{ops : TensorOps T} (compute_power_svd : T → Q → T).
Implicit Types w : world T (pid → Shampoo.state T).


End ShampooGradient.




(** ** ScalableShampoo *)

Ltac heap_simpl :=
  repeat (rewrite fn_lookup_insert
          || rewrite fn_lookup_insert_ne by (congruence || lia)).

Section StepFacts.
Context {T St : Type}.
Implicit Types w : world T St.

Lemma bind_read {A} (l : loc) (k : T → M T St A) w :
  (read l ≫= k) w = k (heap w l) w.
Proof. reflexivity. Qed.

Lemma bind_write {A} (l : loc) (v : T) (k : unit → M T St A) w :
  (write l v ≫= k) w
  = k tt (World (<[l := v]> (heap w)) (next w) (param_of w) (opt w)).
Proof. reflexivity. Qed.

Lemma bind_ret {A C} (a : A) (k : A → M T St C) w : (ret a ≫= k) w = k a w.
Proof. reflexivity. Qed.

Lemma bind_bind {A C D} (m : M T St A) (f : A → M T St C) (k : C → M T St D) w :
  ((m ≫= f) ≫= k) w = (m ≫= λ a, f a ≫= k) w.
Proof. unfold mbind, M_bind, bind. by destruct (m w) as [[e|a] w1]. Qed.

End StepFacts.

(** One statement of straight-line code: the effect of a read or of a write
    on the world, with the lookups in the heap resolved. *)
Ltac mstep :=
  first [rewrite bind_bind | rewrite bind_read | rewrite bind_write
        | rewrite bind_ret];
  cbv beta; cbn [heap next param_of opt]; heap_simpl.

Section ScalableFacts.
Context {T PC : Type} `{ops : TensorOps T}
  `{pc_ops : ScalableShampoo.PreConditionerOps T PC}.
Implicit Types w : world T (pid → option (ScalableShampoo.state T PC)).

Import ScalableShampoo.

(** Lines 314-329. *)
Lemma gradients_run self group p g st w :
  let n := s_step st + 1 in
  let pre := is_precondition_step self n in
  let v := heap w g in
  let graft' := add_statistics (s_graft st) v (betas group).2 in
  let pc1 := if n mod Z.pos (statistics_compute_steps self) =? 0
             then pc_add_statistics (s_pre_conditioner st) v
             else s_pre_conditioner st in
  let pc2 := if n mod Z.pos (preconditioning_compute_steps self) =? 0
             then pc_compute_pre_conditioners pc1 else pc1 in
  let multiplier := if negb (decoupled_learning_rate self) then lr group
                    else 1%Q in
  let gg := precondition_gradient graft' (mul_scalar v multiplier) in
  (g < next w)%nat →
  ∃ w1,
    gradients self group p g st w
    = (inr (Locals pre (next w) (if pre then S (next w) else g)), w1)
    ∧ param_of w1 = param_of w
    ∧ opt w1 = <[p := Some (State n (s_momentum st) pc2 graft')]> (opt w)
    ∧ next w1 = (if pre then S (S (next w)) else S (next w))
    ∧ heap w1 (next w) = gg
    ∧ (pre = true → heap w1 (S (next w)) = pc_preconditioned_grad pc2 v)
    ∧ (∀ x, (x < next w)%nat → heap w1 x = heap w x).
Proof.
  intros n pre v graft' pc1 pc2 multiplier gg Hg.
  unfold gradients, set_state. destruct (betas group) as [beta1 beta2].
  munfold. simpl. fold n. fold pre. destruct pre; simpl.
  - eexists. split; [reflexivity|]. simpl. do 3 (split; [done|]).
    split; [by heap_simpl|]. split; [intros _; by heap_simpl|].
    intros x Hx. by heap_simpl.
  - eexists. split; [reflexivity|]. simpl. do 3 (split; [done|]).
    split; [by heap_simpl|]. split; [done|].
    intros x Hx. by heap_simpl.
Qed.

(** Lines 331-335. *)
Lemma graft_rescale_run self l w :
  ∃ w', graft_rescale self l w = (inr tt, w')
    ∧ param_of w' = param_of w ∧ opt w' = opt w ∧ next w' = next w
    ∧ heap w' (shampoo_grad l)
      = (if decide (graft_type self ≠ NONE)
         then mul (heap w (shampoo_grad l))
                  (div (norm (heap w (graft_grad l)))
                       (add_scalar (norm (heap w (shampoo_grad l)))
                                   (1 # 10 ^ 16)))
         else heap w (shampoo_grad l))
    ∧ (∀ x, x ≠ shampoo_grad l → heap w' x = heap w x).
Proof.
  unfold graft_rescale. destruct (decide (graft_type self ≠ NONE)).
  - munfold. simpl. eexists. split; [reflexivity|]. simpl.
    do 3 (split; [done|]). split; [by heap_simpl|].
    intros x Hx. by heap_simpl.
  - by exists w.
Qed.

(** Lines 337-343. *)
Lemma apply_weight_decay_run self group prm l w :
  graft_grad l ≠ shampoo_grad l →
  data prm ≠ shampoo_grad l →
  let decay x :=
    if Qpos_b (weight_decay group) then
      if negb (decoupled_weight_decay self)
      then add_alpha x (heap w (data prm)) (weight_decay group)
      else mul_scalar x (1 - lr group * weight_decay group)
    else x in
  ∃ w', apply_weight_decay self group prm l w = (inr tt, w')
    ∧ param_of w' = param_of w ∧ opt w' = opt w ∧ next w' = next w
    ∧ heap w' (shampoo_grad l) = decay (heap w (shampoo_grad l))
    ∧ heap w' (graft_grad l) = decay (heap w (graft_grad l))
    ∧ (∀ x, x ≠ shampoo_grad l → x ≠ graft_grad l → heap w' x = heap w x).
Proof.
  intros Hne Hd decay. unfold apply_weight_decay, decay.
  destruct (Qpos_b (weight_decay group)); [|by exists w].
  destruct (negb (decoupled_weight_decay self)).
  - munfold. simpl. eexists. split; [reflexivity|]. simpl.
    do 3 (split; [done|]). split; [by heap_simpl|].
    split; [by heap_simpl|]. intros x Hx Hx'. by heap_simpl.
  - munfold. simpl. eexists. split; [reflexivity|]. simpl.
    do 3 (split; [done|]). split; [by heap_simpl|].
    split; [by heap_simpl|]. intros x Hx Hx'. by heap_simpl.
Qed.

(** Lines 345-361. *)
Lemma update_run self group prm g st l w :
  let ms := s_momentum st in
  let mg := graft_momentum (s_graft st) in
  let dp := data prm in
  ms ≠ mg → ms ≠ g → ms ≠ dp → ms ≠ shampoo_grad l → ms ≠ graft_grad l →
  mg ≠ g → mg ≠ dp → mg ≠ shampoo_grad l → mg ≠ graft_grad l →
  dp ≠ g → dp ≠ shampoo_grad l → dp ≠ graft_grad l →
  graft_grad l ≠ g → graft_grad l ≠ shampoo_grad l →
  (is_pre l = true → shampoo_grad l ≠ g) →
  let beta1 := (betas group).1 in
  let w_ := if moving_average_for_momentum self then (1 - beta1)%Q else 1%Q in
  let m_acc := add (mul_scalar (heap w ms) beta1) (heap w (shampoo_grad l)) in
  let gm_acc := add (mul_scalar (heap w mg) beta1) (heap w g) in
  let m_final :=
    if is_pre l && nesterov self
    then add (mul_scalar m_acc beta1) (mul_scalar (heap w (shampoo_grad l)) w_)
    else m_acc in
  let gm_final :=
    if negb (is_pre l) && nesterov self
    then add (mul_scalar gm_acc beta1) (mul_scalar (heap w (graft_grad l)) w_)
    else gm_acc in
  ∃ w', update self group prm g st l w = (inr tt, w')
    ∧ param_of w' = param_of w ∧ opt w' = opt w ∧ next w' = next w
    ∧ heap w' g = heap w g
    ∧ heap w' ms = m_final
    ∧ heap w' mg = gm_final
    ∧ heap w' dp
      = add_alpha (heap w dp) (if is_pre l then m_final else gm_final)
                  (- lr group).
Proof.
  intros ms mg dp ??????????????? beta1 w_ m_acc gm_acc m_final gm_final.
  unfold update, update_momentum. subst beta1.
  destruct (betas group) as [beta1 beta2]. simpl in *.
  subst m_final gm_final m_acc gm_acc.
  fold ms. fold mg. fold dp.
  destruct (is_pre l) eqn:Hpre; destruct (nesterov self);
    cbv beta iota zeta; cbn [andb negb];
    (eexists; split;
     [repeat mstep; unfold write, modify; cbn [heap next param_of opt];
      heap_simpl; reflexivity|]);
    cbn [heap next param_of opt]; do 3 (split; [done|]);
    heap_simpl; by repeat split.
Qed.

(** Lines 314-361 as a whole, run on a gradient object [g], a parameter and
    the two momentum buffers that are four distinct tensor objects: the
    values left in each of them. *)
Lemma step_body_run self group p prm g st w :
  (g < next w)%nat → (data prm < next w)%nat →
  (s_momentum st < next w)%nat → (graft_momentum (s_graft st) < next w)%nat →
  g ≠ data prm → g ≠ s_momentum st → g ≠ graft_momentum (s_graft st) →
  data prm ≠ s_momentum st → data prm ≠ graft_momentum (s_graft st) →
  s_momentum st ≠ graft_momentum (s_graft st) →
  let beta1 := (betas group).1 in
  let n := s_step st + 1 in
  let pre := is_precondition_step self n in
  let v := heap w g in
  let pv := heap w (data prm) in
  let graft' := add_statistics (s_graft st) v (betas group).2 in
  let pc1 := if n mod Z.pos (statistics_compute_steps self) =? 0
             then pc_add_statistics (s_pre_conditioner st) v
             else s_pre_conditioner st in
  let pc2 := if n mod Z.pos (preconditioning_compute_steps self) =? 0
             then pc_compute_pre_conditioners pc1 else pc1 in
  let multiplier := if negb (decoupled_learning_rate self) then lr group
                    else 1%Q in
  let gg := precondition_gradient graft' (mul_scalar v multiplier) in
  let sg0 := if pre then pc_preconditioned_grad pc2 v else v in
  let rescaled :=
    if decide (graft_type self ≠ NONE)
    then mul sg0 (div (norm gg) (add_scalar (norm sg0) (1 # 10 ^ 16)))
    else sg0 in
  let decay x :=
    if Qpos_b (weight_decay group) then
      if negb (decoupled_weight_decay self)
      then add_alpha x pv (weight_decay group)
      else mul_scalar x (1 - lr group * weight_decay group)
    else x in
  let sg := decay rescaled in
  let w_ := if moving_average_for_momentum self then (1 - beta1)%Q else 1%Q in
  let m_acc := add (mul_scalar (heap w (s_momentum st)) beta1) sg in
  let g_final := if pre then v else sg in
  let gm_acc :=
    add (mul_scalar (heap w (graft_momentum (s_graft st))) beta1) g_final in
  let m_final :=
    if pre && nesterov self
    then add (mul_scalar m_acc beta1) (mul_scalar sg w_) else m_acc in
  let gm_final :=
    if negb pre && nesterov self
    then add (mul_scalar gm_acc beta1) (mul_scalar (decay gg) w_) else gm_acc in
  ∃ w1 w',
    gradients self group p g st w
    = (inr (Locals pre (next w) (if pre then S (next w) else g)), w1)
    ∧ (graft_rescale self (Locals pre (next w) (if pre then S (next w) else g));;
       apply_weight_decay self group prm
         (Locals pre (next w) (if pre then S (next w) else g));;
       update self group prm g st
         (Locals pre (next w) (if pre then S (next w) else g))) w1
      = (inr tt, w')
    ∧ param_of w' = param_of w
    ∧ opt w' = <[p := Some (State n (s_momentum st) pc2 graft')]> (opt w)
    ∧ heap w' g = g_final
    ∧ heap w' (s_momentum st) = m_final
    ∧ heap w' (graft_momentum (s_graft st)) = gm_final
    ∧ heap w' (data prm)
      = add_alpha pv (if pre then m_final else gm_final) (- lr group).
Proof.
  intros Hg Hd Hm Hgm Hgd Hgms Hggm Hdm Hdgm Hmgm.
  intros beta1 n pre v pv graft' pc1 pc2 multiplier gg sg0 rescaled decay sg
    w_ m_acc g_final gm_acc m_final gm_final.
  destruct (gradients_run self group p g st w Hg)
    as (w1 & Hrun1 & Hp1 & Ho1 & Hn1 & Hgg1 & Hpc1 & Hh1).
  fold n pre v graft' pc1 pc2 multiplier gg in Hrun1, Ho1, Hn1, Hgg1, Hpc1.
  set (l := Locals pre (next w) (if pre then S (next w) else g)) in *.
  assert (graft_grad l ≠ shampoo_grad l) as Hl1.
  { simpl. destruct pre; lia. }
  assert (heap w1 (shampoo_grad l) = sg0) as Hsg1.
  { simpl. unfold sg0. destruct pre; [by apply Hpc1|by apply Hh1]. }
  destruct (graft_rescale_run self l w1)
    as (w2 & Hrun2 & Hp2 & Ho2 & Hn2 & Hsg2 & Hh2).
  rewrite Hsg1 in Hsg2. simpl graft_grad in Hsg2. rewrite Hgg1 in Hsg2.
  fold rescaled in Hsg2.
  destruct (apply_weight_decay_run self group prm l w2)
    as (w3 & Hrun3 & Hp3 & Ho3 & Hn3 & Hsg3 & Hgg3 & Hh3); [done| |].
  { simpl. destruct pre; [lia|done]. }
  assert (heap w2 (data prm) = pv) as Hpv2.
  { assert (data prm ≠ shampoo_grad l) by (simpl; destruct pre; lia || done).
    by rewrite Hh2, Hh1. }
  rewrite Hpv2, Hsg2 in Hsg3. rewrite Hpv2 in Hgg3.
  rewrite Hh2 in Hgg3 by done. simpl graft_grad in Hgg3. rewrite Hgg1 in Hgg3.
  fold decay in Hsg3, Hgg3. fold sg in Hsg3.
  assert (∀ x, (x < next w)%nat → x ≠ shampoo_grad l → heap w3 x = heap w x)
    as Hframe.
  { intros x Hx Hxs. assert (x ≠ graft_grad l) by (simpl; lia).
    by rewrite Hh3, Hh2, Hh1. }
  assert (heap w3 g = g_final) as Hg3.
  { unfold g_final. destruct pre eqn:Hpre.
    - apply Hframe; [done|]. simpl. lia.
    - exact Hsg3. }
  assert (heap w3 (s_momentum st) = heap w (s_momentum st)) as Hms3.
  { apply Hframe; [done|]. simpl. destruct pre; lia || done. }
  assert (heap w3 (graft_momentum (s_graft st))
          = heap w (graft_momentum (s_graft st))) as Hmg3.
  { apply Hframe; [done|]. simpl. destruct pre; lia || done. }
  assert (heap w3 (data prm) = pv) as Hdp3.
  { apply Hframe; [done|]. simpl. destruct pre; lia || done. }
  destruct (update_run self group prm g st l w3)
    as (w' & Hrun4 & Hp4 & Ho4 & Hn4 & Hg4 & Hm4 & Hgm4 & Hd4);
    try (simpl; destruct pre; (done || lia || congruence)).
  fold beta1 in Hm4, Hgm4, Hd4. fold w_ in Hm4, Hgm4, Hd4.
  simpl is_pre in Hm4, Hgm4, Hd4. simpl graft_grad in Hgm4, Hd4.
  rewrite Hms3, Hsg3 in Hm4. rewrite Hmg3, Hg3, Hgg3 in Hgm4.
  rewrite Hdp3, Hms3, Hmg3, Hsg3, Hg3, Hgg3 in Hd4.
  exists w1, w'. split; [done|]. split.
  { erewrite bind_inr by exact Hrun2. by erewrite bind_inr by exact Hrun3. }
  split; [congruence|]. split; [congruence|]. split; [congruence|].
  by do 2 (split; [done|]).
Qed.
End ScalableFacts.

Section ScalableStep.
Context {T PC : Type} `{ops : TensorOps T}
  `{pc_ops : ScalableShampoo.PreConditionerOps T PC}.
Implicit Types w : world T (pid → option (ScalableShampoo.state T PC)).

Import ScalableShampoo.

(** A round of the loop of [step] on a dense gradient [g] is lines 314-361
    run in the world that the lookup of the state, and its creation when it
    is empty, leave. *)
Lemma step_param_unfold self group p g st w w0 :
  grad (param_of w p) = Some g →
  is_sparse (heap w g) = false →
  state_of self group p w = (inr st, w0) →
  step_param self group p w
  = (l ← gradients self group p g st;
     graft_rescale self l;;
     apply_weight_decay self group (param_of w p) l;;
     update self group (param_of w p) g st l) w0.
Proof.
  intros Hg Hs Hst. unfold step_param.
  erewrite bind_inr by reflexivity. rewrite Hg.
  erewrite bind_inr by reflexivity. rewrite Hs.
  by erewrite bind_inr by exact Hst.
Qed.

End ScalableStep.



(** C10.  In a round of [ScalableShampoo.step] with grafting, before
    [start_preconditioning_step], [shampoo_grad] is the gradient object [g]
    itself.  The round leaves in [g], that is in [p.grad], the gradient
    multiplied by [norm(graft_grad) / (norm(grad) + 1e-16)] and decayed,
    and it is this value, not the gradient the round was given, that the
    momentum buffer of the graft (and [state['momentum']]) accumulates. *)
Theorem C10_graft_momentum_accumulates_rescaled_gradient :
  ∀ (T PC : Type) (ops : TensorOps T)
    (pc_ops : ScalableShampoo.PreConditionerOps T PC)
    (self : ScalableShampoo.optimizer) (group : ScalableShampoo.group)
    (p : pid) (g : loc) (st : ScalableShampoo.state T PC)
    (w w0 : world T (pid → option (ScalableShampoo.state T PC))),
    let dp := data (param_of w p) in
    let ms := ScalableShampoo.s_momentum st in
    let mg := ScalableShampoo.graft_momentum (ScalableShampoo.s_graft st) in
    grad (param_of w p) = Some g →
    is_sparse (heap w g) = false →
    ScalableShampoo.state_of self group p w = (inr st, w0) →
    (g < next w0)%nat → (dp < next w0)%nat →
    (ms < next w0)%nat → (mg < next w0)%nat →
    g ≠ dp → g ≠ ms → g ≠ mg → dp ≠ ms → dp ≠ mg → ms ≠ mg →
    ScalableShampoo.s_step st + 1
    < Z.pos (ScalableShampoo.start_preconditioning_step self) →
    ScalableShampoo.graft_type self ≠ ScalableShampoo.NONE →
    let beta1 := (ScalableShampoo.betas group).1 in
    let wd := ScalableShampoo.weight_decay group in
    let v := heap w0 g in
    let pv := heap w0 dp in
    let graft' :=
      ScalableShampoo.add_statistics (ScalableShampoo.s_graft st) v
        (ScalableShampoo.betas group).2 in
    let multiplier :=
      if negb (ScalableShampoo.decoupled_learning_rate self)
      then ScalableShampoo.lr group else 1%Q in
    let graft_grad :=
      ScalableShampoo.precondition_gradient graft' (mul_scalar v multiplier) in
    let decay x :=
      if Qpos_b wd then
        if negb (ScalableShampoo.decoupled_weight_decay self)
        then add_alpha x pv wd
        else mul_scalar x (1 - ScalableShampoo.lr group * wd)
      else x in
    let w_ :=
      if ScalableShampoo.moving_average_for_momentum self
      then (1 - beta1)%Q else 1%Q in
    let rescaled :=
      decay (mul v (div (norm graft_grad) (add_scalar (norm v) (1 # 10 ^ 16)))) in
    let accumulated := add (mul_scalar (heap w0 mg) beta1) rescaled in
    ∃ l w1 w',
      ScalableShampoo.gradients self group p g st w0 = (inr l, w1)
      ∧ ScalableShampoo.shampoo_grad l = g
      ∧ ScalableShampoo.step_param self group p w = (inr tt, w')
      ∧ grad (param_of w' p) = Some g
      ∧ heap w' g = rescaled
      ∧ heap w' mg
        = (if ScalableShampoo.nesterov self
           then add (mul_scalar accumulated beta1)
                    (mul_scalar (decay graft_grad) w_)
           else accumulated)
      ∧ heap w' ms = add (mul_scalar (heap w0 ms) beta1) rescaled.
Proof.
  intros * Hg Hs Hst Hlg Hld Hlm Hlgm Hgd Hgm Hggm Hdm Hdgm Hmgm Hn Hgraft.
  intros beta1 wd v pv graft' multiplier graft_grad decay w_ rescaled
    accumulated.
  destruct (step_body_run self group p (param_of w p) g st w0)
    as (w1 & w' & Hrun1 & Hrun2 & Hp' & Ho' & Hg' & Hm' & Hgm' & Hd');
    try done.
  assert (ScalableShampoo.is_precondition_step self
            (ScalableShampoo.s_step st + 1) = false) as Hpre.
  { unfold ScalableShampoo.is_precondition_step. apply Z.leb_gt. lia. }
  rewrite Hpre in *.
  destruct (decide (ScalableShampoo.graft_type self ≠ ScalableShampoo.NONE));
    [|done].
  eexists _, w1, w'. split; [exact Hrun1|]. split; [done|]. split.
  { rewrite (step_param_unfold self group p g st w w0) by done.
    erewrite bind_inr by exact Hrun1. exact Hrun2. }
  split.
  { rewrite Hp'. clear -Hg Hst. unfold ScalableShampoo.state_of in Hst.
    apply bind_inv in Hst as (o & w2 & Hget & Hst).
    unfold ScalableShampoo.get_state in Hget. injection Hget as <- <-.
    destruct (opt w p).
    - unfold ret in Hst. by injection Hst as <- <-.
    - unfold ScalableShampoo.new_state, ScalableShampoo.new_graft,
        ScalableShampoo.set_state in Hst.
      munfold in Hst. simpl in Hst. by injection Hst as <- <-. }
  split; [exact Hg'|]. split; [|exact Hm'].
  unfold mg. rewrite Hgm'. simpl. by destruct (ScalableShampoo.nesterov self).
Qed.




Lemma C10_graft_momentum_accumulates_rescaled_gradient_witness :
  ∃ w',
    ScalableShampoo.step_param Examples.scalable_dense Examples.scalable_group
      0 Examples.scalable_world = (inr tt, w')
    ∧ grad (param_of w' 0%nat) = Some 1%nat
    ∧ heap Examples.scalable_world 1%nat = Vec.scalar 1
    ∧ heap w' 1%nat = Vec.scalar (10 ^ 16 # 10 ^ 16 + 1)
    ∧ heap w' 5%nat
      = add (mul_scalar
               (add (mul_scalar (Vec.scalar 0) (9 # 10))
                    (Vec.scalar (10 ^ 16 # 10 ^ 16 + 1)))
               (9 # 10))
            (mul_scalar (Vec.scalar 1) 1).
Proof.
  destruct (C10_graft_momentum_accumulates_rescaled_gradient _ _ _ _
              Examples.scalable_dense Examples.scalable_group 0%nat 1%nat
              Examples.scalable_state Examples.scalable_world
              Examples.scalable_started)
    as (l & w1 & w' & _ & _ & Hrun & Hgrad & Hg & Hgm & _);
    [reflexivity|reflexivity|apply pair_fst_snd; vm_compute; reflexivity
    |vm_compute; lia..|vm_compute; reflexivity|discriminate|].
  exists w'. split; [exact Hrun|]. split; [exact Hgrad|].
  split; [reflexivity|]. split; [exact Hg|exact Hgm].
Defined.

(** * Further properties *)

(** ** SAM: errors, frame and round trip *)

Section SAMMore.
Context {T B : Type} `{ops : TensorOps T}.
Implicit Types w : world T (SAM.state B).

Lemma ascend_total (scale : SAM.group → T) (ps : list (SAM.group * pid)) w :
  ∃ w', for_ ps (λ gp, SAM.ascend gp.1 (scale gp.1) gp.2) w = (inr tt, w').
Proof.
  revert w. induction ps as [|[grp p] ps IH]; intros w; [by exists w|].
  simpl. unfold bind. rewrite ascend_run.
  destruct (grad (param_of w p)); [|apply IH]. cbv zeta. apply IH.
Qed.

Lemma grad_norms_nil (self : SAM.optimizer) w :
  (∀ group p, group ∈ SAM.param_groups self → p ∈ SAM.params group →
              grad (param_of w p) = None) →
  SAM.grad_norms self w = [].
Proof.
  intros Hnone. unfold SAM.grad_norms.
  induction (SAM.param_groups self) as [|group groups IH]; [done|].
  rewrite bind_cons, IH.
  - rewrite app_nil_r.
    assert (∀ p, p ∈ SAM.params group → grad (param_of w p) = None) as Hg.
    { intros p Hp. apply (Hnone group); [left|done]. }
    induction (SAM.params group) as [|p ps IHp]; [done|].
    simpl. rewrite (Hg p) by left. simpl. apply IHp.
    intros q Hq. apply Hg. by right.
  - intros grp p Hgrp. apply Hnone. by right.
Qed.

End SAMMore.

(** [first_step] raises exactly when [grad_norm] does: without groups or
    with an empty first group ([IndexError], line 127), and when no
    parameter of any group has a gradient ([torch.stack] of an empty list,
    line 129).  In each case nothing was written.  Otherwise it goes
    through. *)
Theorem first_step_raises_before_any_write :
  ∀ (T B : Type) (ops : TensorOps T) (set_to_none : bool)
    (self : SAM.optimizer) (zero_grad_flag : bool)
    (w : world T (SAM.state B)),
    (SAM.param_groups self = [] →
     SAM.first_step set_to_none self zero_grad_flag w
     = (inl (IndexError "list index out of range"), w))
    ∧ (∀ group groups,
         SAM.param_groups self = group :: groups → SAM.params group = [] →
         SAM.first_step set_to_none self zero_grad_flag w
         = (inl (IndexError "list index out of range"), w))
    ∧ (∀ group groups,
         SAM.param_groups self = group :: groups → SAM.params group ≠ [] →
         (∀ grp p, grp ∈ SAM.param_groups self → p ∈ SAM.params grp →
                   grad (param_of w p) = None) →
         SAM.first_step set_to_none self zero_grad_flag w
         = (inl (RuntimeError "stack expects a non-empty TensorList"), w))
    ∧ (∀ group groups grp p,
         SAM.param_groups self = group :: groups → SAM.params group ≠ [] →
         grp ∈ SAM.param_groups self → p ∈ SAM.params grp →
         is_Some (grad (param_of w p)) →
         ∃ w', SAM.first_step set_to_none self zero_grad_flag w = (inr tt, w')).
Proof.
  intros. unfold SAM.first_step. repeat split.
  - intros Hgroups. apply bind_inl. unfold SAM.grad_norm. by rewrite Hgroups.
  - intros group groups Hgroups Hparams. apply bind_inl.
    unfold SAM.grad_norm. by rewrite Hgroups, Hparams.
  - intros group groups Hgroups Hparams Hnone. apply bind_inl.
    unfold SAM.grad_norm. rewrite Hgroups.
    destruct (SAM.params group) as [|p0 ps0]; [done|].
    unfold mbind, M_bind, bind, get. simpl.
    by rewrite grad_norms_nil.
  - intros group groups grp p Hgroups Hparams Hgrp Hp [g Hg].
    erewrite bind_inr.
    2:{ eapply grad_norm_run; [done..|].
        intros group0. rewrite Hgroups. by intros [= <-]. }
    set (scale := λ grp : SAM.group,
           rdiv_scalar (SAM.rho grp)
             (add_scalar (norm (stack (SAM.grad_norms self w))) (1 # 10 ^ 12))).
    destruct (ascend_total (B:=B) scale
                (grp ← SAM.param_groups self;
                 (λ q, (grp, q)) <$> SAM.params grp) w) as [w1 Hrun].
    erewrite bind_inr.
    2:{ rewrite (for_nested SAM.params (λ grp, SAM.ascend grp (scale grp))).
        exact Hrun. }
    destruct zero_grad_flag; [|by exists w1].
    destruct (zero_grad_run set_to_none self w1) as (w' & Hzero & _).
    by exists w'.
Qed.

(** Case analysis on the membership of an element in a list that is
    written out. *)
Ltac elem_cases H :=
  vm_compute in H;
  repeat (apply elem_of_cons in H as [->|H]);
  try (apply elem_of_nil in H; destruct H).

(** [second_step] when a parameter has a gradient and no ['old_p'], as when
    no [first_step] came before: [q0] being the first such parameter in the
    order of the loop, [second_step] raises [KeyError] at [q0], and the base
    optimizer does not run, whatever it is.  No tensor is written or
    created, every parameter keeps its gradient, the saved copies and the
    state of the base optimizer are as before; the parameters with a
    gradient that come before [q0] are already rebound to their saved copy,
    and every other parameter is as it was. *)
Theorem second_step_without_first_step :
  ∀ (T B : Type) (ops : TensorOps T)
    (base_optimizer_step : list SAM.group → M T (SAM.state B) unit)
    (set_to_none : bool) (self : SAM.optimizer) (zero_grad_flag : bool)
    (w : world T (SAM.state B)) (ps1 : list pid) (q0 : pid) (ps2 : list pid),
    (grp ← SAM.param_groups self; SAM.params grp) = ps1 ++ q0 :: ps2 →
    (∀ q, q ∈ ps1 → is_Some (grad (param_of w q)) →
          is_Some (SAM.old_p (opt w) q)) →
    is_Some (grad (param_of w q0)) →
    SAM.old_p (opt w) q0 = None →
    ∃ w',
      SAM.second_step base_optimizer_step set_to_none self zero_grad_flag w
      = (inl (KeyError "old_p"), w')
      ∧ heap w' = heap w ∧ next w' = next w
      ∧ SAM.old_p (opt w') = SAM.old_p (opt w)
      ∧ SAM.base (opt w') = SAM.base (opt w)
      ∧ (∀ q, grad (param_of w' q) = grad (param_of w q))
      ∧ (∀ q, q ∈ ps1 → is_Some (grad (param_of w q)) →
              SAM.old_p (opt w) q = Some (data (param_of w' q)))
      ∧ (∀ q, q ∉ ps1 ∨ grad (param_of w q) = None →
              param_of w' q = param_of w q).
Proof.
  intros * Hsplit Hok [g Hgrad] Hold.
  destruct (restore_loop (B:=B) ps1 w Hok)
    as (w' & Hrun & Hh & Hn & Ho & Hgr & Hin & Hout).
  exists w'. split.
  { unfold SAM.second_step. apply bind_inl. rewrite for_flat, Hsplit.
    rewrite for_app, Hrun. apply for_cons_inl.
    unfold SAM.restore, get_param, get_opt, lookup_key.
    unfold mbind, M_bind, bind. by rewrite Hgr, Hgrad, Ho, Hold. }
  rewrite Ho. by repeat split.
Qed.

Lemma second_step_without_first_step_witness :
  let w := snd (SAM.first_step true
                  (SAM.Optimizer [SAM.Group (1 # 20) true [0%nat]]) false
                  Examples.sam_world_adaptive) in
  ∃ w',
    SAM.second_step (Vec.sgd_step (1 # 10)) true Examples.sam_adaptive false w
    = (inl (KeyError "old_p"), w')
    ∧ heap w' = heap w
    ∧ SAM.old_p (opt w) 0%nat = Some (data (param_of w' 0%nat))
    ∧ param_of w' 1%nat = param_of w 1%nat.
Proof.
  intros w.
  destruct (second_step_without_first_step _ _ _ (Vec.sgd_step (1 # 10)) true
              Examples.sam_adaptive false w [0; 2]%nat 1%nat [])
    as (w' & Hrun & Hh & _ & _ & _ & _ & Hin & Hout).
  - reflexivity.
  - intros q Hq. elem_cases Hq; vm_compute; eauto.
  - vm_compute. eauto.
  - vm_compute. reflexivity.
  - exists w'. split; [exact Hrun|]. split; [exact Hh|]. split.
    + apply Hin; [apply elem_of_cons; by left|]. vm_compute. eauto.
    + apply Hout. left. apply (bool_decide_unpack _). vm_compute. exact I.
Defined.

Lemma first_step_raises_before_any_write_witness :
  SAM.first_step true (SAM.Optimizer [SAM.Group (1 # 20) false [2%nat]]) true
    Examples.sam_world
  = (inl (RuntimeError "stack expects a non-empty TensorList"),
     Examples.sam_world)
  ∧ ∃ w', SAM.first_step true Examples.sam true Examples.sam_world
          = (inr tt, w').
Proof.
  destruct (first_step_raises_before_any_write _ unit _ true
              (SAM.Optimizer [SAM.Group (1 # 20) false [2%nat]]) true
              Examples.sam_world) as (_ & _ & Hnone & _).
  destruct (first_step_raises_before_any_write _ unit _ true Examples.sam true
              Examples.sam_world) as (_ & _ & _ & Hsome).
  split.
  - eapply Hnone; [reflexivity|discriminate|].
    intros grp p Hgrp Hp. apply list_elem_of_singleton in Hgrp as ->.
    apply list_elem_of_singleton in Hp as ->. reflexivity.
  - eapply (Hsome _ _ (SAM.Group (1 # 20) false [0%nat]) 0%nat);
      [reflexivity|discriminate| | |].
    + apply list_elem_of_singleton. reflexivity.
    + apply list_elem_of_singleton. reflexivity.
    + vm_compute. eauto.
Defined.

Section SAMFirstStep.
Context {T B : Type} `{ops : TensorOps T}.
Implicit Types w : world T (SAM.state B).

Lemma ascend_loop_no_gradient (scale : SAM.group → T)
    (ps : list (SAM.group * pid)) w w' q :
  for_ ps (λ gp, SAM.ascend gp.1 (scale gp.1) gp.2) w = (inr tt, w') →
  grad (param_of w q) = None →
  SAM.old_p (opt w') q = SAM.old_p (opt w) q.
Proof.
  revert w. induction ps as [|[grp p] ps IH]; intros w Hrun Hq.
  { simpl in Hrun. unfold ret in Hrun. by simplify_eq. }
  simpl in Hrun. unfold bind in Hrun. rewrite ascend_run in Hrun.
  destruct (grad (param_of w p)) as [g|] eqn:Hg; [|by apply IH].
  cbv zeta in Hrun. apply IH in Hrun; [|done]. rewrite Hrun. simpl.
  rewrite fn_lookup_insert_ne; [done|]. intros ->. congruence.
Qed.

(** What [first_step] leaves, for parameters that are distinct objects with
    storage of their own. *)
Lemma first_step_all (set_to_none : bool) (self : SAM.optimizer)
    (zero_grad_flag : bool) w group p g :
  group ∈ SAM.param_groups self →
  p ∈ SAM.params group →
  grad (param_of w p) = Some g →
  (∀ group0, head (SAM.param_groups self) = Some group0 →
             SAM.params group0 ≠ []) →
  NoDup (grp ← SAM.param_groups self; SAM.params grp) →
  (∀ q, q ∈ (grp ← SAM.param_groups self; SAM.params grp) →
        (data (param_of w q) < next w)%nat
        ∧ ∀ g, grad (param_of w q) = Some g → (g < next w)%nat) →
  (∀ q q', q ∈ (grp ← SAM.param_groups self; SAM.params grp) →
           q' ∈ (grp ← SAM.param_groups self; SAM.params grp) →
           q ≠ q' → data (param_of w q) ≠ data (param_of w q')) →
  (∀ q q' g, q ∈ (grp ← SAM.param_groups self; SAM.params grp) →
             q' ∈ (grp ← SAM.param_groups self; SAM.params grp) →
             grad (param_of w q') = Some g → g ≠ data (param_of w q)) →
  ∃ w',
    SAM.first_step set_to_none self zero_grad_flag w = (inr tt, w')
    ∧ (∀ q, data (param_of w' q) = data (param_of w q))
    ∧ (zero_grad_flag = false → param_of w' = param_of w)
    ∧ (∀ grp q gq, grp ∈ SAM.param_groups self → q ∈ SAM.params grp →
         grad (param_of w q) = Some gq →
         let pv := heap w (data (param_of w q)) in
         heap w' (data (param_of w q))
         = add pv
             (mul (if SAM.adaptive grp then mul (pow pv 2) (heap w gq)
                   else mul_scalar (heap w gq) 1)
                  (rdiv_scalar (SAM.rho grp)
                     (add_scalar (norm (stack (SAM.grad_norms self w)))
                                 (1 # 10 ^ 12))))
         ∧ ∃ l, SAM.old_p (opt w') q = Some l ∧ (next w ≤ l)%nat
                ∧ heap w' l = pv)
    ∧ (∀ q, q ∈ (grp ← SAM.param_groups self; SAM.params grp) →
         grad (param_of w q) = None →
         heap w' (data (param_of w q)) = heap w (data (param_of w q))
         ∧ SAM.old_p (opt w') q = SAM.old_p (opt w) q)
    ∧ (zero_grad_flag = false →
       ∀ q gq, q ∈ (grp ← SAM.param_groups self; SAM.params grp) →
               grad (param_of w q) = Some gq → heap w' gq = heap w gq).
Proof.
  intros Hgroup Hp Hg Hhead Hnd Hlt Hdata Hgrad.
  set (scale := λ grp : SAM.group,
         rdiv_scalar (SAM.rho grp)
           (add_scalar (norm (stack (SAM.grad_norms self w))) (1 # 10 ^ 12))).
  destruct (ascend_loop (B:=B) scale
              (grp ← SAM.param_groups self; (λ q, (grp, q)) <$> SAM.params grp) w)
    as (w1 & Hrun & Hpar & Hn & Hb & Hframe & Hold & Hps);
    rewrite ?pairs_snd; try done.
  rewrite pairs_snd in Hframe.
  assert (∀ x, (x < next w)%nat →
               (∀ q, q ∈ (grp ← SAM.param_groups self; SAM.params grp) →
                     x ≠ data (param_of w q)) →
               heap w1 x = heap w x) as Hframe'.
  { intros x Hx Hne. apply Hframe; [done|]. intros q Hq _. by apply Hne. }
  assert (∃ w', (if zero_grad_flag then SAM.zero_grad set_to_none self
                 else mret tt) w1 = (inr tt, w')
            ∧ opt w' = opt w1
            ∧ (∀ q, data (param_of w' q) = data (param_of w1 q))
            ∧ (zero_grad_flag = false → w' = w1)
            ∧ (∀ x, (∀ grp q, grp ∈ SAM.param_groups self →
                              q ∈ SAM.params grp →
                              grad (param_of w q) ≠ Some x) →
                    heap w' x = heap w1 x))
    as (w' & Hzero & Ho & Hd & Hsame & Hh).
  { destruct zero_grad_flag; [|by exists w1].
    destruct (zero_grad_run set_to_none self w1)
      as (w' & Hzero & Ho & _ & Hd & Hh).
    exists w'. do 3 (split; [done|]). split; [done|].
    intros x Hx. apply Hh. intros grp q Hgrp Hq. rewrite Hpar.
    by apply (Hx grp). }
  assert (∀ q, q ∈ (grp ← SAM.param_groups self; SAM.params grp) →
                 ∀ grp q', grp ∈ SAM.param_groups self → q' ∈ SAM.params grp →
                           grad (param_of w q') ≠ Some (data (param_of w q)))
    as Hnotgrad.
  { intros q Hq grp q' Hgrp Hq' Heq.
    eapply (Hgrad q q'); [done| |done..].
    apply list_elem_of_bind. by exists grp. }
  exists w'. split.
  { unfold SAM.first_step.
    erewrite bind_inr by (by eapply grad_norm_run).
    erewrite bind_inr; [exact Hzero|].
    rewrite (for_nested SAM.params (λ grp, SAM.ascend grp (scale grp))).
    exact Hrun. }
  split; [intros q; by rewrite Hd, Hpar|].
  split; [intros Hz; by rewrite (Hsame Hz)|].
  split; [|split].
  - intros grp q gq Hgrp Hq Hgq.
    assert (q ∈ (grp ← SAM.param_groups self; SAM.params grp)) as Hin.
    { apply list_elem_of_bind. by exists grp. }
    destruct (Hps grp q gq) as [Hval (l & Hl & Hrange & Hsaved)]; [|done|].
    { apply list_elem_of_bind. exists grp. split; [|done].
      apply list_elem_of_fmap. by exists q. }
    cbv zeta in *. split.
    + rewrite Hh by (by apply (Hnotgrad q)). exact Hval.
    + exists l. rewrite Ho. split; [done|]. split; [lia|].
      rewrite Hh; [done|]. intros grp' q' Hgrp' Hq' Heq.
      destruct (Hlt q') as [_ Hq'g].
      { apply list_elem_of_bind. by exists grp'. }
      specialize (Hq'g _ Heq). lia.
  - intros q Hq Hnone. split.
    + rewrite Hh by (by apply (Hnotgrad q)).
      destruct (Hlt q Hq) as [Hld _].
      apply Hframe; [done|]. intros q' Hq' Hsome. apply Hdata; [done..|].
      intros ->. rewrite Hnone in Hsome. by destruct Hsome.
    + rewrite Ho. by eapply ascend_loop_no_gradient.
  - intros Hz q gq Hq Hgq. rewrite (Hsame Hz).
    destruct (Hlt q Hq) as [_ Hlg].
    apply Hframe; [by apply Hlg|]. intros q' Hq' _.
    exact (Hgrad q' q gq Hq' Hq Hgq).
Qed.

End SAMFirstStep.

(** [first_step] in an adaptive group (parameters being distinct objects
    with storage of their own, the first group not empty): the parameter is
    moved by [p² * p.grad * (rho / (grad_norm + 1e-12))], the square of line
    91, while [grad_norm] weighs the gradient of such a parameter by [|p|]
    (line 131); the value before the call is saved in a new tensor. *)
Theorem first_step_adaptive :
  ∀ (T B : Type) (ops : TensorOps T) (set_to_none : bool)
    (self : SAM.optimizer) (zero_grad_flag : bool)
    (w : world T (SAM.state B)) (group : SAM.group) (p : pid) (g : loc),
    group ∈ SAM.param_groups self →
    p ∈ SAM.params group →
    SAM.adaptive group = true →
    grad (param_of w p) = Some g →
    (∀ group0, head (SAM.param_groups self) = Some group0 →
               SAM.params group0 ≠ []) →
    NoDup (grp ← SAM.param_groups self; SAM.params grp) →
    (∀ q, q ∈ (grp ← SAM.param_groups self; SAM.params grp) →
          (data (param_of w q) < next w)%nat
          ∧ ∀ g, grad (param_of w q) = Some g → (g < next w)%nat) →
    (∀ q q', q ∈ (grp ← SAM.param_groups self; SAM.params grp) →
             q' ∈ (grp ← SAM.param_groups self; SAM.params grp) →
             q ≠ q' → data (param_of w q) ≠ data (param_of w q')) →
    (∀ q q' g, q ∈ (grp ← SAM.param_groups self; SAM.params grp) →
               q' ∈ (grp ← SAM.param_groups self; SAM.params grp) →
               grad (param_of w q') = Some g → g ≠ data (param_of w q)) →
    let pv := heap w (data (param_of w p)) in
    norm (mul (abs pv) (heap w g)) ∈ SAM.grad_norms self w
    ∧ ∃ w' l,
        SAM.first_step set_to_none self zero_grad_flag w = (inr tt, w')
        ∧ heap w' (data (param_of w' p))
          = add pv
              (mul (mul (pow pv 2) (heap w g))
                   (rdiv_scalar (SAM.rho group)
                      (add_scalar (norm (stack (SAM.grad_norms self w)))
                                  (1 # 10 ^ 12))))
        ∧ SAM.old_p (opt w') p = Some l
        ∧ heap w' l = pv.
Proof.
  intros * Hgroup Hp Hadaptive Hg Hhead Hnd Hlt Hdata Hgrad pv. split.
  { unfold SAM.grad_norms. apply list_elem_of_bind. exists group.
    split; [|done]. apply list_elem_of_omap. exists p. split; [done|].
    by rewrite Hg, Hadaptive. }
  destruct (first_step_all set_to_none self zero_grad_flag w group p g)
    as (w' & Hrun & Hd & _ & Hval & _); try done.
  destruct (Hval group p g) as [Hv (l & Hl & _ & Hsaved)]; try done.
  exists w', l. rewrite Hadaptive in Hv. by rewrite Hd.
Qed.

(** [first_step] leaves a parameter without gradient as it is: same storage,
    same value, and no ['old_p'] is written for it.  (Parameters being
    distinct objects with storage of their own, and some parameter having a
    gradient.) *)
Theorem first_step_skips_parameters_without_gradient :
  ∀ (T B : Type) (ops : TensorOps T) (set_to_none : bool)
    (self : SAM.optimizer) (zero_grad_flag : bool)
    (w : world T (SAM.state B)) (group : SAM.group) (p : pid) (g : loc)
    (q : pid),
    group ∈ SAM.param_groups self →
    p ∈ SAM.params group →
    grad (param_of w p) = Some g →
    (∀ group0, head (SAM.param_groups self) = Some group0 →
               SAM.params group0 ≠ []) →
    NoDup (grp ← SAM.param_groups self; SAM.params grp) →
    (∀ q, q ∈ (grp ← SAM.param_groups self; SAM.params grp) →
          (data (param_of w q) < next w)%nat
          ∧ ∀ g, grad (param_of w q) = Some g → (g < next w)%nat) →
    (∀ q q', q ∈ (grp ← SAM.param_groups self; SAM.params grp) →
             q' ∈ (grp ← SAM.param_groups self; SAM.params grp) →
             q ≠ q' → data (param_of w q) ≠ data (param_of w q')) →
    (∀ q q' g, q ∈ (grp ← SAM.param_groups self; SAM.params grp) →
               q' ∈ (grp ← SAM.param_groups self; SAM.params grp) →
               grad (param_of w q') = Some g → g ≠ data (param_of w q)) →
    q ∈ (grp ← SAM.param_groups self; SAM.params grp) →
    grad (param_of w q) = None →
    ∃ w',
      SAM.first_step set_to_none self zero_grad_flag w = (inr tt, w')
      ∧ data (param_of w' q) = data (param_of w q)
      ∧ heap w' (data (param_of w' q)) = heap w (data (param_of w q))
      ∧ SAM.old_p (opt w') q = SAM.old_p (opt w) q.
Proof.
  intros * Hgroup Hp Hg Hhead Hnd Hlt Hdata Hgrad Hq Hnone.
  destruct (first_step_all set_to_none self zero_grad_flag w group p g)
    as (w' & Hrun & Hd & _ & _ & Hskip & _); try done.
  destruct (Hskip q Hq Hnone) as [Hv Ho].
  exists w'. by rewrite Hd.
Qed.

(** The perturbation is undone exactly.  After [first_step] and then the
    loop of [second_step], the base optimizer runs in a world [w_r] in which
    every parameter of the groups holds the value it had before
    [first_step], and in which its gradient is the same object, with the
    same value.  (Parameters being distinct objects with storage of their
    own; [first_step] called with [zero_grad=False].) *)
Theorem first_then_second_step_restores_values :
  ∀ (T B : Type) (ops : TensorOps T)
    (base_optimizer_step : list SAM.group → M T (SAM.state B) unit)
    (set_to_none : bool) (self : SAM.optimizer) (zero_grad_flag : bool)
    (w : world T (SAM.state B)) (group : SAM.group) (p : pid) (g : loc),
    group ∈ SAM.param_groups self →
    p ∈ SAM.params group →
    grad (param_of w p) = Some g →
    (∀ group0, head (SAM.param_groups self) = Some group0 →
               SAM.params group0 ≠ []) →
    NoDup (grp ← SAM.param_groups self; SAM.params grp) →
    (∀ q, q ∈ (grp ← SAM.param_groups self; SAM.params grp) →
          (data (param_of w q) < next w)%nat
          ∧ ∀ g, grad (param_of w q) = Some g → (g < next w)%nat) →
    (∀ q q', q ∈ (grp ← SAM.param_groups self; SAM.params grp) →
             q' ∈ (grp ← SAM.param_groups self; SAM.params grp) →
             q ≠ q' → data (param_of w q) ≠ data (param_of w q')) →
    (∀ q q' g, q ∈ (grp ← SAM.param_groups self; SAM.params grp) →
               q' ∈ (grp ← SAM.param_groups self; SAM.params grp) →
               grad (param_of w q') = Some g → g ≠ data (param_of w q)) →
    ∃ w1 w_r,
      SAM.first_step set_to_none self false w = (inr tt, w1)
      ∧ SAM.second_step base_optimizer_step set_to_none self zero_grad_flag w1
        = (base_optimizer_step (SAM.param_groups self);;
           if zero_grad_flag then SAM.zero_grad set_to_none self else mret tt)
            w_r
      ∧ ∀ q, q ∈ (grp ← SAM.param_groups self; SAM.params grp) →
             heap w_r (data (param_of w_r q)) = heap w (data (param_of w q))
             ∧ grad (param_of w_r q) = grad (param_of w q)
             ∧ ∀ gq, grad (param_of w q) = Some gq → heap w_r gq = heap w gq.
Proof.
  intros * Hgroup Hp Hg Hhead Hnd Hlt Hdata Hgrad.
  destruct (first_step_all set_to_none self false w group p g)
    as (w1 & Hrun & Hd & Hpar & Hval & Hskip & Hgv); try done.
  specialize (Hpar eq_refl). specialize (Hgv eq_refl).
  destruct (restore_loop (grp ← SAM.param_groups self; SAM.params grp) w1)
    as (w_r & Hrun' & Hh & Hn & Ho & Hgr & Hin & Hout).
  { intros q Hq [gq Hgq]. rewrite Hpar in Hgq.
    apply list_elem_of_bind in Hq as (grp & Hq & Hgrp).
    destruct (Hval grp q gq) as [_ (l & -> & _)]; eauto. }
  exists w1, w_r. split; [exact Hrun|]. split.
  { unfold SAM.second_step.
    by erewrite bind_inr by (rewrite for_flat; exact Hrun'). }
  intros q Hq. split; [|split].
  - destruct (grad (param_of w q)) as [gq|] eqn:Hgq.
    + pose proof Hq as Hq'.
      apply list_elem_of_bind in Hq' as (grp & Hq' & Hgrp).
      destruct (Hval grp q gq) as [_ (l & Hl & _ & Hsaved)]; try done.
      specialize (Hin q Hq). rewrite Hpar, Hgq in Hin.
      specialize (Hin (ltac:(eauto))). rewrite Hl in Hin.
      injection Hin as <-. by rewrite Hh.
    + rewrite Hout by (right; by rewrite Hpar). rewrite Hh, Hpar.
      by apply Hskip.
  - by rewrite Hgr, Hpar.
  - intros gq Hgq. rewrite Hh. by eapply Hgv.
Qed.

Ltac sam_objects :=
  match goal with
  | |- NoDup _ =>
      apply (bool_decide_unpack _); vm_compute; exact I
  | |- ∀ q, q ∈ _ → _ ∧ _ =>
      let Hq := fresh in
      intros q Hq; elem_cases Hq;
      (split; [vm_compute; lia|intros ? [= <-]; vm_compute; lia])
  | |- ∀ q q', q ∈ _ → q' ∈ _ → q ≠ q' → _ =>
      let Hq := fresh in let Hq' := fresh in
      intros q q' Hq Hq'; elem_cases Hq; elem_cases Hq'; vm_compute; congruence
  | |- ∀ q q' g, q ∈ _ → q' ∈ _ → _ = Some g → _ =>
      let Hq := fresh in let Hq' := fresh in
      intros q q' ? Hq Hq'; elem_cases Hq; elem_cases Hq'; vm_compute; congruence
  end.

Lemma first_step_adaptive_witness :
  norm (mul (abs (Vec.scalar 1)) (Vec.scalar 3))
  ∈ SAM.grad_norms Examples.sam_adaptive Examples.sam_world_adaptive
  ∧ ∃ w' l,
      SAM.first_step true Examples.sam_adaptive false
        Examples.sam_world_adaptive = (inr tt, w')
      ∧ heap w' (data (param_of w' 0%nat))
        = add (Vec.scalar 1)
            (mul (mul (pow (Vec.scalar 1) 2) (Vec.scalar 3))
                 (rdiv_scalar (1 # 20)
                    (add_scalar (Vec.scalar 5) (1 # 10 ^ 12))))
      ∧ SAM.old_p (opt w') 0%nat = Some l
      ∧ heap w' l = Vec.scalar 1.
Proof.
  refine (first_step_adaptive _ unit _ true Examples.sam_adaptive false
            Examples.sam_world_adaptive Examples.sam_adaptive_group 0%nat
            1%nat _ _ _ _ _ _ _ _ _).
  - apply elem_of_cons. by left.
  - apply elem_of_cons. by left.
  - reflexivity.
  - reflexivity.
  - intros group0 [= <-]. discriminate.
  - sam_objects.
  - sam_objects.
  - sam_objects.
  - sam_objects.
Defined.

Lemma first_step_skips_parameters_without_gradient_witness :
  ∃ w',
    SAM.first_step true Examples.sam_adaptive true Examples.sam_world_adaptive
    = (inr tt, w')
    ∧ data (param_of w' 2%nat) = 4%nat
    ∧ heap w' (data (param_of w' 2%nat)) = Vec.scalar 7
    ∧ SAM.old_p (opt w') 2%nat = None.
Proof.
  refine (first_step_skips_parameters_without_gradient _ unit _ true
            Examples.sam_adaptive true Examples.sam_world_adaptive
            Examples.sam_adaptive_group 0%nat 1%nat 2%nat
            _ _ _ _ _ _ _ _ _ _).
  - apply elem_of_cons. by left.
  - apply elem_of_cons. by left.
  - reflexivity.
  - intros group0 [= <-]. discriminate.
  - sam_objects.
  - sam_objects.
  - sam_objects.
  - sam_objects.
  - vm_compute. apply elem_of_cons. right. apply elem_of_cons. by left.
  - reflexivity.
Defined.

Lemma first_then_second_step_restores_values_witness :
  ∃ w1 w_r,
    SAM.first_step true Examples.sam_adaptive false Examples.sam_world_adaptive
    = (inr tt, w1)
    ∧ SAM.second_step (Vec.sgd_step (1 # 10)) true Examples.sam_adaptive false
        w1
      = (Vec.sgd_step (1 # 10) (SAM.param_groups Examples.sam_adaptive);;
         mret tt) w_r
    ∧ ∀ q, q ∈ [0; 2; 1]%nat →
           heap w_r (data (param_of w_r q))
           = heap Examples.sam_world_adaptive
               (data (param_of Examples.sam_world_adaptive q))
           ∧ grad (param_of w_r q) = grad (param_of Examples.sam_world_adaptive q)
           ∧ ∀ gq, grad (param_of Examples.sam_world_adaptive q) = Some gq →
                   heap w_r gq = heap Examples.sam_world_adaptive gq.
Proof.
  refine (first_then_second_step_restores_values _ unit _
            (Vec.sgd_step (1 # 10)) true Examples.sam_adaptive false
            Examples.sam_world_adaptive Examples.sam_adaptive_group 0%nat
            1%nat _ _ _ _ _ _ _ _).
  - apply elem_of_cons. by left.
  - apply elem_of_cons. by left.
  - reflexivity.
  - intros group0 [= <-]. discriminate.
  - sam_objects.
  - sam_objects.
  - sam_objects.
  - sam_objects.
Defined.

(** ** Shampoo: rounds, state and missing keys *)

Section ShampooMore.
Context {T : Type} `{ops : TensorOps T} (compute_power_svd : T → Q → T).
Implicit Types w : world T (pid → Shampoo.state T).

(** One round of the loop over the dimensions writes the object [grad] is
    bound to and a new object, which it returns; in the state of [p] it
    writes the two matrices of its dimension. *)
Lemma precondition_dim_run self p order original_size cur dim_id dim w cur' w' :
  Shampoo.precondition_dim compute_power_svd self p order original_size cur
    dim_id dim w = (inr cur', w') →
  cur' = next w ∧ next w' = S (next w) ∧ param_of w' = param_of w
  ∧ (∀ x, x ≠ cur → (x < next w)%nat → heap w' x = heap w x)
  ∧ Shampoo.s_step (opt w' p) = Shampoo.s_step (opt w p)
  ∧ Shampoo.s_momentum_buffer (opt w' p) = Shampoo.s_momentum_buffer (opt w p)
  ∧ (∀ q, q ≠ p → opt w' q = opt w q)
  ∧ (∀ i, is_Some (Shampoo.s_pre_cond (opt w' p) !! i)
          ↔ is_Some (Shampoo.s_pre_cond (opt w p) !! i))
  ∧ (∀ i, is_Some (Shampoo.s_inv_pre_cond (opt w' p) !! i)
          ↔ is_Some (Shampoo.s_inv_pre_cond (opt w p) !! i)).
Proof.
  intros Hrun.
  unfold Shampoo.precondition_dim, Shampoo.get_state, Shampoo.update_state
    in Hrun.
  munfold in Hrun. simpl in Hrun.
  destruct (Shampoo.s_pre_cond (opt w p) !! dim_id) as [pc|] eqn:Hpc; [|done].
  destruct (Shampoo.s_inv_pre_cond (opt w p) !! dim_id) as [ipc|] eqn:Hipc;
    [|done].
  simpl in Hrun. rewrite fn_lookup_insert in Hrun. simpl in Hrun.
  destruct (Shampoo.s_step (opt w p)) as [n|] eqn:Hn; [|done]. simpl in Hrun.
  assert (∀ (m : gmap nat T) i x, is_Some (m !! dim_id) →
            (is_Some (<[dim_id := x]> m !! i) ↔ is_Some (m !! i))) as Hkeys.
  { intros m i x Hm. destruct (decide (dim_id = i)) as [<-|Hne].
    - rewrite lookup_insert_eq. split; eauto.
    - by rewrite lookup_insert_ne. }
  destruct (_ =? 0); simpl in Hrun; destruct (decide (dim_id = _));
    simpl in Hrun; simplify_eq; simpl; rewrite ?fn_lookup_insert; simpl;
    (do 3 (split; [done|]); split;
     [intros x Hx Hlt; by rewrite !fn_lookup_insert_ne by lia|];
     do 2 (split; [done|]); split;
     [intros q Hq; by rewrite !fn_lookup_insert_ne|];
     split; intros i; rewrite ?Hkeys; rewrite ?Hkeys; eauto).
Qed.




(** Lines 88-96 never fail: afterwards the state of [p] holds step 0 and,
    for every dimension [i] of the gradient, of size [d], the matrices
    [matrix_eps * eye(d)] and [zeros(d, d)]. *)
Lemma init_state_run self group p g w :
  ∃ w1, Shampoo.init_state self group p g w = (inr tt, w1)
    ∧ Shampoo.s_step (opt w1 p) = Some 0
    ∧ (∀ q, q ≠ p → opt w1 q = opt w q)
    ∧ (∀ i d, tsize (heap w g) !! i = Some d →
         Shampoo.s_pre_cond (opt w1 p) !! i
         = Some (mul_scalar (new_eye (heap w g) d) (Shampoo.matrix_eps self))
         ∧ Shampoo.s_inv_pre_cond (opt w1 p) !! i
           = Some (new_zeros (heap w g) d d)).
Proof.
  assert (∀ v dims wc, ∃ wd,
    for_ dims (λ '(dim_id, dim),
      Shampoo.update_state p
        (Shampoo.set_pre_cond dim_id
           (mul_scalar (new_eye v dim) (Shampoo.matrix_eps self)));;
      Shampoo.update_state p
        (Shampoo.set_inv_pre_cond dim_id (new_zeros v dim dim)))
      wc = (inr tt, wd)
    ∧ Shampoo.s_step (opt wd p) = Shampoo.s_step (opt wc p)
    ∧ (∀ q, q ≠ p → opt wd q = opt wc q)
    ∧ (NoDup dims.*1 → ∀ i d, (i, d) ∈ dims →
         Shampoo.s_pre_cond (opt wd p) !! i
         = Some (mul_scalar (new_eye v d) (Shampoo.matrix_eps self))
         ∧ Shampoo.s_inv_pre_cond (opt wd p) !! i = Some (new_zeros v d d))
    ∧ (∀ i, i ∉ dims.*1 →
         Shampoo.s_pre_cond (opt wd p) !! i
         = Shampoo.s_pre_cond (opt wc p) !! i
         ∧ Shampoo.s_inv_pre_cond (opt wd p) !! i
           = Shampoo.s_inv_pre_cond (opt wc p) !! i)) as Hloop.
  { intros v. induction dims as [|[i0 d0] dims IH]; intros wc.
    { exists wc. simpl. unfold ret. do 3 (split; [done|]). split; [|done].
      intros _ i d Hin. by apply elem_of_nil in Hin. }
    simpl. unfold Shampoo.update_state at 1 2. munfold. simpl.
    match goal with |- ∃ wd, for_ _ _ ?w1 = _ ∧ _ =>
      destruct (IH w1) as (wd & Hrun & Hs & Ho & Hin & Hout) end.
    simpl in *. rewrite !fn_lookup_insert in *. simpl in *.
    exists wd. split; [done|]. split; [done|]. split.
    { intros q Hq. rewrite Ho by done. by rewrite !fn_lookup_insert_ne. }
    split.
    - intros Hnd i d Hid. apply NoDup_cons in Hnd as [Hi0 Hnd].
      apply elem_of_cons in Hid as [Heq|Hid]; [|by apply Hin].
      injection Heq as -> ->.
      destruct (Hout i0 Hi0) as [-> ->].
      by rewrite !lookup_insert_eq.
    - intros i Hi. apply not_elem_of_cons in Hi as [Hne Hi].
      destruct (Hout i Hi) as [-> ->].
      by rewrite !lookup_insert_ne. }
  unfold Shampoo.init_state.
  unfold Shampoo.update_state at 1. munfold. simpl.
  destruct (Qpos_b (Shampoo.momentum group)); simpl.
  - assert (<[next w := heap w g]> (heap w) g = heap w g) as ->.
    { destruct (decide (next w = g)) as [->|Hne].
      - by rewrite fn_lookup_insert.
      - by rewrite fn_lookup_insert_ne. }
    match goal with |- ∃ w1, for_ ?dims _ ?wc = _ ∧ _ =>
      destruct (Hloop (heap w g) dims wc) as (wd & Hrun & Hs & Ho & Hin & _)
    end.
    exists wd. split; [exact Hrun|]. simpl in *.
    rewrite !fn_lookup_insert in Hs. split; [done|]. split.
    { intros q Hq. rewrite Ho by done. by rewrite !fn_lookup_insert_ne. }
    intros i d Hid. apply Hin.
    + unfold enumerate. rewrite fst_zip by (rewrite length_seq; lia).
      apply NoDup_seq.
    + unfold enumerate. apply list_elem_of_lookup. exists i.
      rewrite lookup_zip_with, lookup_seq_lt
        by (by apply lookup_lt_Some in Hid).
      simpl. by rewrite Hid.
  - match goal with |- ∃ w1, for_ ?dims _ ?wc = _ ∧ _ =>
      destruct (Hloop (heap w g) dims wc) as (wd & Hrun & Hs & Ho & Hin & _)
    end.
    exists wd. split; [exact Hrun|]. simpl in *.
    rewrite !fn_lookup_insert in Hs. split; [done|]. split.
    { intros q Hq. rewrite Ho by done. by rewrite !fn_lookup_insert_ne. }
    intros i d Hid. apply Hin.
    + unfold enumerate. rewrite fst_zip by (rewrite length_seq; lia).
      apply NoDup_seq.
    + unfold enumerate. apply list_elem_of_lookup. exists i.
      rewrite lookup_zip_with, lookup_seq_lt
        by (by apply lookup_lt_Some in Hid).
      simpl. by rewrite Hid.
Qed.



(** [Shampoo.reset], in full: the key ['step'] of every parameter of the
    groups becomes 0, whether the parameter had a state or not, and nothing
    else changes. *)
Lemma shampoo_reset_run (self : Shampoo.optimizer) w :
  ∃ w', Shampoo.reset self w = (inr tt, w')
    ∧ heap w' = heap w ∧ next w' = next w ∧ param_of w' = param_of w
    ∧ ∀ p, opt w' p
           = if decide (p ∈ ((g ← Shampoo.param_groups self;
                              Shampoo.params g) : list pid))
             then Shampoo.set_step 0 (opt w p) else opt w p.
Proof.
  unfold Shampoo.reset. rewrite for_flat.
  generalize (g ← Shampoo.param_groups self; Shampoo.params g).
  intros ps. revert w. induction ps as [|q ps IH]; intros w.
  { exists w. simpl. unfold ret. do 4 (split; [done|]). intros p.
    destruct (decide (p ∈ [])) as [Hin|]; [by apply elem_of_nil in Hin|done]. }
  simpl. unfold Shampoo.update_state at 1. munfold.
  match goal with |- ∃ w', for_ _ _ ?w1 = _ ∧ _ =>
    destruct (IH w1) as (w' & Hrun & Hh & Hn & Hp & Ho) end.
  exists w'. split; [exact Hrun|]. do 3 (split; [done|]).
  intros p. rewrite Ho. simpl.
  destruct (decide (p = q)) as [->|Hne].
  - rewrite fn_lookup_insert.
    destruct (decide (q ∈ ps)), (decide (q ∈ q :: ps)) as [|Hn'];
      try reflexivity; exfalso; apply Hn'; by left.
  - rewrite fn_lookup_insert_ne by done.
    destruct (decide (p ∈ ps)) as [Hin|Hin], (decide (p ∈ q :: ps))
      as [Hin'|Hin']; try done.
    + exfalso. apply Hin'. by right.
    + apply elem_of_cons in Hin' as [?|?]; done.
Qed.

End ShampooMore.

(** [Shampoo.reset] before the first step of a parameter breaks the step.
    [reset] writes ['step'] = 0 into the empty state of [p], so the next
    round skips the initialisation of lines 88-96 ([len(state) == 0] is
    false).  With momentum > 0 the round raises [KeyError] for
    ['momentum_buffer'], after it has multiplied the gradient by
    [1 - momentum] in place; with momentum = 0 and weight_decay = 0 it raises
    [KeyError] for ['pre_cond_0'] when the gradient has a dimension, and has
    written nothing. *)
Theorem shampoo_reset_before_first_step :
  ∀ (T : Type) (ops : TensorOps T) (compute_power_svd : T → Q → T)
    (self : Shampoo.optimizer) (group : Shampoo.group) (p : pid) (g : loc)
    (w : world T (pid → Shampoo.state T)),
    group ∈ Shampoo.param_groups self →
    p ∈ Shampoo.params group →
    Shampoo.len (opt w p) = 0%nat →
    grad (param_of w p) = Some g →
    is_sparse (heap w g) = false →
    ∃ w1,
      Shampoo.reset self w = (inr tt, w1)
      ∧ Shampoo.len (opt w1 p) = 1%nat
      ∧ (Qpos_b (Shampoo.momentum group) = true →
         Shampoo.step_param compute_power_svd self group p w1
         = (inl (KeyError "momentum_buffer"),
            World (<[g := mul_scalar (heap w g) (1 - Shampoo.momentum group)]>
                     (heap w))
                  (next w) (param_of w) (opt w1)))
      ∧ (Qpos_b (Shampoo.momentum group) = false →
         Qpos_b (Shampoo.weight_decay group) = false →
         tsize (heap w g) ≠ [] →
         Shampoo.step_param compute_power_svd self group p w1
         = (inl (KeyError "pre_cond_0"), w1)).
Proof.
  intros * Hgroup Hp Hlen Hg Hdense.
  destruct (shampoo_reset_run self w) as (w1 & Hrun & Hh & Hn & Hpar & Ho).
  exists w1. split; [done|].
  assert (opt w1 p = Shampoo.State (Some 0) None ∅ ∅) as Hst.
  { rewrite Ho.
    destruct (decide (p ∈ (g ← Shampoo.param_groups self; Shampoo.params g)))
      as [_|Hnin].
    - unfold Shampoo.len in Hlen. destruct (opt w p) as [s b pc ipc].
      simpl in *. destruct s, b; try lia.
      assert (size pc = 0%nat) as ->%map_size_empty_inv by lia.
      by assert (size ipc = 0%nat) as ->%map_size_empty_inv by lia.
    - exfalso. apply Hnin. apply list_elem_of_bind. eauto. }
  split; [by rewrite Hst|].
  split.
  - intros Hmom. unfold Shampoo.step_param, Shampoo.apply_update,
      Shampoo.get_state. munfold. simpl.
    rewrite Hpar, Hg, Hh, Hdense. simpl. rewrite Hst. simpl.
    rewrite Hmom. simpl. rewrite Hst. simpl. by rewrite Hh, Hn, Hpar.
  - intros Hmom Hwd Hsize. unfold Shampoo.step_param, Shampoo.apply_update,
      Shampoo.get_state. munfold. simpl.
    rewrite Hpar, Hg, Hh, Hdense. simpl. rewrite Hst. simpl.
    rewrite Hmom, Hwd. simpl. rewrite Hh.
    destruct (tsize (heap w g)) as [|d ds]; [done|]. simpl.
    unfold Shampoo.precondition_dim, Shampoo.get_state. munfold. simpl.
    rewrite Hst. simpl. by destruct w1.
Qed.

Section ShampooRound.
Context {T : Type} `{ops : TensorOps T} (compute_power_svd : T → Q → T).
Implicit Types w : world T (pid → Shampoo.state T).


End ShampooRound.



Section ShampooTotal.
Context {T : Type} `{ops : TensorOps T} (compute_power_svd : T → Q → T).
Implicit Types w : world T (pid → Shampoo.state T).


Lemma bind_get_param {St A} (q : pid) (k : param → M T St A)
    (v : world T St) :
  (get_param q ≫= k) v = k (param_of v q) v.
Proof. reflexivity. Qed.

Lemma bind_get_state {A} (q : pid)
    (k : Shampoo.state T → M T (pid → Shampoo.state T) A) w :
  (Shampoo.get_state q ≫= k) w = k (opt w q) w.
Proof. reflexivity. Qed.

End ShampooTotal.


Section ShampooVector.
Context {T : Type} `{ops : TensorOps T} (compute_power_svd : T → Q → T).
Implicit Types w : world T (pid → Shampoo.state T).

(** Lines 107-124 for the dimension [dim_id], of size [dim]: the statistics
    grow by [g @ g_t], the inverse root is recomputed when the step counter,
    as it is before the increment of line 126, is a multiple of
    [preconditioning_compute_steps], and the preconditioned gradient is a new
    tensor. *)
Lemma precondition_dim_spec self p order original_size cur dim_id dim w n L R :
  Shampoo.s_step (opt w p) = Some n →
  Shampoo.s_pre_cond (opt w p) !! dim_id = Some L →
  Shampoo.s_inv_pre_cond (opt w p) !! dim_id = Some R →
  let v := transpose (heap w cur) 0 dim_id in
  let gm := view_rows v dim in
  let L' := add L (matmul gm (t_ gm)) in
  let R' :=
    if n mod Z.pos (Shampoo.preconditioning_compute_steps self) =? 0 then
      compute_power_svd L' (-1 / inject_Z (Z.of_nat order))
    else R in
  ∃ w',
    Shampoo.precondition_dim compute_power_svd self p order original_size cur
      dim_id dim w = (inr (next w), w')
    ∧ Shampoo.s_pre_cond (opt w' p) !! dim_id = Some L'
    ∧ Shampoo.s_inv_pre_cond (opt w' p) !! dim_id = Some R'
    ∧ heap w' (next w)
      = if decide (dim_id = (order - 1)%nat) then
          view (matmul (t_ gm) R') original_size
        else view (matmul R' gm) (tsize v).
Proof.
  intros Hn HL HR v gm L' R'. subst v gm L' R'.
  unfold Shampoo.precondition_dim, Shampoo.get_state, Shampoo.update_state.
  munfold. simpl. rewrite HL, HR. simpl. rewrite !fn_lookup_insert. simpl.
  rewrite Hn. simpl.
  destruct (_ =? 0); simpl; destruct (decide (dim_id = _)); simpl;
    (eexists; split; [done|]); simpl; rewrite !fn_lookup_insert; simpl;
    rewrite ?lookup_insert_eq; done.
Qed.

Lemma apply_update_vector self group p prm g w n L R d :
  g ≠ data prm →
  (g < next w)%nat →
  (data prm < next w)%nat →
  (∀ b, Shampoo.s_momentum_buffer (opt w p) = Some b → b ≠ g) →
  Shampoo.s_step (opt w p) = Some n →
  (Qpos_b (Shampoo.momentum group) = true →
   is_Some (Shampoo.s_momentum_buffer (opt w p))) →
  Shampoo.s_pre_cond (opt w p) !! 0%nat = Some L →
  Shampoo.s_inv_pre_cond (opt w p) !! 0%nat = Some R →
  let blended :=
    if Qpos_b (Shampoo.momentum group) then
      add_alpha (mul_scalar (heap w g) (1 - Shampoo.momentum group))
                (match Shampoo.s_momentum_buffer (opt w p) with
                 | Some b => heap w b
                 | None => heap w g
                 end)
                (Shampoo.momentum group)
    else heap w g in
  let decayed :=
    if Qpos_b (Shampoo.weight_decay group) then
      add_alpha blended (heap w (data prm)) (Shampoo.weight_decay group)
    else blended in
  tsize decayed = [d] →
  let gm := view_rows decayed d in
  let L' := add L (matmul gm (t_ gm)) in
  let R' :=
    if n mod Z.pos (Shampoo.preconditioning_compute_steps self) =? 0 then
      compute_power_svd L' (-1 / 1)%Q
    else R in
  let u := view (matmul (t_ gm) R') [d] in
  ∃ w',
    Shampoo.apply_update compute_power_svd self group p prm g w = (inr tt, w')
    ∧ Shampoo.s_pre_cond (opt w' p) !! 0%nat = Some L'
    ∧ Shampoo.s_inv_pre_cond (opt w' p) !! 0%nat = Some R'
    ∧ Shampoo.s_step (opt w' p) = Some (n + 1)
    ∧ Shampoo.s_momentum_buffer (opt w' p) = Some (next w)
    ∧ next w' = S (next w)
    ∧ heap w' (next w) = u
    ∧ heap w' g = decayed
    ∧ heap w' (data prm) = add_alpha (heap w (data prm)) u (- Shampoo.lr group).
Proof.
  intros Hdata Hg Hdp Hbuf Hn Hmb HL HR blended decayed Hsize gm L' R' u.
  unfold Shampoo.apply_update.
  match goal with |- ∃ w', (?A ≫= _) w = _ ∧ _ =>
    assert (∃ w1, A w = (inr tt, w1) ∧ opt w1 = opt w ∧ next w1 = next w
              ∧ heap w1 (data prm) = heap w (data prm)
              ∧ heap w1 g = blended) as (w1 & HA & Ho1 & Hn1 & Hd1 & Hg1)
  end.
  { subst blended. destruct (Qpos_b (Shampoo.momentum group)).
    - destruct Hmb as [b Hb]; [done|].
      assert (g ≠ b) by (intros ->; by eapply Hbuf).
      unfold Shampoo.get_state. munfold. simpl. rewrite Hb. simpl.
      eexists. split; [done|]. simpl. rewrite !fn_lookup_insert.
      by rewrite !fn_lookup_insert_ne.
    - exists w. by unfold ret. }
  rewrite (bind_inr _ _ _ _ _ HA).
  match goal with |- ∃ w', (?B ≫= _) w1 = _ ∧ _ =>
    assert (∃ w2, B w1 = (inr tt, w2) ∧ opt w2 = opt w ∧ next w2 = next w
              ∧ heap w2 (data prm) = heap w (data prm)
              ∧ heap w2 g = decayed) as (w2 & HB & Ho2 & Hn2 & Hd2 & Hg2)
  end.
  { subst decayed. destruct (Qpos_b (Shampoo.weight_decay group)).
    - munfold. simpl. eexists. split; [done|]. simpl.
      rewrite fn_lookup_insert, fn_lookup_insert_ne by done.
      by rewrite Hg1, Hd1.
    - exists w1. by unfold ret. }
  rewrite (bind_inr _ _ _ _ _ HB). rewrite bind_read, Hg2, Hsize.
  cbn [enumerate length seq zip zip_with Shampoo.precondition_dims].
  rewrite <-Ho2 in Hn, HL, HR.
  destruct (precondition_dim_spec self p 1 [d] g 0 d w2 n L R Hn HL HR)
    as (w3 & Hdim & HL3 & HR3 & Hval).
  rewrite Hg2, transpose_diag in HL3, HR3, Hval.
  rewrite bind_bind, (bind_inr _ _ _ _ _ Hdim), bind_ret.
  pose proof Hdim as Hg3.
  apply (precondition_dim_frame _ _ _ _ _ _ _ _ g) in Hg3 as (Hg3 & _);
    [|lia|done].
  apply precondition_dim_run in Hdim as (_ & Hn3 & _ & Hh3 & Hs3 & _).
  unfold Shampoo.get_state, Shampoo.update_state. munfold. simpl.
  rewrite Hs3, Hn. simpl. eexists. split; [done|]. simpl.
  rewrite !fn_lookup_insert. simpl.
  rewrite Hn2 in *. rewrite !fn_lookup_insert_ne by (done || lia).
  rewrite (Hh3 (data prm)), Hd2 by (done || lia).
  rewrite Hg3, Hg2, Hval. simpl.
  by repeat split.
Qed.

End ShampooVector.

(** [Shampoo.step] on a gradient with one dimension, of size [d], in full.
    With [grad] the gradient after momentum and weight decay, seen as a
    [d × 1] matrix [g], and [L] the statistics of before the round
    ([matrix_eps * eye(d)] on the first round): the statistics become
    [L' = L + g @ g.t()]; the inverse root is recomputed from these updated
    statistics, as [compute_power_svd(L', -1)], when the number of rounds
    done before is a multiple of [preconditioning_compute_steps], hence
    always on the first round, and is the one of before otherwise; the
    momentum buffer becomes a new tensor holding [g.t() @ inverse root], and
    the parameter moves by [- lr] times it. *)
Theorem shampoo_vector_round :
  ∀ (T : Type) (ops : TensorOps T) (compute_power_svd : T → Q → T)
    (self : Shampoo.optimizer) (group : Shampoo.group) (p : pid) (g : loc)
    (w : world T (pid → Shampoo.state T)) (n : Z) (L R : T) (d : nat),
    let blended :=
      if Qpos_b (Shampoo.momentum group) then
        add_alpha (mul_scalar (heap w g) (1 - Shampoo.momentum group))
                  (match Shampoo.s_momentum_buffer (opt w p) with
                   | Some b => heap w b
                   | None => heap w g
                   end)
                  (Shampoo.momentum group)
      else heap w g in
    let decayed :=
      if Qpos_b (Shampoo.weight_decay group) then
        add_alpha blended (heap w (data (param_of w p)))
                  (Shampoo.weight_decay group)
      else blended in
    let gm := view_rows decayed d in
    let L' := add L (matmul gm (t_ gm)) in
    let R' :=
      if n mod Z.pos (Shampoo.preconditioning_compute_steps self) =? 0 then
        compute_power_svd L' (-1 / 1)%Q
      else R in
    let u := view (matmul (t_ gm) R') [d] in
    grad (param_of w p) = Some g →
    is_sparse (heap w g) = false →
    g ≠ data (param_of w p) →
    (g < next w)%nat →
    (data (param_of w p) < next w)%nat →
    (∀ b, Shampoo.s_momentum_buffer (opt w p) = Some b → b ≠ g) →
    tsize decayed = [d] →
    (Shampoo.len (opt w p) = 0%nat
     ∧ tsize (heap w g) = [d] ∧ n = 0
     ∧ L = mul_scalar (new_eye (heap w g) d) (Shampoo.matrix_eps self)
     ∧ R = new_zeros (heap w g) d d
     ∨ Shampoo.s_step (opt w p) = Some n
       ∧ (Qpos_b (Shampoo.momentum group) = true →
          is_Some (Shampoo.s_momentum_buffer (opt w p)))
       ∧ Shampoo.s_pre_cond (opt w p) !! 0%nat = Some L
       ∧ Shampoo.s_inv_pre_cond (opt w p) !! 0%nat = Some R) →
    ∃ w' b,
      Shampoo.step_param compute_power_svd self group p w = (inr tt, w')
      ∧ Shampoo.s_pre_cond (opt w' p) !! 0%nat = Some L'
      ∧ Shampoo.s_inv_pre_cond (opt w' p) !! 0%nat = Some R'
      ∧ Shampoo.s_step (opt w' p) = Some (n + 1)
      ∧ Shampoo.s_momentum_buffer (opt w' p) = Some b
      ∧ (next w ≤ b)%nat
      ∧ heap w' b = u
      ∧ heap w' g = decayed
      ∧ heap w' (data (param_of w p))
        = add_alpha (heap w (data (param_of w p))) u (- Shampoo.lr group).
Proof.
  intros * Hg Hdense Hdata Hlt Hltp Hbuf Hsize Hstate.
  unfold Shampoo.step_param.
  rewrite bind_get_param, Hg, bind_read, Hdense, bind_get_state.
  destruct (decide (Shampoo.len (opt w p) = 0%nat)) as [Hlen|Hlen].
  - destruct Hstate as [(_ & Hsize0 & -> & -> & ->)|(Hn & _)]; cycle 1.
    { unfold Shampoo.len in Hlen. rewrite Hn in Hlen. lia. }
    assert (Shampoo.s_momentum_buffer (opt w p) = None) as Hb0.
    { unfold Shampoo.len in Hlen.
      destruct (Shampoo.s_momentum_buffer (opt w p)); done || lia. }
    destruct (init_state_run self group p g w)
      as (w1 & Hinit & Hs1 & Ho1 & Hk1).
    rewrite (bind_inr _ _ _ _ _ Hinit).
    apply (init_state_frame _ _ _ g) in Hinit as (Hp1 & Hn1 & Hh1 & Hb1 & Hc1).
    destruct (Hk1 0%nat d) as [HL1 HR1]; [by rewrite Hsize0|].
    assert (∀ b, Shampoo.s_momentum_buffer (opt w1 p) = Some b → b ≠ g)
      as Hbuf1.
    { intros b. rewrite Hb1.
      destruct (Qpos_b (Shampoo.momentum group)); [|by rewrite Hb0].
      intros [= <-]. lia. }
    assert (Qpos_b (Shampoo.momentum group) = true →
            is_Some (Shampoo.s_momentum_buffer (opt w1 p))) as Hmb1.
    { intros Hmom. rewrite Hb1, Hmom. eauto. }
    assert ((if Qpos_b (Shampoo.momentum group) then
               add_alpha (mul_scalar (heap w1 g) (1 - Shampoo.momentum group))
                 (match Shampoo.s_momentum_buffer (opt w1 p) with
                  | Some b => heap w1 b
                  | None => heap w1 g
                  end)
                 (Shampoo.momentum group)
             else heap w1 g) = blended) as Hblend.
    { subst blended. rewrite Hb1, Hb0, !Hh1 by done.
      destruct (Qpos_b (Shampoo.momentum group)); [|done]. by rewrite Hc1. }
    destruct (apply_update_vector compute_power_svd self group p
                (param_of w p) g w1 0 _ _ d Hdata ltac:(lia) ltac:(lia)
                Hbuf1 Hs1 Hmb1 HL1 HR1)
      as (w' & Hrun & HL' & HR' & Hs' & Hb' & Hn' & Hu & Hg' & Hupd).
    { cbv zeta. rewrite Hblend, Hh1 by done. exact Hsize. }
    cbv zeta in HL', HR', Hu, Hg', Hupd.
    rewrite Hblend, !(Hh1 (data (param_of w p))) in * by done.
    exists w', (next w1). repeat split; done.
  - rewrite bind_ret.
    destruct Hstate as [[Hlen' _]|(Hn & Hmb & HL & HR)]; [done|].
    destruct (apply_update_vector compute_power_svd self group p
                (param_of w p) g w n L R d Hdata Hlt Hltp Hbuf Hn Hmb HL HR
                Hsize)
      as (w' & Hrun & HL' & HR' & Hs' & Hb' & Hn' & Hu & Hg' & Hupd).
    exists w', (next w). repeat split; done.
Qed.

Lemma shampoo_reset_before_first_step_witness :
  ∃ w1,
    Shampoo.reset Examples.shampoo_dense Examples.shampoo_world = (inr tt, w1)
    ∧ fst (Shampoo.step_param Vec.compute_power_svd Examples.shampoo_dense
             Examples.shampoo_group 0%nat w1)
      = inl (KeyError "momentum_buffer").
Proof.
  destruct (shampoo_reset_before_first_step _ _ Vec.compute_power_svd
              Examples.shampoo_dense Examples.shampoo_group 0%nat 1%nat
              Examples.shampoo_world) as (w1 & Hreset & _ & Hstep & _).
  - apply list_elem_of_singleton. reflexivity.
  - apply list_elem_of_singleton. reflexivity.
  - reflexivity.
  - reflexivity.
  - reflexivity.
  - exists w1. split; [exact Hreset|]. rewrite Hstep; reflexivity.
Defined.




Lemma shampoo_vector_round_witness :
  ∃ w' b,
    Shampoo.step_param Vec.compute_power_svd Examples.shampoo_dense
      Examples.shampoo_group 0%nat Examples.shampoo_world = (inr tt, w')
    ∧ Shampoo.s_pre_cond (opt w' 0%nat) !! 0%nat
      = Some (Vec.scalar (1000001 # 1000000))
    ∧ Shampoo.s_inv_pre_cond (opt w' 0%nat) !! 0%nat
      = Some (Vec.scalar (1000000 # 1000001))
    ∧ Shampoo.s_step (opt w' 0%nat) = Some (0 + 1)
    ∧ Shampoo.s_momentum_buffer (opt w' 0%nat) = Some b
    ∧ (4 ≤ b)%nat
    ∧ heap w' b = Vec.scalar (1000000 # 1000001)
    ∧ heap w' 1%nat = Vec.scalar 1
    ∧ heap w' 0%nat = Vec.scalar (1900002 # 1000001).
Proof.
  refine (shampoo_vector_round _ _ Vec.compute_power_svd
            Examples.shampoo_dense Examples.shampoo_group 0%nat 1%nat
            Examples.shampoo_world 0
            (mul_scalar (new_eye (Vec.scalar 1) 1) (1 # 1000000))
            (new_zeros (Vec.scalar 1) 1 1) 1%nat _ _ _ _ _ _ _ _).
  - reflexivity.
  - reflexivity.
  - vm_compute. discriminate.
  - vm_compute. lia.
  - vm_compute. lia.
  - intros b. vm_compute. discriminate.
  - reflexivity.
  - left. repeat split; reflexivity.
Defined.

(** ** ScalableShampoo: state, frame and reset *)

Section ScalableMore.
Context {T PC : Type} `{ops : TensorOps T}
  `{pc_ops : ScalableShampoo.PreConditionerOps T PC}.
Implicit Types w : world T (pid → option (ScalableShampoo.state T PC)).

Import ScalableShampoo.

Lemma bind_ret_get {A B} (f : world T (pid → option (state T PC)) → A)
    (k : A → M T (pid → option (state T PC)) B) w :
  ((λ v, (inr (f v), v)) ≫= k) w = k (f w) w.
Proof. reflexivity. Qed.

(** Lines 244-266, 290-312: the state of a parameter met for the first
    time, or by [reset]: two new tensors of zeros with the shape of the
    parameter, for [state['momentum']] and for the momentum of the graft. *)
Lemma new_state_run self beta2 p w :
  let pv := heap w (data (param_of w p)) in
  let st :=
    State 0 (next w)
      (PreConditioner pv beta2 (inverse_exponent_override self)
         (block_size self) (no_preconditioning_for_layers_with_dim_gt self)
         (shape_interpretation self) (matrix_eps self)
         (pre_conditioner_type self) (use_svd self))
      (Graft (graft_type self) (diagonal_eps self) (zeros_like pv)
             (S (next w))) in
  ∃ w0,
    new_state self beta2 p w = (inr st, w0)
    ∧ param_of w0 = param_of w
    ∧ next w0 = S (S (next w))
    ∧ opt w0 = <[p := Some st]> (opt w)
    ∧ (∀ x, (x < next w)%nat → heap w0 x = heap w x)
    ∧ ((data (param_of w p) < next w)%nat →
       heap w0 (next w) = zeros_like pv
       ∧ heap w0 (S (next w)) = zeros_like pv).
Proof.
  intros pv st. unfold new_state, new_graft, set_state. munfold. simpl.
  eexists. split; [reflexivity|]. simpl. do 3 (split; [done|]). split.
  - intros x Hx. by rewrite !fn_lookup_insert_ne by lia.
  - intros Hd. rewrite fn_lookup_insert.
    by rewrite fn_lookup_insert_ne, fn_lookup_insert by lia.
Qed.

(** [state = self.state[p]] (lines 288-312) never fails: it is the state
    that is there, or the new one. *)
Lemma state_of_run self group p w :
  ∃ st w0,
    state_of self group p w = (inr st, w0)
    ∧ param_of w0 = param_of w
    ∧ (next w ≤ next w0)%nat
    ∧ opt w0 p = Some st
    ∧ (∀ q, q ≠ p → opt w0 q = opt w q)
    ∧ (∀ x, (x < next w)%nat → heap w0 x = heap w x)
    ∧ match opt w p with
      | Some st' => st = st' ∧ w0 = w
      | None =>
          s_step st = 0
          ∧ s_momentum st = next w
          ∧ graft_momentum (s_graft st) = S (next w)
          ∧ next w0 = S (S (next w))
          ∧ s_graft st
            = Graft (graft_type self) (diagonal_eps self)
                    (zeros_like (heap w (data (param_of w p)))) (S (next w))
          ∧ s_pre_conditioner st
            = PreConditioner (heap w (data (param_of w p))) (betas group).2
                (inverse_exponent_override self) (block_size self)
                (no_preconditioning_for_layers_with_dim_gt self)
                (shape_interpretation self) (matrix_eps self)
                (pre_conditioner_type self) (use_svd self)
          ∧ ((data (param_of w p) < next w)%nat →
             heap w0 (next w) = zeros_like (heap w (data (param_of w p)))
             ∧ heap w0 (S (next w))
               = zeros_like (heap w (data (param_of w p))))
      end.
Proof.
  unfold state_of, get_state. rewrite bind_ret_get.
  destruct (opt w p) as [st|] eqn:Hst.
  - exists st, w. unfold ret. repeat split; try done.
  - destruct (new_state_run self (betas group).2 p w)
      as (w0 & Hrun & Hp & Hn & Ho & Hh & Hz).
    eexists _, w0. split; [exact Hrun|]. split; [done|]. split; [lia|].
    rewrite Ho. split; [by rewrite fn_lookup_insert|]. split.
    { intros q Hq. by rewrite fn_lookup_insert_ne. }
    split; [done|]. simpl. by do 6 (split; [done|]).
Qed.

(** Lines 345-361 write the two momentum buffers, the storage of the
    parameter and, under Nesterov, [shampoo_grad] or [graft_grad]: no other
    tensor. *)
Lemma update_frame self group prm g st l w w' x :
  update self group prm g st l w = (inr tt, w') →
  x ≠ s_momentum st → x ≠ graft_momentum (s_graft st) → x ≠ data prm →
  x ≠ shampoo_grad l → x ≠ graft_grad l →
  heap w' x = heap w x.
Proof.
  intros Hrun Hms Hmg Hdp Hsg Hgg. revert Hrun.
  unfold update, update_momentum. destruct (betas group) as [beta1 beta2].
  destruct (is_pre l); destruct (nesterov self); cbv beta iota zeta;
    repeat mstep; unfold write, modify; cbn [heap next param_of opt];
    intros [= <-]; cbn [heap]; by heap_simpl.
Qed.

(** Lines 314-361 write, of the tensors that exist before the round, the
    gradient, the parameter and the two momentum buffers only. *)
Lemma body_frame self group p prm g st w l w1 w' x :
  gradients self group p g st w = (inr l, w1) →
  (graft_rescale self l;;
   apply_weight_decay self group prm l;;
   update self group prm g st l) w1 = (inr tt, w') →
  (g < next w)%nat → (data prm < next w)%nat → g ≠ data prm →
  (x < next w)%nat →
  x ≠ g → x ≠ data prm → x ≠ s_momentum st →
  x ≠ graft_momentum (s_graft st) →
  heap w' x = heap w x.
Proof.
  intros Hrun1 Hrun2 Hg Hd Hgd Hx Hxg Hxd Hxm Hxgm.
  destruct (gradients_run self group p g st w Hg)
    as (w1' & Hrun1' & _ & _ & _ & _ & _ & Hh1).
  rewrite Hrun1 in Hrun1'. injection Hrun1' as -> <-.
  set (l := Locals _ _ _) in *.
  assert (x ≠ shampoo_grad l ∧ x ≠ graft_grad l
          ∧ graft_grad l ≠ shampoo_grad l ∧ data prm ≠ shampoo_grad l)
    as (Hxs & Hxgg & Hl & Hds).
  { subst l. simpl. destruct (is_precondition_step _ _);
      repeat split; lia || congruence. }
  apply bind_inv in Hrun2 as ([] & w2 & Hrun2 & Hrun3).
  apply bind_inv in Hrun3 as ([] & w3 & Hrun3 & Hrun4).
  destruct (graft_rescale_run self l w1) as (w2' & Hr2 & _ & _ & _ & _ & Hh2).
  rewrite Hrun2 in Hr2. injection Hr2 as <-.
  destruct (apply_weight_decay_run self group prm l w2 Hl Hds)
    as (w3' & Hr3 & _ & _ & _ & _ & _ & Hh3).
  rewrite Hrun3 in Hr3. injection Hr3 as <-.
  rewrite (update_frame _ _ _ _ _ _ _ _ _ Hrun4) by done.
  rewrite Hh3, Hh2 by done. by apply Hh1.
Qed.

(** The state a round starts from, on a parameter and a gradient that are
    distinct tensors, distinct from the momentum buffers of a state that is
    already there: the buffers of a new state are new tensors, so the four
    objects are distinct in either case. *)
Lemma state_of_distinct self group p g w st w0 :
  state_of self group p w = (inr st, w0) →
  (g < next w)%nat →
  (data (param_of w p) < next w)%nat →
  g ≠ data (param_of w p) →
  (∀ st', opt w p = Some st' →
     (s_momentum st' < next w)%nat
     ∧ (graft_momentum (s_graft st') < next w)%nat
     ∧ g ≠ s_momentum st' ∧ g ≠ graft_momentum (s_graft st')
     ∧ data (param_of w p) ≠ s_momentum st'
     ∧ data (param_of w p) ≠ graft_momentum (s_graft st')
     ∧ s_momentum st' ≠ graft_momentum (s_graft st')) →
  let dp := data (param_of w p) in
  let ms := s_momentum st in
  let mg := graft_momentum (s_graft st) in
  ((g < next w0)%nat ∧ (dp < next w0)%nat ∧ (ms < next w0)%nat
   ∧ (mg < next w0)%nat ∧ g ≠ ms ∧ g ≠ mg ∧ dp ≠ ms ∧ dp ≠ mg ∧ ms ≠ mg)
  ∧ param_of w0 = param_of w
  ∧ (∀ q, q ≠ p → opt w0 q = opt w q)
  ∧ (∀ x, (x < next w)%nat → heap w0 x = heap w x)
  ∧ (∀ x, (x < next w)%nat → (x < next w0)%nat)
  ∧ (opt w p = None → (next w ≤ ms)%nat ∧ (next w ≤ mg)%nat).
Proof.
  intros Hst Hg Hd Hgd Hwf dp ms mg.
  destruct (state_of_run self group p w)
    as (st1 & w1 & Hst1 & Hp & Hn & Ho & Hoq & Hh & Hcase).
  rewrite Hst in Hst1. injection Hst1 as <- <-.
  destruct (opt w p) as [st'|] eqn:Hopt.
  - destruct Hcase as [-> ->].
    destruct (Hwf st' eq_refl) as (? & ? & ? & ? & ? & ? & ?).
    repeat split; done || lia.
  - destruct Hcase as (_ & Hms & Hmg & Hn0 & _).
    subst ms mg dp. rewrite Hms, Hmg, Hn0.
    repeat split; try done; lia.
Qed.

End ScalableMore.

(** What a round of [ScalableShampoo.step] leaves in the state of the
    parameter [p], [st] being the state it starts from and [n] its step
    count plus one.  The step count is [n]; [state['momentum']] and the
    momentum of the graft are the same tensor objects as before; the graft
    has seen the gradient; the preconditioner has seen it when [n] is a
    multiple of [statistics_compute_steps], and has recomputed its
    preconditioners when [n] is a multiple of
    [preconditioning_compute_steps], whether preconditioning has started or
    not.  The state of every other parameter is untouched. *)
Theorem scalable_round_state :
  ∀ (T PC : Type) (ops : TensorOps T)
    (pc_ops : ScalableShampoo.PreConditionerOps T PC)
    (self : ScalableShampoo.optimizer) (group : ScalableShampoo.group)
    (p : pid) (g : loc) (st : ScalableShampoo.state T PC)
    (w w0 : world T (pid → option (ScalableShampoo.state T PC))),
    let dp := data (param_of w p) in
    grad (param_of w p) = Some g →
    is_sparse (heap w g) = false →
    ScalableShampoo.state_of self group p w = (inr st, w0) →
    (g < next w)%nat → (dp < next w)%nat → g ≠ dp →
    (∀ st', opt w p = Some st' →
       (ScalableShampoo.s_momentum st' < next w)%nat
       ∧ (ScalableShampoo.graft_momentum (ScalableShampoo.s_graft st')
          < next w)%nat
       ∧ g ≠ ScalableShampoo.s_momentum st'
       ∧ g ≠ ScalableShampoo.graft_momentum (ScalableShampoo.s_graft st')
       ∧ dp ≠ ScalableShampoo.s_momentum st'
       ∧ dp ≠ ScalableShampoo.graft_momentum (ScalableShampoo.s_graft st')
       ∧ ScalableShampoo.s_momentum st'
         ≠ ScalableShampoo.graft_momentum (ScalableShampoo.s_graft st')) →
    let n := ScalableShampoo.s_step st + 1 in
    let v := heap w g in
    let pc1 :=
      if n mod Z.pos (ScalableShampoo.statistics_compute_steps self) =? 0
      then ScalableShampoo.pc_add_statistics
             (ScalableShampoo.s_pre_conditioner st) v
      else ScalableShampoo.s_pre_conditioner st in
    let pc2 :=
      if n mod Z.pos (ScalableShampoo.preconditioning_compute_steps self) =? 0
      then ScalableShampoo.pc_compute_pre_conditioners pc1 else pc1 in
    ∃ w',
      ScalableShampoo.step_param self group p w = (inr tt, w')
      ∧ opt w' p
        = Some (ScalableShampoo.State n (ScalableShampoo.s_momentum st) pc2
                  (ScalableShampoo.add_statistics (ScalableShampoo.s_graft st)
                     v (ScalableShampoo.betas group).2))
      ∧ (∀ q, q ≠ p → opt w' q = opt w q).
Proof.
  intros * Hg Hs Hst Hlg Hld Hgd Hwf n v pc1 pc2.
  destruct (state_of_distinct self group p g w st w0 Hst Hlg Hld Hgd Hwf)
    as ((? & ? & ? & ? & ? & ? & ? & ? & ?) & Hp0 & Ho0 & Hh0 & _).
  destruct (step_body_run self group p (param_of w p) g st w0)
    as (w1 & w' & Hrun1 & Hrun2 & Hp' & Ho' & _); try done.
  exists w'. split.
  { rewrite (step_param_unfold self group p g st w w0) by done.
    erewrite bind_inr by exact Hrun1. exact Hrun2. }
  rewrite Ho'. split.
  - rewrite fn_lookup_insert. subst n v pc2 pc1. by rewrite (Hh0 g).
  - intros q Hq. rewrite fn_lookup_insert_ne by done. by apply Ho0.
Qed.

(** A round of [ScalableShampoo.step] for the parameter [p] writes, of the
    tensors that exist before it, [p.grad], the storage of [p] and the two
    momentum buffers of its state only, and rebinds no parameter: the
    values, gradients and momentum buffers of the other parameters are
    untouched. *)
Theorem scalable_round_frame :
  ∀ (T PC : Type) (ops : TensorOps T)
    (pc_ops : ScalableShampoo.PreConditionerOps T PC)
    (self : ScalableShampoo.optimizer) (group : ScalableShampoo.group)
    (p : pid) (g : loc) (st : ScalableShampoo.state T PC)
    (w w0 : world T (pid → option (ScalableShampoo.state T PC))),
    let dp := data (param_of w p) in
    grad (param_of w p) = Some g →
    is_sparse (heap w g) = false →
    ScalableShampoo.state_of self group p w = (inr st, w0) →
    (g < next w)%nat → (dp < next w)%nat → g ≠ dp →
    (∀ st', opt w p = Some st' →
       (ScalableShampoo.s_momentum st' < next w)%nat
       ∧ (ScalableShampoo.graft_momentum (ScalableShampoo.s_graft st')
          < next w)%nat
       ∧ g ≠ ScalableShampoo.s_momentum st'
       ∧ g ≠ ScalableShampoo.graft_momentum (ScalableShampoo.s_graft st')
       ∧ dp ≠ ScalableShampoo.s_momentum st'
       ∧ dp ≠ ScalableShampoo.graft_momentum (ScalableShampoo.s_graft st')
       ∧ ScalableShampoo.s_momentum st'
         ≠ ScalableShampoo.graft_momentum (ScalableShampoo.s_graft st')) →
    ∃ w',
      ScalableShampoo.step_param self group p w = (inr tt, w')
      ∧ param_of w' = param_of w
      ∧ ∀ x, (x < next w)%nat → x ≠ g → x ≠ dp →
          x ≠ ScalableShampoo.s_momentum st →
          x ≠ ScalableShampoo.graft_momentum (ScalableShampoo.s_graft st) →
          heap w' x = heap w x.
Proof.
  intros * Hg Hs Hst Hlg Hld Hgd Hwf.
  destruct (state_of_distinct self group p g w st w0 Hst Hlg Hld Hgd Hwf)
    as ((? & ? & ? & ? & ? & ? & ? & ? & ?) & Hp0 & Ho0 & Hh0 & Hlt0 & _).
  destruct (step_body_run self group p (param_of w p) g st w0)
    as (w1 & w' & Hrun1 & Hrun2 & Hp' & Ho' & _); try done.
  exists w'. split.
  { rewrite (step_param_unfold self group p g st w w0) by done.
    erewrite bind_inr by exact Hrun1. exact Hrun2. }
  split; [congruence|].
  intros x Hx Hxg Hxd Hxm Hxgm.
  rewrite (body_frame self group p (param_of w p) g st w0 _ w1 w' x Hrun1 Hrun2)
    by (done || by apply Hlt0).
  by apply Hh0.
Qed.

Section ScalableReset.
Context {T PC : Type} `{ops : TensorOps T}
  `{pc_ops : ScalableShampoo.PreConditionerOps T PC}.
Implicit Types w : world T (pid → option (ScalableShampoo.state T PC)).

Import ScalableShampoo.

Lemma for_cons {A} (x : A) (xs : list A)
    (body : A → M T (pid → option (state T PC)) unit) w :
  for_ (x :: xs) body w = (body x ≫= λ _, for_ xs body) w.
Proof. reflexivity. Qed.

(** The loop of [reset] over pairs of a group and a parameter. *)
Lemma reset_loop self (ps : list (group * pid)) :
  ∀ w,
    (∀ gp, gp ∈ ps → (data (param_of w gp.2) < next w)%nat) →
    ∃ w',
      for_ ps (λ gp, new_state self (betas gp.1).2 gp.2;; ret tt) w
      = (inr tt, w')
      ∧ param_of w' = param_of w
      ∧ (next w ≤ next w')%nat
      ∧ (∀ x, (x < next w)%nat → heap w' x = heap w x)
      ∧ (∀ q, q ∉ ps.*2 → opt w' q = opt w q)
      ∧ ∀ q, q ∈ ps.*2 →
          let pv := heap w (data (param_of w q)) in
          ∃ st grp,
            (grp, q) ∈ ps
            ∧ opt w' q = Some st
            ∧ s_step st = 0
            ∧ (next w ≤ s_momentum st < next w')%nat
            ∧ (next w ≤ graft_momentum (s_graft st) < next w')%nat
            ∧ s_momentum st ≠ graft_momentum (s_graft st)
            ∧ heap w' (s_momentum st) = zeros_like pv
            ∧ heap w' (graft_momentum (s_graft st)) = zeros_like pv
            ∧ graft_kind (s_graft st) = graft_type self
            ∧ diagonal_eps_of (s_graft st) = diagonal_eps self
            ∧ statistics (s_graft st) = zeros_like pv
            ∧ s_pre_conditioner st
              = PreConditioner pv (betas grp).2
                  (inverse_exponent_override self) (block_size self)
                  (no_preconditioning_for_layers_with_dim_gt self)
                  (shape_interpretation self) (matrix_eps self)
                  (pre_conditioner_type self) (use_svd self).
Proof.
  induction ps as [|[grp p] ps IH]; intros w Hwf.
  { exists w. simpl. unfold ret. do 3 (split; [done|]). split; [done|].
    split; [done|]. intros q Hq. by apply elem_of_nil in Hq. }
  destruct (new_state_run self (betas grp).2 p w)
    as (w1 & Hrun1 & Hp1 & Hn1 & Ho1 & Hh1 & Hz1).
  destruct Hz1 as [Hz1 Hz1']. { apply (Hwf (grp, p)). by left. }
  destruct (IH w1) as (w' & Hrun & Hp & Hn & Hh & Hout & Hin).
  { intros gp Hgp. rewrite Hp1, Hn1.
    assert (data (param_of w gp.2) < next w)%nat by (apply Hwf; by right).
    lia. }
  exists w'. split.
  { rewrite for_cons. cbn [fst snd].
    rewrite bind_bind, (bind_inr _ _ _ _ _ Hrun1), bind_ret.
    exact Hrun. }
  split; [congruence|]. split; [lia|]. split.
  { intros x Hx. rewrite Hh by lia. by apply Hh1. }
  split.
  { intros q Hq. simpl in Hq. apply not_elem_of_cons in Hq as [Hne Hq].
    rewrite Hout by done. rewrite Ho1. by rewrite fn_lookup_insert_ne. }
  intros q Hq pv. destruct (decide (q ∈ ps.*2)) as [Hq'|Hq'].
  - destruct (Hin q Hq') as (st & grp' & Hgrp' & Hst & Hs & Hms & Hmg & Hne
                             & Hhm & Hhg & Hk & He & Hstat & Hpc).
    assert (heap w1 (data (param_of w1 q)) = pv) as Hpv.
    { subst pv. rewrite Hp1. apply Hh1.
      apply list_elem_of_fmap in Hq' as ([grp'' q''] & -> & Hq'').
      apply (Hwf (grp'', q'')). by right. }
    rewrite Hpv in Hhm, Hhg, Hstat, Hpc.
    exists st, grp'. split; [by right|]. split; [done|]. split; [done|].
    split; [lia|]. split; [lia|]. done.
  - simpl in Hq. apply elem_of_cons in Hq as [->|Hq]; [|done].
    eexists _, grp. split; [by left|]. split.
    { rewrite Hout by done. rewrite Ho1. apply fn_lookup_insert. }
    simpl. split; [done|]. split; [lia|]. split; [lia|]. split; [lia|].
    rewrite !Hh by lia. by rewrite Hz1, Hz1'.
Qed.

End ScalableReset.

(** [ScalableShampoo.reset] builds the state of every parameter of the
    groups anew, whatever it was: step 0, [state['momentum']] and the
    momentum of the graft two new tensors of zeros with the shape of the
    parameter, a graft of the configured kind with a zero accumulator, and a
    new [PreConditioner] made from the parameter with [beta2] of a group
    that holds it.  It writes no tensor that exists before the call, rebinds
    no parameter, and leaves the state of the parameters outside the groups
    alone. *)
Theorem scalable_reset_reinitialises :
  ∀ (T PC : Type) (ops : TensorOps T)
    (pc_ops : ScalableShampoo.PreConditionerOps T PC)
    (self : ScalableShampoo.optimizer)
    (w : world T (pid → option (ScalableShampoo.state T PC))),
    (∀ group p, group ∈ ScalableShampoo.param_groups self →
       p ∈ ScalableShampoo.params group →
       (data (param_of w p) < next w)%nat) →
    ∃ w',
      ScalableShampoo.reset self w = (inr tt, w')
      ∧ param_of w' = param_of w
      ∧ (∀ x, (x < next w)%nat → heap w' x = heap w x)
      ∧ (∀ q, (∀ group, group ∈ ScalableShampoo.param_groups self →
                 q ∉ ScalableShampoo.params group) →
              opt w' q = opt w q)
      ∧ ∀ group p, group ∈ ScalableShampoo.param_groups self →
          p ∈ ScalableShampoo.params group →
          let pv := heap w (data (param_of w p)) in
          ∃ st group',
            group' ∈ ScalableShampoo.param_groups self
            ∧ p ∈ ScalableShampoo.params group'
            ∧ opt w' p = Some st
            ∧ ScalableShampoo.s_step st = 0
            ∧ (next w ≤ ScalableShampoo.s_momentum st)%nat
            ∧ (next w
               ≤ ScalableShampoo.graft_momentum (ScalableShampoo.s_graft st))%nat
            ∧ ScalableShampoo.s_momentum st
              ≠ ScalableShampoo.graft_momentum (ScalableShampoo.s_graft st)
            ∧ heap w' (ScalableShampoo.s_momentum st) = zeros_like pv
            ∧ heap w'
                (ScalableShampoo.graft_momentum (ScalableShampoo.s_graft st))
              = zeros_like pv
            ∧ ScalableShampoo.graft_kind (ScalableShampoo.s_graft st)
              = ScalableShampoo.graft_type self
            ∧ ScalableShampoo.statistics (ScalableShampoo.s_graft st)
              = zeros_like pv
            ∧ ScalableShampoo.s_pre_conditioner st
              = ScalableShampoo.PreConditioner pv
                  (ScalableShampoo.betas group').2
                  (ScalableShampoo.inverse_exponent_override self)
                  (ScalableShampoo.block_size self)
                  (ScalableShampoo.no_preconditioning_for_layers_with_dim_gt
                     self)
                  (ScalableShampoo.shape_interpretation self)
                  (ScalableShampoo.matrix_eps self)
                  (ScalableShampoo.pre_conditioner_type self)
                  (ScalableShampoo.use_svd self).
Proof.
  intros * Hwf. unfold ScalableShampoo.reset.
  rewrite (for_nested ScalableShampoo.params
             (λ group p,
                ScalableShampoo.new_state self (ScalableShampoo.betas group).2
                  p;; ret tt)).
  set (ps := g ← ScalableShampoo.param_groups self;
             (λ p, (g, p)) <$> ScalableShampoo.params g).
  assert (∀ grp q, (grp, q) ∈ ps
                   ↔ grp ∈ ScalableShampoo.param_groups self
                     ∧ q ∈ ScalableShampoo.params grp) as Hps.
  { intros grp q. subst ps. rewrite list_elem_of_bind. split.
    - intros (grp' & Hq & Hgrp').
      apply list_elem_of_fmap in Hq as (q' & [= -> ->] & Hq'). done.
    - intros [Hgrp Hq]. exists grp. split; [|done].
      apply list_elem_of_fmap. eauto. }
  destruct (reset_loop self ps w) as (w' & Hrun & Hp & Hn & Hh & Hout & Hin).
  { intros [grp q] Hgp. apply Hps in Hgp as [Hgrp Hq]. by apply (Hwf grp). }
  exists w'. split; [exact Hrun|]. do 2 (split; [done|]). split.
  { intros q Hq. apply Hout. intros Hin'.
    apply list_elem_of_fmap in Hin' as ([grp q'] & -> & Hgp).
    apply Hps in Hgp as [Hgrp Hq']. by apply (Hq grp). }
  intros group p Hgroup Hpin.
  destruct (Hin p) as (st & grp & Hgrp & Hst & Hs & Hms & Hmg & Hne & Hhm
                       & Hhg & Hk & He & Hstat & Hpc).
  { apply list_elem_of_fmap. exists (group, p). split; [done|].
    apply Hps. done. }
  apply Hps in Hgrp as [Hgrp Hq].
  exists st, grp. do 4 (split; [done|]). split; [lia|]. split; [lia|]. done.
Qed.

(** ** Parameters without a gradient *)

Lemma for_skip {T St A} (xs : list A) (body : A → M T St unit)
    (w : world T St) :
  (∀ x, x ∈ xs → body x w = (inr tt, w)) → for_ xs body w = (inr tt, w).
Proof.
  induction xs as [|x xs IH]; intros Hbody; [done|].
  simpl. unfold bind. rewrite Hbody by left. apply IH.
  intros y Hy. apply Hbody. by right.
Qed.

(** A step of [Shampoo] or of [ScalableShampoo] skips the parameters that
    have no gradient once the closure has run.  When none of the parameters
    of the groups has one: called with a closure, the step runs it, returns
    its loss and leaves the world as the closure left it; called without a
    closure, it returns [None] and changes nothing.  No state is created for
    a skipped parameter, so that its first round with a gradient still finds
    an empty state. *)
Theorem step_without_gradients :
  ∀ (T PC : Type) (ops : TensorOps T)
    (pc_ops : ScalableShampoo.PreConditionerOps T PC)
    (compute_power_svd : T → Q → T),
    (∀ (self : Shampoo.optimizer),
       (∀ (closure : M T (pid → Shampoo.state T) Q) (loss : Q)
          (w w1 : world T (pid → Shampoo.state T)),
          closure w = (inr loss, w1) →
          (∀ group p, group ∈ Shampoo.param_groups self →
             p ∈ Shampoo.params group → grad (param_of w1 p) = None) →
          Shampoo.step compute_power_svd self (Some closure) w
          = (inr (Some loss), w1))
       ∧ (∀ (w : world T (pid → Shampoo.state T)),
            (∀ group p, group ∈ Shampoo.param_groups self →
               p ∈ Shampoo.params group → grad (param_of w p) = None) →
            Shampoo.step compute_power_svd self None w = (inr None, w)))
    ∧ (∀ (self : ScalableShampoo.optimizer),
         (∀ (closure : M T (pid → option (ScalableShampoo.state T PC)) Q)
            (loss : Q)
            (w w1 : world T (pid → option (ScalableShampoo.state T PC))),
            closure w = (inr loss, w1) →
            (∀ group p, group ∈ ScalableShampoo.param_groups self →
               p ∈ ScalableShampoo.params group →
               grad (param_of w1 p) = None) →
            ScalableShampoo.step self (Some closure) w
            = (inr (Some loss), w1))
         ∧ (∀ (w : world T (pid → option (ScalableShampoo.state T PC))),
              (∀ group p, group ∈ ScalableShampoo.param_groups self →
                 p ∈ ScalableShampoo.params group →
                 grad (param_of w p) = None) →
              ScalableShampoo.step self None w = (inr None, w))).
Proof.
  intros. split.
  - intros self.
    assert (∀ w : world T (pid → Shampoo.state T),
              (∀ group p, group ∈ Shampoo.param_groups self →
                 p ∈ Shampoo.params group → grad (param_of w p) = None) →
              for_ (Shampoo.param_groups self) (λ group,
                for_ (Shampoo.params group)
                     (Shampoo.step_param compute_power_svd self group)) w
              = (inr tt, w)) as Hloop.
    { intros w Hnone. apply for_skip. intros group Hgroup.
      apply for_skip. intros p Hp. unfold Shampoo.step_param.
      erewrite bind_inr by reflexivity. by rewrite (Hnone group p). }
    split.
    + intros closure loss w w1 Hclosure Hnone.
      unfold Shampoo.step, call_closure.
      rewrite bind_bind. erewrite bind_inr by exact Hclosure.
      erewrite bind_inr by reflexivity.
      by erewrite bind_inr by (by apply Hloop).
    + intros w Hnone. unfold Shampoo.step, call_closure.
      erewrite bind_inr by reflexivity.
      by erewrite bind_inr by (by apply Hloop).
  - intros self.
    assert (∀ w : world T (pid → option (ScalableShampoo.state T PC)),
              (∀ group p, group ∈ ScalableShampoo.param_groups self →
                 p ∈ ScalableShampoo.params group →
                 grad (param_of w p) = None) →
              for_ (ScalableShampoo.param_groups self) (λ group,
                for_ (ScalableShampoo.params group)
                     (ScalableShampoo.step_param self group)) w
              = (inr tt, w)) as Hloop.
    { intros w Hnone. apply for_skip. intros group Hgroup.
      apply for_skip. intros p Hp. unfold ScalableShampoo.step_param.
      erewrite bind_inr by reflexivity. by rewrite (Hnone group p). }
    split.
    + intros closure loss w w1 Hclosure Hnone.
      unfold ScalableShampoo.step, call_closure.
      rewrite bind_bind. erewrite bind_inr by exact Hclosure.
      erewrite bind_inr by reflexivity.
      by erewrite bind_inr by (by apply Hloop).
    + intros w Hnone. unfold ScalableShampoo.step, call_closure.
      erewrite bind_inr by reflexivity.
      by erewrite bind_inr by (by apply Hloop).
Qed.

Lemma scalable_round_state_witness :
  ∃ w',
    ScalableShampoo.step_param Examples.scalable_dense Examples.scalable_group
      0 Examples.scalable_world = (inr tt, w')
    ∧ opt w' 0%nat
      = Some (ScalableShampoo.State 1 4
                (ScalableShampoo.pc_compute_pre_conditioners
                   (ScalableShampoo.pc_add_statistics
                      (Vec.Diagonal [1 # 10 ^ 6] [1%Q]) (Vec.scalar 1)))
                (ScalableShampoo.Graft ScalableShampoo.SGD (1 # 10 ^ 10)
                   (Vec.scalar 0) 5))
    ∧ (∀ q, q ≠ 0%nat → opt w' q = None).
Proof.
  refine (scalable_round_state _ _ _ _ Examples.scalable_dense
            Examples.scalable_group 0%nat 1%nat Examples.scalable_state
            Examples.scalable_world Examples.scalable_started _ _ _ _ _ _ _).
  - reflexivity.
  - reflexivity.
  - apply pair_fst_snd. vm_compute. reflexivity.
  - vm_compute. lia.
  - vm_compute. lia.
  - vm_compute. discriminate.
  - intros st'. vm_compute. discriminate.
Defined.

Lemma scalable_round_frame_witness :
  ∃ w',
    ScalableShampoo.step_param Examples.scalable Examples.scalable_group
      0 Examples.scalable_world = (inr tt, w')
    ∧ param_of w' = param_of Examples.scalable_world
    ∧ ∀ x, (x < 4)%nat → x ≠ 1%nat → x ≠ 0%nat → x ≠ 4%nat → x ≠ 5%nat →
        heap w' x = heap Examples.scalable_world x.
Proof.
  refine (scalable_round_frame _ _ _ _ Examples.scalable
            Examples.scalable_group 0%nat 1%nat Examples.scalable_state
            Examples.scalable_world Examples.scalable_started _ _ _ _ _ _ _).
  - reflexivity.
  - reflexivity.
  - apply pair_fst_snd. vm_compute. reflexivity.
  - vm_compute. lia.
  - vm_compute. lia.
  - vm_compute. discriminate.
  - intros st'. vm_compute. discriminate.
Defined.

Lemma scalable_reset_reinitialises_witness :
  ∃ w',
    ScalableShampoo.reset Examples.scalable Examples.scalable_world
    = (inr tt, w')
    ∧ param_of w' = param_of Examples.scalable_world
    ∧ ∀ x, (x < 4)%nat → heap w' x = heap Examples.scalable_world x.
Proof.
  destruct (scalable_reset_reinitialises _ _ _ _ Examples.scalable
              Examples.scalable_world) as (w' & Hrun & Hp & Hh & _).
  - intros group p Hgroup Hp.
    apply list_elem_of_singleton in Hgroup as ->.
    apply elem_of_cons in Hp as [->|Hp];
      [|apply list_elem_of_singleton in Hp as ->]; vm_compute; lia.
  - exists w'. split; [exact Hrun|]. split; [exact Hp|exact Hh].
Defined.

Lemma step_without_gradients_witness :
  let shampoo :=
    Shampoo.Optimizer 1 (1 # 1000000)
      [Shampoo.Group (1 # 10) (1 # 2) 0 [2%nat]] in
  let scalable :=
    Examples.scalable_with 5
      [ScalableShampoo.Group (1 # 10) (9 # 10, 999 # 1000)%Q 0 [2%nat]] in
  Shampoo.step Vec.compute_power_svd shampoo (Some (Vec.half_square 0))
    Examples.shampoo_world
  = (inr (Some 2%Q), snd (Vec.half_square 0 Examples.shampoo_world))
  ∧ Shampoo.step Vec.compute_power_svd shampoo None Examples.shampoo_world
    = (inr None, Examples.shampoo_world)
  ∧ ScalableShampoo.step scalable (Some (Vec.half_square 0))
      Examples.scalable_world
    = (inr (Some 2%Q), snd (Vec.half_square 0 Examples.scalable_world))
  ∧ ScalableShampoo.step scalable None Examples.scalable_world
    = (inr None, Examples.scalable_world).
Proof.
  intros shampoo scalable.
  destruct (step_without_gradients Vec.tensor Vec.diagonal _ _
              Vec.compute_power_svd) as [Hshampoo Hscalable].
  destruct (Hshampoo shampoo) as [Hshampoo1 Hshampoo2].
  destruct (Hscalable scalable) as [Hscalable1 Hscalable2].
  split; [|split; [|split]].
  - apply Hshampoo1; [apply pair_fst_snd; vm_compute; reflexivity|].
    intros group p Hgroup Hp. vm_compute in Hgroup.
    apply list_elem_of_singleton in Hgroup as ->. vm_compute in Hp.
    apply list_elem_of_singleton in Hp as ->. reflexivity.
  - apply Hshampoo2.
    intros group p Hgroup Hp. vm_compute in Hgroup.
    apply list_elem_of_singleton in Hgroup as ->. vm_compute in Hp.
    apply list_elem_of_singleton in Hp as ->. reflexivity.
  - apply Hscalable1; [apply pair_fst_snd; vm_compute; reflexivity|].
    intros group p Hgroup Hp. vm_compute in Hgroup.
    apply list_elem_of_singleton in Hgroup as ->. vm_compute in Hp.
    apply list_elem_of_singleton in Hp as ->. reflexivity.
  - apply Hscalable2.
    intros group p Hgroup Hp. vm_compute in Hgroup.
    apply list_elem_of_singleton in Hgroup as ->. vm_compute in Hp.
    apply list_elem_of_singleton in Hp as ->. reflexivity.
Defined.

(** ** SAM: the closure-based step *)

(** [SAM.step(closure)], for parameters that are distinct objects with
    storage of their own and a closure that leaves the state of the
    optimizer and the saved copies alone and gives a gradient only to
    parameters that had one: the step is the step of the base optimizer, run
    in the world the closure leaves except that every parameter to which the
    closure gave a gradient holds the value it had before the step.  A
    parameter that the closure leaves without gradient is not restored: it
    keeps the perturbed value of [first_step]. *)
Theorem sam_step_with_closure :
  ∀ (T B : Type) (ops : TensorOps T)
    (base_optimizer_step : list SAM.group → M T (SAM.state B) unit)
    (set_to_none : bool) (self : SAM.optimizer)
    (closure : M T (SAM.state B) Q) (loss : Q)
    (w w1 w2 : world T (SAM.state B)) (group : SAM.group) (p : pid) (g : loc),
    group ∈ SAM.param_groups self →
    p ∈ SAM.params group →
    grad (param_of w p) = Some g →
    (∀ group0, head (SAM.param_groups self) = Some group0 →
               SAM.params group0 ≠ []) →
    NoDup (grp ← SAM.param_groups self; SAM.params grp) →
    (∀ q, q ∈ (grp ← SAM.param_groups self; SAM.params grp) →
          (data (param_of w q) < next w)%nat
          ∧ ∀ g, grad (param_of w q) = Some g → (g < next w)%nat) →
    (∀ q q', q ∈ (grp ← SAM.param_groups self; SAM.params grp) →
             q' ∈ (grp ← SAM.param_groups self; SAM.params grp) →
             q ≠ q' → data (param_of w q) ≠ data (param_of w q')) →
    (∀ q q' g, q ∈ (grp ← SAM.param_groups self; SAM.params grp) →
               q' ∈ (grp ← SAM.param_groups self; SAM.params grp) →
               grad (param_of w q') = Some g → g ≠ data (param_of w q)) →
    SAM.first_step set_to_none self true w = (inr tt, w1) →
    closure w1 = (inr loss, w2) →
    SAM.old_p (opt w2) = SAM.old_p (opt w1) →
    (∀ q l, SAM.old_p (opt w1) q = Some l → heap w2 l = heap w1 l) →
    (∀ q, q ∈ (grp ← SAM.param_groups self; SAM.params grp) →
          is_Some (grad (param_of w2 q)) → is_Some (grad (param_of w q))) →
    ∃ w_r,
      SAM.step base_optimizer_step set_to_none self (Some closure) w
      = (base_optimizer_step (SAM.param_groups self) ≫= λ _, mret None) w_r
      ∧ heap w_r = heap w2 ∧ next w_r = next w2 ∧ opt w_r = opt w2
      ∧ (∀ q, grad (param_of w_r q) = grad (param_of w2 q))
      ∧ (∀ q, q ∈ (grp ← SAM.param_groups self; SAM.params grp) →
              is_Some (grad (param_of w2 q)) →
              heap w_r (data (param_of w_r q)) = heap w (data (param_of w q)))
      ∧ (∀ q, grad (param_of w2 q) = None → param_of w_r q = param_of w2 q).
Proof.
  intros * Hgroup Hp Hg Hhead Hnd Hlt Hdata Hgrad Hfirst Hclosure Hold Hsaved
    Hsub.
  destruct (first_step_all set_to_none self true w group p g)
    as (w1' & Hrun & _ & _ & Hval & _); try done.
  rewrite Hfirst in Hrun. injection Hrun as <-.
  destruct (restore_loop (grp ← SAM.param_groups self; SAM.params grp) w2)
    as (w_r & Hrun' & Hh & Hn & Ho & Hgr & Hin & Hout).
  { intros q Hq Hsome. destruct (Hsub q Hq Hsome) as [gq Hgq].
    apply list_elem_of_bind in Hq as (grp & Hq & Hgrp).
    destruct (Hval grp q gq) as [_ (l & Hl & _)]; try done.
    rewrite Hold, Hl. eauto. }
  exists w_r. split.
  { unfold SAM.step, SAM.second_step.
    rewrite (bind_inr _ _ _ _ _ Hfirst), (bind_inr _ _ _ _ _ Hclosure).
    rewrite bind_bind. erewrite bind_inr by (rewrite for_flat; exact Hrun').
    unfold mbind, M_bind, bind, mret, M_ret, ret.
    by destruct (base_optimizer_step (SAM.param_groups self) w_r)
      as [[e|[]] w3]. }
  do 4 (split; [done|]). split.
  - intros q Hq Hsome. destruct (Hsub q Hq Hsome) as [gq Hgq].
    pose proof Hq as Hq'.
    apply list_elem_of_bind in Hq' as (grp & Hq' & Hgrp).
    destruct (Hval grp q gq) as [_ (l & Hl & _ & Hpv)]; try done.
    specialize (Hin q Hq Hsome). rewrite Hold, Hl in Hin.
    injection Hin as <-. rewrite Hh, (Hsaved q l Hl). exact Hpv.
  - intros q Hq. apply Hout. by right.
Qed.

Lemma sam_step_with_closure_witness :
  ∃ w_r,
    SAM.step (Vec.sgd_step (1 # 10)) true Examples.sam_adaptive
      (Some (Vec.half_square 0)) Examples.sam_world_adaptive
    = (Vec.sgd_step (1 # 10) (SAM.param_groups Examples.sam_adaptive)
       ≫= λ _, mret None) w_r
    ∧ heap w_r (data (param_of w_r 0%nat)) = Vec.scalar 1
    ∧ param_of w_r 1%nat = Param 2 None.
Proof.
  pose (w1 := snd (SAM.first_step true Examples.sam_adaptive true
                     Examples.sam_world_adaptive)).
  pose (w2 := snd (Vec.half_square 0 w1)).
  pose (loss := match fst (Vec.half_square 0 w1) with
                | inr l => l
                | inl _ => 0%Q
                end).
  destruct (sam_step_with_closure _ unit _ (Vec.sgd_step (1 # 10)) true
              Examples.sam_adaptive (Vec.half_square 0) loss
              Examples.sam_world_adaptive w1 w2 Examples.sam_adaptive_group
              0%nat 1%nat)
    as (w_r & Hrun & _ & _ & _ & _ & Hrestored & Hkept).
  - apply elem_of_cons. by left.
  - apply elem_of_cons. by left.
  - reflexivity.
  - intros group0 [= <-]. discriminate.
  - sam_objects.
  - sam_objects.
  - sam_objects.
  - sam_objects.
  - apply pair_fst_snd. vm_compute. reflexivity.
  - apply pair_fst_snd. vm_compute. reflexivity.
  - vm_compute. reflexivity.
  - intros q l. destruct q as [|[|q]]; vm_compute; try discriminate;
      intros [= <-]; reflexivity.
  - intros q Hq. elem_cases Hq; vm_compute; eauto.
    all: intros [x Hx]; discriminate.
  - exists w_r. split; [exact Hrun|]. split.
    + apply (Hrestored 0%nat).
      * apply elem_of_cons. by left.
      * vm_compute. eauto.
    + rewrite (Hkept 1%nat); reflexivity.
Defined.
